(** * metafile-codecov-bundle: a shallow embedding and its verified properties

    The development embeds the library part of the package
    ([normalize.ts], [compress.ts], [transform.ts], [providers/github.ts],
    [upload.ts]) and proves the properties claimed of it.

    JavaScript strings are modelled by [string]; every character the code
    inspects is ASCII and all other code units are treated opaquely, so the
    8-bit alphabet loses nothing the functions can observe.  Functions of
    [node:path] are modelled after the POSIX implementation that Node and
    Bun share. *)

From Stdlib Require Import ZArith NArith Ascii Bool.
From Equations Require Import Equations.
From stdpp Require Import gmap strings list fin_maps pretty.

Open Scope Z_scope.

(** ** Part I: definitions *)

(** *** JavaScript strings *)

Module Js.

Abbreviation chars := String.list_ascii_of_string.
Abbreviation str := String.string_of_list_ascii.

Definition code (c : ascii) : N := N_of_ascii c.

Definition in_range (lo hi : ascii) (c : ascii) : bool :=
  ((code lo <=? code c) && (code c <=? code hi))%N.

(** The class [[0-9]]. *)
Definition is_digit : ascii → bool := in_range "0" "9".

(** The class [[a-f0-9]] under the [i] flag: both letter cases match. *)
Definition is_hex (c : ascii) : bool :=
  in_range "a" "f" c || is_digit c || in_range "A" "F" c.

(** The class [[a-z]] under the [i] flag. *)
Definition is_alpha (c : ascii) : bool :=
  in_range "a" "z" c || in_range "A" "Z" c.

(** The class [[a-z]] read without the [i] flag. *)
Definition is_lower : ascii → bool := in_range "a" "z".

Definition is_slash (c : ascii) : bool := bool_decide (c = "/"%char).
Definition is_dot (c : ascii) : bool := bool_decide (c = "."%char).

(** [s.indexOf(c)] for a one-character search string; [-1] when absent. *)
Fixpoint indexOf (s : string) (c : ascii) : Z :=
  match s with
  | EmptyString => -1
  | String a s' =>
      if bool_decide (a = c) then 0
      else let i := indexOf s' c in if i =? -1 then -1 else i + 1
  end.

(** [s.slice(b, e)] and [s.slice(b)] for indices within [0 .. length]. *)
Definition slice (s : string) (b e : Z) : string :=
  String.substring (Z.to_nat b) (Z.to_nat (e - b)) s.
Definition slice_from (s : string) (b : Z) : string :=
  String.substring (Z.to_nat b) (String.length s - Z.to_nat b) s.

(** [s.endsWith(suffix)]. *)
Fixpoint starts_with_chars (p s : list ascii) : bool :=
  match p, s with
  | [], _ => true
  | a :: p', b :: s' => bool_decide (a = b) && starts_with_chars p' s'
  | _ :: _, [] => false
  end.
Definition endsWith (s suffix : string) : bool :=
  starts_with_chars (rev (chars suffix)) (rev (chars s)).

(** Greedy match of a character class: the longest prefix in the class
    and what follows it. *)
Fixpoint take_class (f : ascii → bool) (s : list ascii) : list ascii :=
  match s with
  | c :: s' => if f c then c :: take_class f s' else []
  | [] => []
  end.
Fixpoint drop_class (f : ascii → bool) (s : list ascii) : list ascii :=
  match s with
  | c :: s' => if f c then drop_class f s' else s
  | [] => []
  end.

(** Splitting at a separator and gluing back, on characters. *)
Fixpoint split_on (sep : ascii) (s : list ascii) : list (list ascii) :=
  match s with
  | [] => [[]]
  | c :: s' =>
      if bool_decide (c = sep) then [] :: split_on sep s'
      else match split_on sep s' with
           | seg :: segs => (c :: seg) :: segs
           | [] => [[c]]
           end
  end.
Fixpoint glue (sep : ascii) (segs : list (list ascii)) : list ascii :=
  match segs with
  | [] => []
  | [seg] => seg
  | seg :: segs' => seg ++ sep :: glue sep segs'
  end.

(** [has_char c s]: the character occurs in the string. *)
Definition has_char (c : ascii) (s : string) : Prop :=
  ∃ a b, s = a +:+ String c b.

(** Truthiness of a string: only the empty string is falsy. *)
Definition truthy (s : string) : bool := negb (bool_decide (s = "")).

End Js.

(** *** node:path (POSIX) *)

Module Path.
Import Js.

(** [basename(p)]: trailing slashes are skipped, then the text after the
    last remaining slash is returned; a path of slashes only gives [""]. *)
Definition basename_chars (p : list ascii) : list ascii :=
  rev (take_class (λ c, negb (is_slash c)) (drop_class is_slash (rev p))).
Definition basename (p : string) : string := str (basename_chars (chars p)).

(** [dirname(p)]: the loop scans indices [length-1 .. 1] from the right,
    skips trailing slashes, skips the last segment and cuts at the slash
    before it; index [0] is never inspected by the loop. *)
Definition dirname_chars (p : list ascii) : list ascii :=
  match p with
  | [] => ["."%char]
  | c0 :: body =>
      let hasRoot := is_slash c0 in
      match drop_class (λ c, negb (is_slash c))
              (drop_class is_slash (rev body)) with
      | [] => if hasRoot then ["/"%char] else ["."%char]
      | _ :: r =>
          if hasRoot && bool_decide (r = []) then ["/"; "/"]%char
          else c0 :: rev r
      end
  end.
Definition dirname (p : string) : string := str (dirname_chars (chars p)).

(** [normalizeString]: resolves [.] and [..] segments.  The stack holds
    the kept segments, last one first. *)
Definition dotdot : list ascii := ["."; "."]%char.
Definition normalize_step (allowAboveRoot : bool)
    (stack : list (list ascii)) (seg : list ascii) : list (list ascii) :=
  if bool_decide (seg = []) || bool_decide (seg = ["."%char]) then stack
  else if bool_decide (seg = dotdot) then
    match stack with
    | top :: rest =>
        if bool_decide (top = dotdot)
        then (if allowAboveRoot then dotdot :: stack else stack)
        else rest
    | [] => if allowAboveRoot then [dotdot] else []
    end
  else seg :: stack.
Definition normalizeString (p : list ascii) (allowAboveRoot : bool)
    : list ascii :=
  glue "/" (rev (fold_left (normalize_step allowAboveRoot) (split_on "/" p) [])).

(** [normalize(p)]. *)
Definition normalize_chars (p : list ascii) : list ascii :=
  match p with
  | [] => ["."%char]
  | c0 :: _ =>
      let isAbsolute := is_slash c0 in
      let trailingSeparator :=
        match rev p with c :: _ => is_slash c | [] => false end in
      let q := normalizeString p (negb isAbsolute) in
      match q with
      | [] =>
          if isAbsolute then ["/"%char]
          else if trailingSeparator then ["."; "/"]%char else ["."%char]
      | _ =>
          let q' := if trailingSeparator then q ++ ["/"%char] else q in
          if isAbsolute then "/"%char :: q' else q'
      end
  end.

(** [join(...args)]: the non-empty arguments glued with [/], normalized. *)
Definition join_chars (args : list (list ascii)) : list ascii :=
  match List.filter (λ a, negb (bool_decide (a = []))) args with
  | [] => ["."%char]
  | parts => normalize_chars (glue "/" parts)
  end.
Definition join (args : list string) : string :=
  str (join_chars (chars <$> args)).

End Path.

(** *** normalize.ts *)

Module Normalize.
Import Js Path.

(** The delimiter class [[-.]]. *)
Definition is_delim (c : ascii) : bool :=
  bool_decide (c = "-"%char) || bool_decide (c = "."%char).

(** One attempt of [/([-.])[a-f0-9]{8,}(\.[a-z]+)$/i] at the head of [s].
    The greedy hex run cannot give characters back: what follows it has to
    be a dot, which is not a hex digit.  The pattern is anchored at the end
    of the input, so a match always covers the rest of [s]; the result is the
    replacement text [$1*$2]. *)
Definition match_hash_ext (s : list ascii) : option (list ascii) :=
  match s with
  | d :: rest =>
      if is_delim d && (8 <=? length (take_class is_hex rest))%nat then
        match drop_class is_hex rest with
        | dot :: ext =>
            if is_dot dot && negb (bool_decide (ext = [])) && forallb is_alpha ext
            then Some (d :: "*"%char :: dot :: ext)
            else None
        | [] => None
        end
      else None
  | [] => None
  end.

(** [base.replace(/([-.])[a-f0-9]{8,}(\.[a-z]+)$/i, "$1*$2")]: the leftmost
    position at which the pattern matches is rewritten. *)
Fixpoint replace_hash_ext (s : list ascii) : list ascii :=
  match match_hash_ext s with
  | Some r => r
  | None => match s with
            | [] => []
            | c :: s' => c :: replace_hash_ext s'
            end
  end.

(** One attempt of [/[a-f0-9]{8,}/i] at the head of [s]: the text left after
    the greedy run. *)
Definition match_hex_run (s : list ascii) : option (list ascii) :=
  if (8 <=? length (take_class is_hex s))%nat
  then Some (drop_class is_hex s) else None.

Lemma match_hex_run_shorter s rest :
  match_hex_run s = Some rest → (length rest < length s)%nat.
Proof.
  unfold match_hex_run. case_match eqn:Hlen; [|done]. intros [= <-].
  apply Nat.leb_le in Hlen.
  assert (∀ t, length (take_class is_hex t) + length (drop_class is_hex t)
               = length t)%nat as Hsplit.
  { induction t as [|c t IH]; simpl; [done|]. destruct (is_hex c); simpl; lia. }
  specialize (Hsplit s). lia.
Qed.

Definition inspect {A : Type} (x : A) : {y : A | x = y} := exist _ x eq_refl.

(** [base.replace(/[a-f0-9]{8,}/gi, "*")]: scanning resumes after each
    match, and moves one character on where there is none. *)
Equations? replace_hex_runs (s : list ascii) : list ascii by wf (length s) lt :=
  replace_hex_runs [] := [];
  replace_hex_runs (c :: s') with inspect (match_hex_run (c :: s')) := {
    | exist _ (Some rest) Hm := "*"%char :: replace_hex_runs rest;
    | exist _ None _ := c :: replace_hex_runs s' }.
Proof.
  all: try (apply match_hex_run_shorter in Hm; simpl in Hm); simpl; lia.
Qed.

Definition normalizeAssetName (name : string) : string :=
  let dir := dirname name in
  let base := basename name in
  let normalized := str (replace_hash_ext (chars base)) in
  if bool_decide (normalized ≠ base) then
    if bool_decide (dir = ".") then normalized else join [dir; normalized]
  else
    let fallback := str (replace_hex_runs (chars base)) in
    if bool_decide (dir = ".") then fallback else join [dir; fallback].

(** Vocabulary for the properties.  A hash segment of a base name: a
    delimiter, a run of at least eight hex digits and a final extension, a
    dot and letters of the class [letter], up to the end of the name. *)
Definition has_hash_segment (letter : ascii → bool) (base pre : string)
    (d : ascii) (hash ext : string) : Prop :=
  base = pre +:+ String d (hash +:+ "." +:+ ext)
  ∧ is_delim d = true
  ∧ forallb is_hex (chars hash) = true
  ∧ (8 ≤ String.length hash)%nat
  ∧ ext ≠ ""
  ∧ forallb letter (chars ext) = true.

(** The text after a maximal run of hex digits: nothing, or a character
    that is no hex digit. *)
Definition run_ends (s : list ascii) : Prop :=
  match s with
  | [] => True
  | c :: _ => is_hex c = false
  end.

(** [RunsStarred s t]: [t] is [s] with every maximal run of eight or more
    hex digits replaced by a star, and nothing else changed. *)
Inductive RunsStarred : list ascii → list ascii → Prop :=
| starred_nil : RunsStarred [] []
| starred_other c s t :
    is_hex c = false → RunsStarred s t → RunsStarred (c :: s) (c :: t)
| starred_short run s t :
    run ≠ [] → forallb is_hex run = true → (length run < 8)%nat →
    run_ends s → RunsStarred s t → RunsStarred (run ++ s) (run ++ t)
| starred_long run s t :
    forallb is_hex run = true → (8 ≤ length run)%nat →
    run_ends s → RunsStarred s t → RunsStarred (run ++ s) ("*"%char :: t).

(** Every run of hex digits in the string is shorter than eight. *)
Definition short_hex_runs (s : string) : Prop :=
  ∀ pre run post,
    s = pre +:+ run +:+ post → forallb is_hex (chars run) = true →
    (String.length run < 8)%nat.

(** A decision procedure for it: no position starts eight hex digits. *)
Fixpoint short_hex_runs_check (s : list ascii) : bool :=
  match s with
  | [] => true
  | _ :: s' =>
      (length (take_class is_hex s) <? 8)%nat && short_hex_runs_check s'
  end.

(** A path in normal form: segments that are neither empty nor [.] nor
    [..], separated by single slashes. *)
Definition plain_segment (s : string) : Prop :=
  s ≠ "" ∧ s ≠ "." ∧ s ≠ ".." ∧ ¬ has_char "/" s.

(** The same on characters. *)
Definition plain_chars (s : list ascii) : Prop :=
  s ≠ [] ∧ s ≠ ["."%char] ∧ s ≠ dotdot ∧ "/"%char ∉ s.

Definition path_of (segments : list string) : string :=
  str (glue "/" (chars <$> segments)).

End Normalize.

(** *** compress.ts *)

Module Compress.
Import Js.

(** The encoder behind [gzipSync] of [node:zlib]: the DEFLATE coder and the
    checksum are left abstract, the two header bytes that depend on the
    build of zlib are settings. *)
Record Zlib := {
  xfl : Byte.byte;
  os : Byte.byte;
  deflate : list Byte.byte → list Byte.byte;
  crc32 : list Byte.byte → N
}.

Definition le32 (n : N) : list Byte.byte :=
  (λ i, default Byte.x00 (Byte.of_N ((n / 256 ^ i) mod 256)%N)) <$> [0; 1; 2; 3]%N.

(** A gzip member (RFC 1952): ten header bytes, the compressed blocks, the
    CRC-32 and the input size modulo [2^32]. *)
Definition gzipSync (z : Zlib) (content : list Byte.byte) : list Byte.byte :=
  [Byte.x1f; Byte.x8b; Byte.x08; Byte.x00;
   Byte.x00; Byte.x00; Byte.x00; Byte.x00; xfl z; os z]
  ++ deflate z content
  ++ le32 (crc32 z content)
  ++ le32 (N.of_nat (length content) mod 2 ^ 32)%N.

Definition COMPRESSIBLE_extensions : list string :=
  ["css"; "html"; "json"; "js"; "mjs"; "svg"; "txt"; "xml"; "xhtml"].

(** [COMPRESSIBLE.test(fileName)] for
    [/\.(css|html|json|js|mjs|svg|txt|xml|xhtml)$/]. *)
Definition COMPRESSIBLE_test (fileName : string) : bool :=
  existsb (λ ext, endsWith fileName ("." +:+ ext)) COMPRESSIBLE_extensions.

(** The extension of a file name: the text after its last dot, if it has a
    dot at all. *)
Definition file_extension (fileName : string) : option string :=
  let r := rev (chars fileName) in
  match drop_class (λ c, negb (is_dot c)) r with
  | [] => None
  | _ :: _ => Some (str (rev (take_class (λ c, negb (is_dot c)) r)))
  end.

Definition getGzipSize (z : Zlib) (fileName : string)
    (content : list Byte.byte) : option Z :=
  if negb (COMPRESSIBLE_test fileName) then None
  else Some (Z.of_nat (length (gzipSync z content))).

(** An encoder to run examples with: one stored block, no checksum. *)
Definition example_zlib : Zlib := {|
  xfl := Byte.x00;
  os := Byte.x03;
  deflate := λ content, Byte.x01 :: content;
  crc32 := λ _, 0%N
|}.

End Compress.

(** *** providers/github.ts *)

Module Github.
Import Js.

Definition encodeSlug (ownerRepo : string) : string :=
  let idx := indexOf ownerRepo "/" in
  if idx =? -1 then ownerRepo +:+ "::::"
  else
    let owner := slice ownerRepo 0 idx in
    let repo := slice_from ownerRepo (idx + 1) in
    owner +:+ ":::" +:+ repo +:+ "::::".

End Github.

(** *** JavaScript objects used as records of string keys *)

Module JsObject.

(** The own enumerable properties of an object, in the order
    [Object.entries] lists them.  An object holds a key at most once
    ([wf]). *)
Definition t (V : Type) : Type := list (string * V).

Definition keys {V} (o : t V) : list string := o.*1.

Definition wf {V} (o : t V) : Prop := NoDup (keys o).

Definition has_own {V} (k : string) (o : t V) : bool :=
  bool_decide (k ∈ keys o).

(** The properties every plain object (an object literal, a value built by
    [JSON.parse]) inherits from [Object.prototype]. *)
Definition Object_prototype_keys : list string :=
  ["constructor"; "__defineGetter__"; "__defineSetter__"; "hasOwnProperty";
   "__lookupGetter__"; "__lookupSetter__"; "isPrototypeOf";
   "propertyIsEnumerable"; "toString"; "valueOf"; "__proto__";
   "toLocaleString"].

(** [k in o]: the operator answers for own and for inherited properties. *)
Definition js_in {V} (k : string) (o : t V) : bool :=
  has_own k o || bool_decide (k ∈ Object_prototype_keys).

End JsObject.

(** *** types.ts *)

Module InputImport.
Record t := mk { path : string; kind : string; original : option string }.
End InputImport.

Module OutputImport.
Record t := mk {
  path : string;
  kind : string;
  original : option string;
  external : option bool
}.
End OutputImport.

Module MetafileInput.
Record t := mk {
  bytes : Z;
  imports : list InputImport.t;
  format : option string
}.
End MetafileInput.

Module MetafileOutput.
Record t := mk {
  bytes : Z;
  inputs : JsObject.t Z;  (* path ↦ bytesInOutput *)
  imports : list OutputImport.t;
  exports : list string;
  entryPoint : option string
}.
End MetafileOutput.

Module Metafile.
Record t := mk {
  inputs : JsObject.t MetafileInput.t;
  outputs : JsObject.t MetafileOutput.t
}.
End Metafile.

Module Asset.
Record t := mk {
  name : string;
  size : Z;
  gzipSize : option Z;
  normalized : string
}.
End Asset.

Module Chunk.
Record t := mk {
  id : string;
  uniqueId : string;
  entry : bool;
  initial : bool;
  names : list string;
  files : list string;
  dynamicImports : list string
}.
End Chunk.

Module ModuleEntry.
Record t := mk {
  name : string;
  size : Z;
  chunkUniqueIds : list string
}.
End ModuleEntry.

Module NameVersion.
Record t := mk { name : string; version : string }.
End NameVersion.

Module OutputPayload.
Record t := mk {
  version : string;
  bundleName : string;
  bundler : option NameVersion.t;
  builtAt : option Z;
  duration : option Z;
  assets : list Asset.t;
  chunks : list Chunk.t;
  modules : list ModuleEntry.t;
  plugin : NameVersion.t
}.
End OutputPayload.

(** *** transform.ts *)

Module Transform.
Import Js Path.

Module TransformOptions.
Record t := mk {
  bundleName : string;
  outputDir : option string;
  bundler : option NameVersion.t;
  builtAt : option Z;
  duration : option Z
}.
End TransformOptions.

(** What the function reads from its surroundings: the file system
    ([resolve] depends on the working directory, [readFileSync] gives [None]
    where it throws), the clock, the zlib build and the version recorded in
    [package.json]. *)
Record Env := {
  resolve : string → string;
  readFileSync : string → option (list Byte.byte);
  Date_now : Z;
  zlib : Compress.Zlib;
  PLUGIN_VERSION : string
}.

(** The template literal [`${i}-${outputPath}`]. *)
Definition uniqueId_of (i : nat) (outputPath : string) : string :=
  pretty i +:+ "-" +:+ outputPath.

(** The first loop: [chunkIdMap.set(outputPath, `${i}-${outputPath}`)] for
    [i = 0 .. length - 1]. *)
Fixpoint fill_chunkIdMap (entries : JsObject.t MetafileOutput.t) (i : nat)
    (chunkIdMap : gmap string string) : gmap string string :=
  match entries with
  | [] => chunkIdMap
  | (outputPath, _) :: rest =>
      fill_chunkIdMap rest (S i) (<[outputPath := uniqueId_of i outputPath]> chunkIdMap)
  end.

(** One attempt of [/\.[^.]+$/] at the head of [s]. *)
Definition match_ext (s : list ascii) : bool :=
  match s with
  | d :: rest =>
      is_dot d && negb (bool_decide (rest = []))
      && forallb (λ c, negb (is_dot c)) rest
  | [] => false
  end.

(** [s.replace(/\.[^.]+$/, "")]. *)
Fixpoint strip_ext_chars (s : list ascii) : list ascii :=
  if match_ext s then []
  else match s with
       | [] => []
       | c :: s' => c :: strip_ext_chars s'
       end.
Definition strip_ext (s : string) : string := str (strip_ext_chars (chars s)).

(** The loop collecting dynamic imports. *)
Fixpoint collect_dynamicImports (imports : list OutputImport.t)
    (dynamicImports : list string) : list string :=
  match imports with
  | [] => dynamicImports
  | imp :: rest =>
      if bool_decide (OutputImport.kind imp = "dynamic-import")
         && negb (bool_decide (OutputImport.external imp = Some true))
      then collect_dynamicImports rest (dynamicImports ++ [OutputImport.path imp])
      else collect_dynamicImports rest dynamicImports
  end.

Definition gzipSize_of (env : Env) (outputDir : option string)
    (outputPath : string) : option Z :=
  match outputDir with
  | Some dir =>
      if truthy dir then
        match readFileSync env (join [dir; basename outputPath]) with
        | Some content => Compress.getGzipSize (zlib env) outputPath content
        | None => None
        end
      else None
  | None => None
  end.

Definition chunk_name (outputPath : string) (output : MetafileOutput.t) : string :=
  match MetafileOutput.entryPoint output with
  | Some ep =>
      if truthy ep then strip_ext (basename ep)
      else strip_ext (basename outputPath)
  | None => strip_ext (basename outputPath)
  end.

(** The loop over the outputs that fills [assets] and [chunks].  The
    non-null assertion of [chunkIdMap.get(outputPath)!] is a total lookup:
    the first loop has stored an id for every path this loop visits. *)
Fixpoint outputs_loop (env : Env) (outputDir : option string)
    (chunkIdMap : gmap string string)
    (entries : JsObject.t MetafileOutput.t)
    (assets : list Asset.t) (chunks : list Chunk.t)
    : list Asset.t * list Chunk.t :=
  match entries with
  | [] => (assets, chunks)
  | (outputPath, output) :: rest =>
      if endsWith outputPath ".map" then
        outputs_loop env outputDir chunkIdMap rest assets chunks
      else
        let uniqueId := chunkIdMap !!! outputPath in
        let gzipSize := gzipSize_of env outputDir outputPath in
        let assets := assets ++ [
          {| Asset.name := outputPath;
             Asset.size := MetafileOutput.bytes output;
             Asset.gzipSize := gzipSize;
             Asset.normalized := Normalize.normalizeAssetName outputPath |} ] in
        let dynamicImports :=
          collect_dynamicImports (MetafileOutput.imports output) [] in
        let name := chunk_name outputPath output in
        let chunks := chunks ++ [
          {| Chunk.id := outputPath;
             Chunk.uniqueId := uniqueId;
             Chunk.entry := bool_decide (MetafileOutput.entryPoint output ≠ None);
             Chunk.initial := bool_decide (MetafileOutput.entryPoint output ≠ None);
             Chunk.names := [name];
             Chunk.files := [outputPath];
             Chunk.dynamicImports := dynamicImports |} ] in
        outputs_loop env outputDir chunkIdMap rest assets chunks
  end.

(** The inner loop of the modules part, for one input path. *)
Fixpoint link_loop (chunkIdMap : gmap string string) (inputPath : string)
    (entries : JsObject.t MetafileOutput.t) (chunkUniqueIds : list string)
    : list string :=
  match entries with
  | [] => chunkUniqueIds
  | (outputPath, output) :: rest =>
      if endsWith outputPath ".map" then
        link_loop chunkIdMap inputPath rest chunkUniqueIds
      else if JsObject.js_in inputPath (MetafileOutput.inputs output) then
        match chunkIdMap !! outputPath with
        | Some uid =>
            if truthy uid
            then link_loop chunkIdMap inputPath rest (chunkUniqueIds ++ [uid])
            else link_loop chunkIdMap inputPath rest chunkUniqueIds
        | None => link_loop chunkIdMap inputPath rest chunkUniqueIds
        end
      else link_loop chunkIdMap inputPath rest chunkUniqueIds
  end.

(** The loop over the inputs that fills [modules]. *)
Fixpoint modules_loop (chunkIdMap : gmap string string)
    (outputEntries : JsObject.t MetafileOutput.t)
    (entries : JsObject.t MetafileInput.t) (modules : list ModuleEntry.t)
    : list ModuleEntry.t :=
  match entries with
  | [] => modules
  | (inputPath, input) :: rest =>
      let chunkUniqueIds := link_loop chunkIdMap inputPath outputEntries [] in
      modules_loop chunkIdMap outputEntries rest
        (modules ++ [
          {| ModuleEntry.name := inputPath;
             ModuleEntry.size := MetafileInput.bytes input;
             ModuleEntry.chunkUniqueIds := chunkUniqueIds |} ])
  end.

Definition transformMetafile (env : Env) (metafile : Metafile.t)
    (options : TransformOptions.t) : OutputPayload.t :=
  let outputDir :=
    match TransformOptions.outputDir options with
    | Some d => if truthy d then Some (resolve env d) else None
    | None => None
    end in
  let outputEntries := Metafile.outputs metafile in
  let chunkIdMap := fill_chunkIdMap outputEntries 0 ∅ in
  let '(assets, chunks) :=
    outputs_loop env outputDir chunkIdMap outputEntries [] [] in
  let modules :=
    modules_loop chunkIdMap outputEntries (Metafile.inputs metafile) [] in
  {| OutputPayload.version := "3";
     OutputPayload.bundleName := TransformOptions.bundleName options;
     OutputPayload.bundler := TransformOptions.bundler options;
     OutputPayload.builtAt :=
       Some (default (Date_now env) (TransformOptions.builtAt options));
     OutputPayload.duration := TransformOptions.duration options;
     OutputPayload.assets := assets;
     OutputPayload.chunks := chunks;
     OutputPayload.modules := modules;
     OutputPayload.plugin :=
       {| NameVersion.name := "metafile-codecov-bundle";
          NameVersion.version := PLUGIN_VERSION env |} |}.

(** Vocabulary for the properties: source maps, the outputs with their
    position in the enumeration, and the import edges that count as
    dynamic. *)
Definition is_source_map (outputPath : string) : bool :=
  endsWith outputPath ".map".

Fixpoint indexed_from {A} (i : nat) (l : list A) : list (nat * A) :=
  match l with
  | [] => []
  | x :: l' => (i, x) :: indexed_from (S i) l'
  end.
Definition indexed {A} (l : list A) : list (nat * A) := indexed_from 0 l.

Definition emitted {V} (outputs : JsObject.t V) : JsObject.t V :=
  List.filter (λ e, negb (is_source_map e.1)) outputs.

Definition is_dynamic_edge (imp : OutputImport.t) : bool :=
  bool_decide (OutputImport.kind imp = "dynamic-import")
  && negb (bool_decide (OutputImport.external imp = Some true)).

(** The chunk ids a module is to list according to the specification: those
    of the outputs, source maps apart, that hold the input path as a key of
    their [inputs]. *)
Definition member_chunk_ids (inputPath : string)
    (outputs : JsObject.t MetafileOutput.t) : list string :=
  (λ ie, uniqueId_of ie.1 ie.2.1) <$>
  List.filter (λ ie, negb (is_source_map ie.2.1)
                     && JsObject.has_own inputPath (MetafileOutput.inputs ie.2.2))
    (indexed outputs).

(** The asset and the chunk pushed for one output. *)
Definition asset_of (env : Env) (outputDir : option string)
    (e : string * MetafileOutput.t) : Asset.t :=
  {| Asset.name := e.1;
     Asset.size := MetafileOutput.bytes e.2;
     Asset.gzipSize := gzipSize_of env outputDir e.1;
     Asset.normalized := Normalize.normalizeAssetName e.1 |}.

Definition chunk_of (chunkIdMap : gmap string string)
    (e : string * MetafileOutput.t) : Chunk.t :=
  {| Chunk.id := e.1;
     Chunk.uniqueId := chunkIdMap !!! e.1;
     Chunk.entry := bool_decide (MetafileOutput.entryPoint e.2 ≠ None);
     Chunk.initial := bool_decide (MetafileOutput.entryPoint e.2 ≠ None);
     Chunk.names := [chunk_name e.1 e.2];
     Chunk.files := [e.1];
     Chunk.dynamicImports :=
       OutputImport.path <$> List.filter is_dynamic_edge (MetafileOutput.imports e.2) |}.

(** What the inner loop of the modules part pushes for one output. *)
Definition linked_id (m : gmap string string) (inputPath : string)
    (e : string * MetafileOutput.t) : option string :=
  if is_source_map e.1 then None
  else if JsObject.js_in inputPath (MetafileOutput.inputs e.2) then
    match m !! e.1 with
    | Some uid => if truthy uid then Some uid else None
    | None => None
    end
  else None.

Definition module_of (m : gmap string string)
    (outputEntries : JsObject.t MetafileOutput.t)
    (e : string * MetafileInput.t) : ModuleEntry.t :=
  {| ModuleEntry.name := e.1;
     ModuleEntry.size := MetafileInput.bytes e.2;
     ModuleEntry.chunkUniqueIds := omap (linked_id m e.1) outputEntries |}.

(** Values to run examples with. *)
Definition example_env : Env := {|
  resolve := λ p, "/work/" +:+ p;
  readFileSync := λ _, None;
  Date_now := 1700000000000;
  zlib := Compress.example_zlib;
  PLUGIN_VERSION := "0.0.0"
|}.

Definition example_options : TransformOptions.t :=
  TransformOptions.mk "test" None None None None.

Definition example_output (inputs : JsObject.t Z)
    (imports : list OutputImport.t) (entryPoint : option string)
    : MetafileOutput.t :=
  MetafileOutput.mk 100 inputs imports [] entryPoint.

(** The three outputs of the test suite: an entry, a lazily loaded chunk and
    a source map. *)
Definition example_metafile : Metafile.t :=
  Metafile.mk
    [("src/main.tsx", MetafileInput.mk 200 [] (Some "esm"));
     ("src/lazy.tsx", MetafileInput.mk 100 [] (Some "esm"))]
    [("main.js",
      example_output [("src/main.tsx", 180)]
        [OutputImport.mk "lazy.js" "dynamic-import" None None;
         OutputImport.mk "node:fs" "dynamic-import" None (Some true);
         OutputImport.mk "util.js" "import-statement" None None]
        (Some "src/main.tsx"));
     ("lazy.js", example_output [("src/lazy.tsx", 75)] [] None);
     ("main.js.map", example_output [] [] None)].

(** An input whose path is the name of a property every object inherits,
    and an output built from no input at all. *)
Definition inherited_key_metafile : Metafile.t :=
  Metafile.mk
    [("constructor", MetafileInput.mk 10 [] None)]
    [("out.js", example_output [] [] None)].

(** An output whose [entryPoint] is present and empty. *)
Definition empty_entryPoint_metafile : Metafile.t :=
  Metafile.mk [] [("dist/a.js", example_output [] [] (Some ""))].

End Transform.

(** *** upload.ts *)

Module Upload.
Import Js.

Record GitHubActionsParams := {
  branch : string;
  commit : string;
  pr : string;
  service : string;
  slug : string;
  build : string;
  buildURL : string;
  job : string
}.

(** A thrown value: an [Error] with its message, or any other value,
    given by what [String(value)] returns for it. *)
Inductive Thrown :=
| ErrorObj (message : string)
| OtherValue (asString : string).

(** [err instanceof Error ? err.message : String(err)]. *)
Definition message_of (err : Thrown) : string :=
  match err with
  | ErrorObj message => message
  | OtherValue s => s
  end.

(** The value [response.json()] resolves to, as far as the code looks at
    it: [null], or a value whose [url] property is absent or a string. *)
Inductive JsonData :=
| JsonNull
| JsonObject (url : option string).

Record Response := {
  status : N;
  statusText : string;
  json : Thrown + JsonData   (* [inl]: the promise of [json()] rejects *)
}.

(** [response.ok]: the status is in the range 200-299. *)
Definition ok (response : Response) : bool :=
  ((200 <=? status response) && (status response <=? 299))%N.

Record RequestInit := {
  method : string;
  headers : list (string * string);
  body : string
}.

(** What the code does to the outside world, in order. *)
Inductive Event :=
| Fetch (url : string) (init : RequestInit)
| Sleep (ms : Z).

Definition History := list Event.

(** The number of requests in a stretch of history. *)
Definition fetch_count (h : History) : nat :=
  length (List.filter (λ e, match e with Fetch _ _ => true | Sleep _ => false end) h).

(** A [fetch] implementation answers a request according to everything that
    happened before it; its promise rejects ([inl]) or resolves to a
    response. *)
Definition Fetcher := History → string → RequestInit → Thrown + Response.

Inductive Outcome (A : Type) :=
| Return (a : A)
| Throw (err : Thrown).
Arguments Return {A} a.
Arguments Throw {A} err.

(** Asynchronous code awaited strictly in sequence: a computation extends
    the history and returns or throws. *)
Definition Async (A : Type) : Type := History → Outcome A * History.

Global Instance Async_ret : MRet Async := λ A a h, (Return a, h).
Global Instance Async_bind : MBind Async := λ A B f m h,
  match m h with
  | (Return a, h') => f a h'
  | (Throw err, h') => (Throw err, h')
  end.

Definition throw {A} (err : Thrown) : Async A := λ h, (Throw err, h).

Definition try_catch {A} (m : Async A) (handler : Thrown → Async A) : Async A :=
  λ h, match m h with
       | (Return a, h') => (Return a, h')
       | (Throw err, h') => handler err h'
       end.

(** [await fetcher(url, init)]. *)
Definition call_fetch (fetcher : Fetcher) (url : string) (init : RequestInit)
    : Async Response :=
  λ h, (match fetcher h url init with
        | inl err => Throw err
        | inr response => Return response
        end, h ++ [Fetch url init]).

(** [await delay(ms)]. *)
Definition delay (ms : Z) : Async () := λ h, (Return (), h ++ [Sleep ms]).

(** What the host provides: the global [fetch], [JSON.stringify] on the
    service parameters and the message of the [TypeError] raised by a
    property read on [null]. *)
Record Host := {
  globalThis_fetch : Fetcher;
  JSON_stringify : GitHubActionsParams → string;
  null_read_message : string
}.

Definition CODECOV_API_URL : string :=
  "https://api.codecov.io/upload/bundle_analysis/v1".
Definition MAX_RETRIES : nat := 3.
Definition RETRY_DELAY_MS : Z := 1000.

Record UploadOptions := {
  payload : string;
  oidcToken : string;
  serviceParams : GitHubActionsParams;
  apiUrl : option string;
  fetcher : option Fetcher;
  retryDelayMs : option Z
}.

Record UploadResult := {
  success : bool;
  presignedUrl : option string;
  error : option string
}.

Definition request_failed (response : Response) : Thrown :=
  ErrorObj ("Request failed: " +:+ pretty (status response) +:+ " "
            +:+ statusText response).

(** [retries] counts the attempts left, this one included; the test
    [retries <= 1] and the call with [retries - 1] are the two branches of the
    match. *)
Fixpoint fetchWithRetry (url : string) (init : RequestInit)
    (fetcher : Fetcher) (retries : nat) (delayMs : Z) : Async Response :=
  response ← call_fetch fetcher url init;
  if ok response then mret response
  else
    match retries with
    | S (S _ as retries') =>
        delay delayMs;;
        fetchWithRetry url init fetcher retries' delayMs
    | _ => throw (request_failed response)
    end.

(** [await response.json()]. *)
Definition response_json (response : Response) : Async JsonData :=
  match json response with
  | inl err => throw err
  | inr data => mret data
  end.

(** [data.url]. *)
Definition read_url (host : Host) (data : JsonData) : Async (option string) :=
  match data with
  | JsonNull => throw (ErrorObj (null_read_message host))
  | JsonObject url => mret url
  end.

Definition missing_url : Thrown :=
  ErrorObj "Presigned URL response missing 'url' field".

Definition getPresignedUrl (host : Host) (apiUrl : string)
    (serviceParams : GitHubActionsParams) (oidcToken : string)
    (fetcher : Fetcher) (retries : nat) (delayMs : Z) : Async string :=
  response ← fetchWithRetry apiUrl
    {| method := "POST";
       headers := [("Content-Type", "application/json");
                   ("Authorization", "token " +:+ oidcToken)];
       body := JSON_stringify host serviceParams |}
    fetcher retries delayMs;
  data ← response_json response;
  url ← read_url host data;
  match url with
  | Some u => if truthy u then mret u else throw missing_url
  | None => throw missing_url
  end.

Definition putPayload (presignedUrl : string) (payload : string)
    (fetcher : Fetcher) (retries : nat) (delayMs : Z) : Async () :=
  fetchWithRetry presignedUrl
    {| method := "PUT";
       headers := [("Content-Type", "application/json")];
       body := payload |}
    fetcher retries delayMs;;
  mret ().

Definition uploadBundleStats (host : Host) (options : UploadOptions)
    : Async UploadResult :=
  let apiUrl := default CODECOV_API_URL (apiUrl options) in
  let fetcher := default (globalThis_fetch host) (fetcher options) in
  let retryDelay := default RETRY_DELAY_MS (retryDelayMs options) in
  try_catch
    (presignedUrl ← getPresignedUrl host apiUrl (serviceParams options)
                      (oidcToken options) fetcher MAX_RETRIES retryDelay;
     putPayload presignedUrl (payload options) fetcher MAX_RETRIES retryDelay;;
     mret {| success := true; presignedUrl := Some presignedUrl; error := None |})
    (λ err,
     mret {| success := false; presignedUrl := None;
             error := Some (message_of err) |}).

(** A [fetch] for examples, in the manner of the test suite: the n-th
    request is answered by the n-th response of a list. *)
Definition makeFetcher (responses : list Response) : Fetcher :=
  λ h _ _,
    match responses !! fetch_count h with
    | Some response => inr response
    | None => inl (ErrorObj "no response left")
    end.

Definition example_response (status : N) (statusText : string)
    (url : option string) : Response :=
  {| status := status; statusText := statusText; json := inr (JsonObject url) |}.

Definition example_put : RequestInit :=
  {| method := "PUT"; headers := [("Content-Type", "application/json")];
     body := "{}" |}.

Definition example_params : GitHubActionsParams :=
  {| branch := "main"; commit := "abc123"; pr := ""; service := "github-actions";
     slug := "owner:::repo::::"; build := "12345";
     buildURL := "https://github.com/owner/repo/actions/runs/12345";
     job := "build" |}.

Definition example_host : Host :=
  {| globalThis_fetch := makeFetcher [];
     JSON_stringify := λ _, "{}";
     null_read_message := "Cannot read properties of null (reading 'url')" |}.

End Upload.

(** *** providers/github.ts, the functions that read the environment *)

Module GithubActions.
Import Js Upload.

(** [Record<string, string | undefined>]: a variable is set to a string or
    absent. *)
Abbreviation Env := (gmap string string).

(** A value that passes a truthiness test ([!x], [x || y]): a string that
    is present and not empty. *)
Definition truthy_value (x : option string) : option string :=
  match x with
  | Some s => if truthy s then Some s else None
  | None => None
  end.

Definition OIDC_AUDIENCE : string := "https://codecov.io".

Definition isGitHubActions (env : Env) : bool :=
  bool_decide (env !! "GITHUB_ACTIONS" = Some "true").

(** Dropping a literal prefix, as the anchored start of a pattern does. *)
Fixpoint strip_prefix (p s : list ascii) : option (list ascii) :=
  match p, s with
  | [], _ => Some s
  | a :: p', b :: s' => if bool_decide (a = b) then strip_prefix p' s' else None
  | _ :: _, [] => None
  end.

(** [/^refs\/pull\/(\d+)\/merge$/.exec(ref)] and the choice of the first
    group.  The greedy digits cannot give characters back, a slash has to
    follow them. *)
Definition extractPrNumber (ref : string) : string :=
  match strip_prefix (chars "refs/pull/") (chars ref) with
  | Some rest =>
      let digits := take_class is_digit rest in
      if negb (bool_decide (digits = []))
         && bool_decide (drop_class is_digit rest = chars "/merge")
      then str digits
      else ""
  | None => ""
  end.

(** [env.GITHUB_HEAD_REF || env.GITHUB_REF_NAME || ""]. *)
Definition extractBranch (env : Env) : string :=
  match truthy_value (env !! "GITHUB_HEAD_REF") with
  | Some head => head
  | None =>
      match truthy_value (env !! "GITHUB_REF_NAME") with
      | Some name => name
      | None => ""
      end
  end.

Definition getServiceParams (env : Env) : Outcome GitHubActionsParams :=
  match truthy_value (env !! "GITHUB_REPOSITORY") with
  | None => Throw (ErrorObj "GITHUB_REPOSITORY is not set")
  | Some repository =>
      match truthy_value (env !! "GITHUB_SHA") with
      | None => Throw (ErrorObj "GITHUB_SHA is not set")
      | Some commit =>
          let serverUrl :=
            default "https://github.com" (truthy_value (env !! "GITHUB_SERVER_URL")) in
          let runId := default "" (truthy_value (env !! "GITHUB_RUN_ID")) in
          Return
            {| branch := extractBranch env;
               Upload.commit := commit;
               pr := extractPrNumber (default "" (truthy_value (env !! "GITHUB_REF")));
               service := "github-actions";
               slug := Github.encodeSlug repository;
               build := runId;
               buildURL :=
                 if truthy runId
                 then serverUrl +:+ "/" +:+ repository +:+ "/actions/runs/" +:+ runId
                 else "";
               job := default "" (truthy_value (env !! "GITHUB_JOB")) |}
      end
  end.

(** The request for the identity token carries headers only. *)
Record TokenRequest := {
  token_url : string;
  token_headers : list (string * string)
}.

(** The value [response.json()] resolves to, as far as [fetchOidcToken]
    looks at it: [null], or a value whose [value] property is absent or a
    string. *)
Inductive TokenData :=
| TokenNull
| TokenObject (value : option string).

Record TokenResponse := {
  token_status : N;
  token_statusText : string;
  token_json : Thrown + TokenData
}.

Definition token_ok (response : TokenResponse) : bool :=
  ((200 <=? token_status response) && (token_status response <=? 299))%N.

(** A [fetch] for the token endpoint answers according to the requests made
    before. *)
Definition TokenFetcher :=
  list TokenRequest → TokenRequest → Thrown + TokenResponse.

(** [fetchOidcToken]: the outcome and the requests made so far, this call's
    added at the end. *)
Definition fetchOidcToken (host : Host) (env : Env) (fetcher : TokenFetcher)
    (requests : list TokenRequest) : Outcome string * list TokenRequest :=
  match truthy_value (env !! "ACTIONS_ID_TOKEN_REQUEST_URL") with
  | None =>
      (Throw (ErrorObj
         "ACTIONS_ID_TOKEN_REQUEST_URL is not set. Ensure the workflow has 'permissions: id-token: write'."),
       requests)
  | Some requestUrl =>
      match truthy_value (env !! "ACTIONS_RUNTIME_TOKEN") with
      | None => (Throw (ErrorObj "ACTIONS_RUNTIME_TOKEN is not set"), requests)
      | Some runtimeToken =>
          let url := requestUrl +:+ "&audience=" +:+ OIDC_AUDIENCE in
          let request :=
            {| token_url := url;
               token_headers := [("Authorization", "Bearer " +:+ runtimeToken)] |} in
          let requests' := requests ++ [request] in
          match fetcher requests request with
          | inl err => (Throw err, requests')
          | inr response =>
              if negb (token_ok response) then
                (Throw (ErrorObj ("OIDC token request failed: "
                                  +:+ pretty (token_status response) +:+ " "
                                  +:+ token_statusText response)),
                 requests')
              else
                match token_json response with
                | inl err => (Throw err, requests')
                | inr TokenNull =>
                    (Throw (ErrorObj (null_read_message host)), requests')
                | inr (TokenObject value) =>
                    match truthy_value value with
                    | Some token => (Return token, requests')
                    | None =>
                        (Throw (ErrorObj "OIDC token response missing 'value' field"),
                         requests')
                    end
                end
          end
      end
  end.

(** Values to run examples with. *)
Definition example_env : Env :=
  list_to_map
    [("GITHUB_ACTIONS", "true"); ("GITHUB_REPOSITORY", "owner/repo");
     ("GITHUB_SHA", "abc123def456"); ("GITHUB_REF", "refs/pull/42/merge");
     ("GITHUB_REF_NAME", "42/merge"); ("GITHUB_HEAD_REF", "feature-branch");
     ("GITHUB_RUN_ID", "98765"); ("GITHUB_JOB", "build");
     ("ACTIONS_ID_TOKEN_REQUEST_URL",
      "https://token.actions.githubusercontent.com/id?api-version=1");
     ("ACTIONS_RUNTIME_TOKEN", "runtime-bearer-token")].

Definition example_token_fetcher : TokenFetcher :=
  λ _ _, inr {| token_status := 200; token_statusText := "OK";
                token_json := inr (TokenObject (Some "fake-jwt-token")) |}.

End GithubActions.

(** *** Vocabulary for the histories of upload.ts *)

Module UploadTrace.
Import Js Upload.

(** [k] attempts that were followed by the delay. *)
Definition attempts_before (url : string) (init : RequestInit) (delayMs : Z)
    (k : nat) : History :=
  concat (replicate k [Fetch url init; Sleep delayMs]).

(** The request of phase 1 and the request of phase 2. *)
Definition post_init (host : Host) (serviceParams : GitHubActionsParams)
    (oidcToken : string) : RequestInit :=
  {| method := "POST";
     headers := [("Content-Type", "application/json");
                 ("Authorization", "token " +:+ oidcToken)];
     body := JSON_stringify host serviceParams |}.

Definition put_init (payload : string) : RequestInit :=
  {| method := "PUT";
     headers := [("Content-Type", "application/json")];
     body := payload |}.

(** A [fetch] whose promise always rejects. *)
Definition offline_fetcher : Fetcher :=
  λ _ _ _, inl (ErrorObj "fetch failed").

(** Options to run an upload with: the payload of an empty object, no
    delay between the attempts, and the [fetch] given. *)
Definition example_upload (fetcher : Fetcher) : UploadOptions :=
  {| payload := "{}"; oidcToken := "jwt"; serviceParams := example_params;
     apiUrl := None; Upload.fetcher := Some fetcher; retryDelayMs := Some 0 |}.

End UploadTrace.

(** *** A file system to compute gzip sizes on *)

Module Disk.
Import Js Transform.

(** One readable file, [/work/dist/main.js], of two bytes. *)
Definition example_disk_env : Env := {|
  resolve := λ p, "/work/" +:+ p;
  readFileSync := λ file,
    if bool_decide (file = "/work/dist/main.js")
    then Some [Byte.x61; Byte.x62] else None;
  Date_now := 1700000000000;
  zlib := Compress.example_zlib;
  PLUGIN_VERSION := "0.0.0"
|}.

Definition example_disk_options : TransformOptions.t :=
  TransformOptions.mk "test" (Some "dist") None None None.

End Disk.


(** ** Part II: properties *)

(** *** The cases of the test suites, run on the embedding *)

Section test_suite.
Import Js Path Normalize Compress Github Transform Upload.

Example normalize_test_cases :
  normalizeAssetName <$>
    ["main-2c458a0c.js"; "index.abc12345.css"; "vendor-abcdef0123456789.js";
     "style.css"; "dist/assets/main-abc123ef.js"; "chunk-ABCD1234.js";
     "abcdef0123456789.js"; "main-abc.js"]
  = ["main-*.js"; "index.*.css"; "vendor-*.js"; "style.css";
     "dist/assets/main-*.js"; "chunk-*.js"; "*.js"; "main-abc.js"].
Proof. reflexivity. Qed.

Example compress_test_cases :
  (λ f, getGzipSize example_zlib f []) <$> ["image.png"; "font.woff2"; "archive.zip"]
  = [None; None; None]
  ∧ (λ ext, COMPRESSIBLE_test ("file." +:+ ext)) <$> COMPRESSIBLE_extensions
    = replicate 9 true.
Proof. split; reflexivity. Qed.

Example encodeSlug_test_cases :
  encodeSlug <$> ["jbergstroem/metafile-codecov-bundle"; "my-org/my-repo"; "monorepo"]
  = ["jbergstroem:::metafile-codecov-bundle::::"; "my-org:::my-repo::::";
     "monorepo::::"].
Proof. reflexivity. Qed.

Example transform_test_case :
  let payload := transformMetafile example_env example_metafile example_options in
  OutputPayload.version payload = "3"
  ∧ Asset.name <$> OutputPayload.assets payload = ["main.js"; "lazy.js"]
  ∧ Chunk.uniqueId <$> OutputPayload.chunks payload = ["0-main.js"; "1-lazy.js"]
  ∧ Chunk.entry <$> OutputPayload.chunks payload = [true; false]
  ∧ Chunk.dynamicImports <$> OutputPayload.chunks payload = [["lazy.js"]; []]
  ∧ ModuleEntry.chunkUniqueIds <$> OutputPayload.modules payload
    = [["0-main.js"]; ["1-lazy.js"]].
Proof. repeat split; reflexivity. Qed.

Example upload_test_cases :
  let options responses :=
    {| payload := "{}"; oidcToken := "jwt"; serviceParams := example_params;
       apiUrl := None; fetcher := Some (makeFetcher responses);
       retryDelayMs := Some 0 |} in
  let run responses :=
    let '(outcome, h) := uploadBundleStats example_host (options responses) [] in
    (outcome, fetch_count h) in
  let presigned := example_response 200 "" (Some "https://storage.example.com/p") in
  run [presigned; example_response 200 "" None]
  = (Return {| success := true;
               presignedUrl := Some "https://storage.example.com/p";
               error := None |}, 2%nat)
  ∧ run (replicate 3 (example_response 403 "" None))
    = (Return {| success := false; presignedUrl := None;
                 error := Some "Request failed: 403 " |}, 3%nat)
  ∧ run (presigned :: replicate 3 (example_response 500 "" None))
    = (Return {| success := false; presignedUrl := None;
                 error := Some "Request failed: 500 " |}, 4%nat)
  ∧ run [example_response 200 "" None]
    = (Return {| success := false; presignedUrl := None;
                 error := Some "Presigned URL response missing 'url' field" |},
       1%nat)
  ∧ run [example_response 500 "" None; presigned; example_response 200 "" None]
    = (Return {| success := true;
                 presignedUrl := Some "https://storage.example.com/p";
                 error := None |}, 3%nat).
Proof. repeat split; reflexivity. Qed.

End test_suite.


(** *** Strings and their characters *)

Section string_facts.
Import Js.

Lemma chars_str (l : list ascii) : chars (str l) = l.
Proof. apply String.list_ascii_of_string_of_list_ascii. Qed.

Lemma str_chars (s : string) : str (chars s) = s.
Proof. apply String.string_of_list_ascii_of_string. Qed.

Lemma string_app_cons (x : ascii) (a b : string) :
  String x a +:+ b = String x (a +:+ b).
Proof. done. Qed.

Lemma string_app_nil_l (a : string) : "" +:+ a = a.
Proof. done. Qed.

Lemma chars_app (a b : string) : chars (a +:+ b) = chars a ++ chars b.
Proof.
  induction a as [|c a IH]; [done|].
  rewrite string_app_cons. simpl. by rewrite IH.
Qed.

Lemma str_app (a b : list ascii) : str (a ++ b) = str a +:+ str b.
Proof. induction a as [|c a IH]; simpl; [done|]. by rewrite IH. Qed.

Lemma chars_inj (a b : string) : chars a = chars b → a = b.
Proof. intros H. by rewrite <-(str_chars a), <-(str_chars b), H. Qed.

Lemma string_app_nil_r (a : string) : a +:+ "" = a.
Proof. apply chars_inj. by rewrite chars_app, app_nil_r. Qed.

Lemma string_app_assoc (a b c : string) : (a +:+ b) +:+ c = a +:+ b +:+ c.
Proof. apply chars_inj. by rewrite !chars_app, app_assoc. Qed.

Lemma string_app_length (a b : string) :
  String.length (a +:+ b) = (String.length a + String.length b)%nat.
Proof.
  induction a as [|x a IH]; [done|]. rewrite string_app_cons. simpl. by rewrite IH.
Qed.

Lemma substring_prefix (a b : string) :
  String.substring 0 (String.length a) (a +:+ b) = a.
Proof.
  induction a as [|x a IH].
  - by destruct b.
  - rewrite string_app_cons. simpl. by rewrite IH.
Qed.

Lemma substring_all (b : string) : String.substring 0 (String.length b) b = b.
Proof. induction b as [|x b IH]; cbn; [done|]. by rewrite IH. Qed.

Lemma substring_suffix (a b : string) :
  String.substring (String.length a) (String.length b) (a +:+ b) = b.
Proof.
  induction a as [|x a IH]; [apply substring_all|].
  by rewrite string_app_cons.
Qed.

Lemma has_char_cons c x s : has_char c (String x s) ↔ x = c ∨ has_char c s.
Proof.
  split.
  - intros ([|y a] & b & Heq);
      rewrite ?string_app_cons, ?string_app_nil_l in Heq;
      simplify_eq; [by left|].
    right. by exists a, b.
  - intros [->|(a & b & ->)]; [by exists "", s|]. by exists (String x a), b.
Qed.

Lemma indexOf_absent s c : ¬ has_char c s → indexOf s c = -1.
Proof.
  induction s as [|x s IH]; intros Hno; simpl; [done|].
  rewrite has_char_cons in Hno. case_bool_decide; [naive_solver|].
  rewrite IH by naive_solver. done.
Qed.

Lemma indexOf_first a b c :
  ¬ has_char c a → indexOf (a +:+ String c b) c = Z.of_nat (String.length a).
Proof.
  induction a as [|x a IH]; intros Hno.
  - simpl. by rewrite bool_decide_eq_true_2.
  - rewrite string_app_cons. simpl. rewrite has_char_cons in Hno. case_bool_decide; [naive_solver|].
    rewrite IH by naive_solver.
    destruct (Z.eqb_spec (Z.of_nat (String.length a)) (-1)); lia.
Qed.

End string_facts.

(** *** providers/github.ts: encodeSlug *)

Section encodeSlug_facts.
Import Js Github.

(** C8. [encodeSlug] splits on the first slash only: a string without a
    slash is followed by ["::::"]; otherwise the text before the first slash,
    [":::"], everything after that slash, and ["::::"]. *)
Theorem encodeSlug_splits_on_first_slash :
  (∀ whole, ¬ has_char "/" whole → encodeSlug whole = whole +:+ "::::")
  ∧ (∀ owner repo, ¬ has_char "/" owner →
       encodeSlug (owner +:+ "/" +:+ repo) = owner +:+ ":::" +:+ repo +:+ "::::").
Proof.
  split.
  - intros whole Hno. unfold encodeSlug. by rewrite indexOf_absent.
  - intros owner repo Hno. unfold encodeSlug.
    change ("/" +:+ repo) with (String "/" repo).
    rewrite indexOf_first by done.
    destruct (Z.eqb_spec (Z.of_nat (String.length owner)) (-1)); [lia|].
    unfold slice, slice_from. rewrite Z.sub_0_r, !Nat2Z.id.
    change (Z.to_nat 0) with 0%nat. rewrite substring_prefix.
    replace (owner +:+ String "/" repo) with ((owner +:+ "/") +:+ repo)
      by (by rewrite string_app_assoc).
    assert (Z.to_nat (Z.of_nat (String.length owner) + 1)
            = String.length (owner +:+ "/")) as ->
      by (rewrite string_app_length; simpl; lia).
    generalize (owner +:+ "/"). intros prefix.
    rewrite string_app_length.
    replace (String.length prefix + String.length repo - String.length prefix)%nat
      with (String.length repo) by lia.
    by rewrite substring_suffix.
Qed.

Lemma encodeSlug_splits_on_first_slash_witness :
  encodeSlug "monorepo" = "monorepo::::"
  ∧ encodeSlug "owner/repo/extra" = "owner:::repo/extra::::".
Proof.
  split.
  - apply (proj1 encodeSlug_splits_on_first_slash "monorepo").
    intros (a & b & Heq). apply (f_equal chars) in Heq. rewrite chars_app in Heq.
    assert ("/"%char ∈ chars "monorepo") as Hin
      by (rewrite Heq; apply elem_of_app; right; left).
    vm_compute in Hin. by repeat (apply elem_of_cons in Hin as [?|Hin]; [done|]); inversion Hin.
  - apply (proj2 encodeSlug_splits_on_first_slash "owner" "repo/extra").
    intros (a & b & Heq). apply (f_equal chars) in Heq. rewrite chars_app in Heq.
    assert ("/"%char ∈ chars "owner") as Hin
      by (rewrite Heq; apply elem_of_app; right; left).
    vm_compute in Hin. by repeat (apply elem_of_cons in Hin as [?|Hin]; [done|]); inversion Hin.
Defined.

End encodeSlug_facts.


(** *** Greedy character classes *)

Section class_facts.
Import Js.
Context (f : ascii → bool).

Lemma take_drop_class s : take_class f s ++ drop_class f s = s.
Proof. induction s as [|c s IH]; simpl; [done|]. destruct (f c); simpl; by f_equal. Qed.

Lemma take_class_all s : forallb f (take_class f s) = true.
Proof. induction s as [|c s IH]; simpl; [done|]. destruct (f c) eqn:E; simpl; [|done]. by rewrite E. Qed.

Lemma drop_class_head s c t : drop_class f s = c :: t → f c = false.
Proof.
  induction s as [|x s IH]; simpl; [done|].
  destruct (f x) eqn:E; [done|]. by intros [= -> _].
Qed.

(** A run of the class followed by a character outside it is what the
    greedy match takes. *)
Lemma take_class_app run c t :
  forallb f run = true → f c = false → take_class f (run ++ c :: t) = run.
Proof.
  induction run as [|x run IH]; simpl; intros Hrun Hc; [by rewrite Hc|].
  apply andb_true_iff in Hrun as [-> Hrun]. by rewrite IH.
Qed.

Lemma drop_class_app run c t :
  forallb f run = true → f c = false → drop_class f (run ++ c :: t) = c :: t.
Proof.
  induction run as [|x run IH]; simpl; intros Hrun Hc; [by rewrite Hc|].
  apply andb_true_iff in Hrun as [-> Hrun]. by rewrite IH.
Qed.

Lemma take_class_all_in run :
  forallb f run = true → take_class f run = run ∧ drop_class f run = [].
Proof.
  induction run as [|x run IH]; simpl; [done|]. intros Hrun.
  apply andb_true_iff in Hrun as [-> Hrun]. destruct (IH Hrun) as [-> ->]. done.
Qed.

Lemma length_drop_class s : (length (drop_class f s) ≤ length s)%nat.
Proof. induction s as [|c s IH]; simpl; [done|]. destruct (f c); simpl; lia. Qed.

End class_facts.

(** *** compress.ts: getGzipSize *)

Section getGzipSize_facts.
Import Js Compress.

Lemma starts_with_chars_spec p s :
  starts_with_chars p s = true ↔ ∃ t, s = p ++ t.
Proof.
  revert s. induction p as [|a p IH]; intros s; simpl.
  - split; [eauto|done].
  - destruct s as [|b s]; [split; [done|by intros [? ?]]|].
    rewrite andb_true_iff, bool_decide_eq_true, IH. split.
    + intros [-> [t ->]]. eauto.
    + intros [t [= -> ->]]. eauto.
Qed.

Lemma endsWith_spec s suffix :
  endsWith s suffix = true ↔ ∃ pre, s = pre +:+ suffix.
Proof.
  unfold endsWith. rewrite starts_with_chars_spec. split.
  - intros [t Ht]. exists (str (rev t)). apply chars_inj.
    rewrite chars_app, chars_str. apply (f_equal (λ l, rev l)) in Ht. simpl in Ht.
    by rewrite rev_involutive, rev_app_distr, rev_involutive in Ht.
  - intros [pre ->]. exists (rev (chars pre)). by rewrite chars_app, rev_app_distr.
Qed.

(** For an extension without a dot, the test of the suffix [.ext] asks
    whether [ext] is the extension of the file name. *)
Lemma endsWith_dot_extension fileName ext :
  forallb (λ c, negb (is_dot c)) (chars ext) = true →
  endsWith fileName ("." +:+ ext) = true ↔ file_extension fileName = Some ext.
Proof.
  intros Hext. rewrite endsWith_spec. unfold file_extension.
  assert (forallb (λ c, negb (is_dot c)) (rev (chars ext)) = true) as Hrev.
  { rewrite forallb_forall in *. intros c Hc. apply Hext. by apply in_rev. }
  split.
  - intros [pre ->]. rewrite chars_app, rev_app_distr.
    change (chars ("." +:+ ext)) with ("."%char :: chars ext).
    simpl rev. rewrite <-app_assoc. simpl.
    rewrite take_class_app, drop_class_app by done.
    by rewrite rev_involutive, str_chars.
  - set (r := rev (chars fileName)).
    pose proof (take_drop_class (λ c, negb (is_dot c)) r) as Hsplit.
    destruct (drop_class _ r) as [|d t] eqn:Hdrop; [done|]. intros [= Hx].
    rewrite <-Hx. clear Hx Hext Hrev.
    apply drop_class_head in Hdrop. simpl in Hdrop. apply negb_false_iff in Hdrop.
    unfold is_dot in Hdrop. apply bool_decide_eq_true in Hdrop as ->.
    exists (str (rev t)). apply chars_inj.
    rewrite chars_app. change (chars ("." +:+ ?e)) with ("."%char :: chars e).
    rewrite !chars_str.
    assert (chars fileName
            = rev (take_class (λ c, negb (is_dot c)) r ++ "."%char :: t)) as ->
      by (rewrite Hsplit; unfold r; by rewrite rev_involutive).
    rewrite rev_app_distr. simpl. by rewrite <-app_assoc.
Qed.

Lemma gzipSync_length z content :
  (18 ≤ length (gzipSync z content))%nat.
Proof. unfold gzipSync. rewrite !length_app. simpl. lia. Qed.

(** C7. [getGzipSize] returns [null] exactly when the extension of the file
    name is not one of css, html, json, js, mjs, svg, txt, xml, xhtml (so an
    upper-case [JS] is refused); for the listed extensions it returns the
    length of the gzip stream of the content, which is positive, also for
    empty content.  The function is total: it always returns. *)
Theorem getGzipSize_allow_list (z : Zlib) (fileName : string)
    (content : list Byte.byte) :
  let allowed :=
    ["css"; "html"; "json"; "js"; "mjs"; "svg"; "txt"; "xml"; "xhtml"] in
  (getGzipSize z fileName content = None
     ↔ ¬ ∃ ext, ext ∈ allowed ∧ file_extension fileName = Some ext)
  ∧ ((∃ ext, ext ∈ allowed ∧ file_extension fileName = Some ext) →
       getGzipSize z fileName content
         = Some (Z.of_nat (length (gzipSync z content)))
       ∧ 0 < Z.of_nat (length (gzipSync z content))
       ∧ ∃ n, getGzipSize z fileName [] = Some n ∧ 0 < n)
  ∧ getGzipSize z "bundle.JS" content = None.
Proof.
  intros allowed.
  assert (COMPRESSIBLE_test fileName = true
          ↔ ∃ ext, ext ∈ allowed ∧ file_extension fileName = Some ext) as Htest.
  { unfold COMPRESSIBLE_test. rewrite existsb_exists. split.
    - intros (ext & Hin & Hends). exists ext. split; [by apply list_elem_of_In|].
      apply endsWith_dot_extension; [|done].
      unfold COMPRESSIBLE_extensions in Hin. simpl in Hin.
      by repeat (destruct Hin as [<-|Hin]; [by vm_compute|]).
    - intros (ext & Hin & Hext). exists ext. split; [by apply list_elem_of_In|].
      apply endsWith_dot_extension; [|done].
      apply list_elem_of_In in Hin. simpl in Hin.
      by repeat (destruct Hin as [<-|Hin]; [by vm_compute|]). }
  pose proof (gzipSync_length z content) as Hlen.
  pose proof (gzipSync_length z []) as Hlen0.
  split; [|split].
  - unfold getGzipSize. rewrite <-Htest.
    destruct (COMPRESSIBLE_test fileName); simpl; split; done.
  - intros Hallowed. apply Htest in Hallowed. unfold getGzipSize.
    rewrite Hallowed. simpl. split; [done|]. split; [lia|].
    eexists. split; [done|]. lia.
  - done.
Qed.

Lemma getGzipSize_allow_list_witness :
  ∃ n, getGzipSize example_zlib "empty.js" [] = Some n ∧ 0 < n.
Proof.
  destruct (getGzipSize_allow_list example_zlib "empty.js" []) as (_ & Hsome & _).
  destruct Hsome as (_ & _ & Hempty); [|done].
  exists "js". split; [|by vm_compute]. apply list_elem_of_In. simpl. tauto.
Defined.

End getGzipSize_facts.


(** *** upload.ts: the retry policy *)

Section retry_facts.
Import Js Upload.
Context (url : string) (init : RequestInit) (fetcher : Fetcher) (delayMs : Z).

(** One attempt in full: what the first request of a run leads to. *)
Lemma fetchWithRetry_unfold retries h :
  fetchWithRetry url init fetcher retries delayMs h =
    match fetcher h url init with
    | inl err => (Throw err, h ++ [Fetch url init])
    | inr response =>
        if ok response then (Return response, h ++ [Fetch url init])
        else match retries with
             | S (S _ as retries') =>
                 fetchWithRetry url init fetcher retries' delayMs
                   (h ++ [Fetch url init; Sleep delayMs])
             | _ => (Throw (request_failed response), h ++ [Fetch url init])
             end
    end.
Proof.
  destruct retries as [|[|n]]; simpl; unfold mbind, Async_bind, call_fetch;
    destruct (fetcher h url init) as [err|response]; try done;
    destruct (ok response); try done.
  unfold delay. by rewrite <-app_assoc.
Qed.

Lemma fetch_count_app h1 h2 :
  fetch_count (h1 ++ h2) = (fetch_count h1 + fetch_count h2)%nat.
Proof. unfold fetch_count. by rewrite List.filter_app, length_app. Qed.

(** A run only appends to the history, and issues at most [retries]
    requests (one when [retries] is [0]). *)
Lemma fetchWithRetry_budget retries h :
  ∃ events,
    (fetchWithRetry url init fetcher retries delayMs h).2 = h ++ events
    ∧ (1 ≤ fetch_count events ≤ Nat.max retries 1)%nat.
Proof.
  revert h. induction (lt_wf retries) as [retries _ IH]. intros h.
  rewrite fetchWithRetry_unfold.
  destruct (fetcher h url init) as [err|response];
    [exists [Fetch url init]; simpl; split; [done|unfold fetch_count; simpl; lia]|].
  destruct (ok response);
    [exists [Fetch url init]; simpl; split; [done|unfold fetch_count; simpl; lia]|].
  destruct retries as [|[|n]];
    [exists [Fetch url init]; simpl; split; [done|unfold fetch_count; simpl; lia]..|].
  destruct (IH (S n) ltac:(lia) (h ++ [Fetch url init; Sleep delayMs]))
    as (events & -> & Hcount).
  exists ([Fetch url init; Sleep delayMs] ++ events).
  rewrite <-app_assoc. split; [done|].
  rewrite fetch_count_app. unfold fetch_count at 1 3. simpl. lia.
Qed.

End retry_facts.



(** *** transform.ts: the loops *)

Section transform_loops.
Import Js Transform.

Lemma indexed_from_lookup {A} (l : list A) i j :
  indexed_from i l !! j = (λ x, ((i + j)%nat, x)) <$> l !! j.
Proof.
  revert i j. induction l as [|x l IH]; intros i j; [done|].
  destruct j as [|j]; simpl; [by rewrite Nat.add_0_r|].
  rewrite IH. by replace (S i + j)%nat with (i + S j)%nat by lia.
Qed.

Lemma indexed_lookup {A} (l : list A) j :
  indexed l !! j = (λ x, (j, x)) <$> l !! j.
Proof. apply indexed_from_lookup. Qed.

(** A function of the elements that agrees, at each position, with a
    function of position and element gives the same list through the
    indexed enumeration. *)
Lemma filter_indexed_from {A B} (keep : A → bool) (g : A → B)
    (gi : nat → A → B) (l : list A) i :
  (∀ j x, l !! j = Some x → g x = gi (i + j)%nat x) →
  g <$> List.filter keep l
  = (λ ie, gi ie.1 ie.2) <$> List.filter (λ ie, keep ie.2) (indexed_from i l).
Proof.
  revert i. induction l as [|x l IH]; intros i Hagree; [done|].
  assert (g x = gi i x) as Hx.
  { rewrite (Hagree 0%nat x); [|done]. by rewrite Nat.add_0_r. }
  assert (g <$> List.filter keep l
          = (λ ie, gi ie.1 ie.2) <$> List.filter (λ ie, keep ie.2)
              (indexed_from (S i) l)) as Hrest.
  { apply IH. intros j y Hj. rewrite (Hagree (S j) y); [|done].
    by replace (i + S j)%nat with (S i + j)%nat by lia. }
  cbn [List.filter indexed_from snd].
  destruct (keep x); rewrite ?fmap_cons; cbn [fst snd]; by rewrite ?Hx, Hrest.
Qed.

Lemma fill_chunkIdMap_other entries i m p :
  p ∉ JsObject.keys entries → fill_chunkIdMap entries i m !! p = m !! p.
Proof.
  revert i m. induction entries as [|[q o] entries IH]; intros i m Hp; [done|].
  simpl. apply not_elem_of_cons in Hp as [Hne Hp].
  rewrite IH by done. by rewrite lookup_insert_ne.
Qed.

(** After the first loop every output path, source maps included, is mapped
    to its position and path. *)
Lemma fill_chunkIdMap_lookup entries i m j p o :
  JsObject.wf entries → entries !! j = Some (p, o) →
  fill_chunkIdMap entries i m !! p = Some (uniqueId_of (i + j) p).
Proof.
  revert i m j. induction entries as [|[q o'] entries IH]; intros i m j Hwf Hj;
    [done|].
  apply NoDup_cons in Hwf as [Hq Hwf]. destruct j as [|j]; simpl in *.
  - simplify_eq. rewrite fill_chunkIdMap_other by done.
    by rewrite lookup_insert_eq, Nat.add_0_r.
  - rewrite (IH _ _ j) by done. by replace (S i + j)%nat with (i + S j)%nat by lia.
Qed.

(** Without any assumption, every output path is mapped to some id. *)
Lemma fill_chunkIdMap_total entries i m p :
  p ∈ JsObject.keys entries → is_Some (fill_chunkIdMap entries i m !! p).
Proof.
  revert i m. induction entries as [|[q o] entries IH]; intros i m Hp;
    [by apply elem_of_nil in Hp|].
  simpl. destruct (decide (p ∈ JsObject.keys entries)) as [Hin|Hout]; [by apply IH|].
  apply elem_of_cons in Hp as [->|?]; [|done].
  rewrite fill_chunkIdMap_other by done. rewrite lookup_insert_eq. eauto.
Qed.

Lemma uniqueId_of_truthy i p : truthy (uniqueId_of i p) = true.
Proof.
  unfold truthy, uniqueId_of. rewrite bool_decide_eq_false_2; [done|].
  intros Heq. apply (f_equal chars) in Heq. rewrite !chars_app in Heq.
  by destruct (chars (pretty i)).
Qed.

Lemma collect_dynamicImports_spec imports acc :
  collect_dynamicImports imports acc
  = acc ++ (OutputImport.path <$> List.filter is_dynamic_edge imports).
Proof.
  revert acc. induction imports as [|imp imports IH]; intros acc;
    [by rewrite app_nil_r|].
  cbn [collect_dynamicImports List.filter]. fold (is_dynamic_edge imp).
  destruct (is_dynamic_edge imp); rewrite IH; [|done].
  by rewrite fmap_cons, <-app_assoc.
Qed.

Lemma outputs_loop_spec env outputDir m entries assets chunks :
  outputs_loop env outputDir m entries assets chunks
  = (assets ++ (asset_of env outputDir <$> emitted entries),
     chunks ++ (chunk_of m <$> emitted entries)).
Proof.
  revert assets chunks.
  induction entries as [|[p o] entries IH]; intros assets chunks;
    [by rewrite !app_nil_r|].
  unfold emitted. cbn [outputs_loop List.filter fst]. fold (is_source_map p).
  fold (emitted entries).
  destruct (is_source_map p); cbn [negb]; [apply IH|].
  rewrite IH, collect_dynamicImports_spec, !fmap_cons, <-!app_assoc. done.
Qed.

Lemma link_loop_spec m inputPath entries acc :
  link_loop m inputPath entries acc = acc ++ omap (linked_id m inputPath) entries.
Proof.
  revert acc. induction entries as [|[p o] entries IH]; intros acc;
    [by rewrite app_nil_r|].
  cbn [link_loop omap list_omap]. unfold linked_id at 1. cbn [fst snd].
  fold (is_source_map p).
  destruct (is_source_map p); [apply IH|].
  destruct (JsObject.js_in _ _); [|apply IH].
  destruct (m !! p) as [uid|]; [|apply IH].
  destruct (truthy uid); [|apply IH]. by rewrite IH, <-app_assoc.
Qed.

Lemma modules_loop_spec m outputEntries entries modules :
  modules_loop m outputEntries entries modules
  = modules ++ (module_of m outputEntries <$> entries).
Proof.
  revert modules. induction entries as [|[p input] entries IH]; intros modules;
    [by rewrite app_nil_r|].
  cbn [modules_loop]. rewrite IH, fmap_cons, <-app_assoc.
  unfold module_of at 2. cbn [fst snd]. by rewrite link_loop_spec.
Qed.

(** The three lists of the payload, loop by loop. *)
Lemma transformMetafile_lists env metafile options :
  let outputs := Metafile.outputs metafile in
  let m := fill_chunkIdMap outputs 0 ∅ in
  let payload := transformMetafile env metafile options in
  ∃ outputDir,
    OutputPayload.assets payload = asset_of env outputDir <$> emitted outputs
    ∧ OutputPayload.chunks payload = chunk_of m <$> emitted outputs
    ∧ OutputPayload.modules payload
      = module_of m outputs <$> Metafile.inputs metafile.
Proof.
  intros outputs m payload. unfold payload, transformMetafile.
  fold outputs. fold m. rewrite outputs_loop_spec, modules_loop_spec. simpl.
  eauto.
Qed.

End transform_loops.


(** *** transform.ts: unique ids, modules and the shape of the payload *)

Section transform_facts.
Import Js Transform.

(** C1. Every output, source maps included, is given the unique id
    [<ordinal>-<outputPath>], the ordinal being its position in the
    enumeration of the outputs.  Outputs ending in [.map] produce no asset
    and no chunk and keep their ordinal: the chunks are the other outputs in
    order, each under the ordinal it has among all outputs. *)
Theorem uniqueId_is_ordinal_and_path (env : Env) (metafile : Metafile.t)
    (options : TransformOptions.t) :
  JsObject.wf (Metafile.outputs metafile) →
  let outputs := Metafile.outputs metafile in
  let payload := transformMetafile env metafile options in
  (∀ i outputPath output,
     outputs !! i = Some (outputPath, output) →
     fill_chunkIdMap outputs 0 ∅ !! outputPath
       = Some (pretty i +:+ "-" +:+ outputPath))
  ∧ (λ c, (Chunk.id c, Chunk.uniqueId c)) <$> OutputPayload.chunks payload
    = (λ ie, (ie.2.1, pretty ie.1 +:+ "-" +:+ ie.2.1)) <$>
      List.filter (λ ie, negb (endsWith ie.2.1 ".map")) (indexed outputs)
  ∧ Asset.name <$> OutputPayload.assets payload
    = fst <$> List.filter (λ e, negb (endsWith e.1 ".map")) outputs.
Proof.
  intros Hwf outputs payload.
  destruct (transformMetafile_lists env metafile options)
    as (outputDir & Hassets & Hchunks & _).
  fold outputs payload in Hassets, Hchunks.
  assert (∀ i outputPath output,
            outputs !! i = Some (outputPath, output) →
            fill_chunkIdMap outputs 0 ∅ !! outputPath
              = Some (pretty i +:+ "-" +:+ outputPath)) as Hids.
  { intros i p o Hi. by rewrite (fill_chunkIdMap_lookup outputs 0 ∅ i p o). }
  split; [done|]. split.
  - rewrite Hchunks, <-list_fmap_compose. unfold emitted, indexed.
    apply (filter_indexed_from (λ e, negb (is_source_map e.1))
             ((λ c, (Chunk.id c, Chunk.uniqueId c)) ∘ chunk_of _)
             (λ i e, (e.1, pretty i +:+ "-" +:+ e.1))).
    intros j [p o] Hj. simpl. f_equal.
    apply lookup_total_correct. by apply (Hids j p o).
  - rewrite Hassets, <-list_fmap_compose. unfold emitted. by apply list_fmap_ext.
Qed.

Lemma example_metafile_wf : JsObject.wf (Metafile.outputs example_metafile).
Proof. apply (bool_decide_unpack _). by vm_compute. Qed.

Lemma uniqueId_is_ordinal_and_path_witness :
  (λ c, (Chunk.id c, Chunk.uniqueId c)) <$>
    OutputPayload.chunks (transformMetafile example_env example_metafile example_options)
  = [("main.js", "0-main.js"); ("lazy.js", "1-lazy.js")].
Proof.
  exact (proj1 (proj2 (uniqueId_is_ordinal_and_path example_env example_metafile
                         example_options example_metafile_wf))).
Defined.

Lemma linked_ids_from (m : gmap string string) outputs inputPath i :
  inputPath ∉ JsObject.Object_prototype_keys →
  (∀ j e, outputs !! j = Some e → m !! e.1 = Some (uniqueId_of (i + j) e.1)) →
  omap (linked_id m inputPath) outputs
  = (λ ie, uniqueId_of ie.1 ie.2.1) <$>
    List.filter (λ ie, negb (is_source_map ie.2.1)
                       && JsObject.has_own inputPath (MetafileOutput.inputs ie.2.2))
      (indexed_from i outputs).
Proof.
  intros Hown. revert i.
  induction outputs as [|[p o] outputs IH]; intros i Hm; [done|].
  cbn [omap list_omap indexed_from List.filter fst snd].
  pose proof (Hm 0%nat (p, o) eq_refl) as Hp. simpl in Hp.
  rewrite Nat.add_0_r in Hp.
  assert (omap (linked_id m inputPath) outputs
          = (λ ie, uniqueId_of ie.1 ie.2.1) <$>
            List.filter (λ ie, negb (is_source_map ie.2.1)
               && JsObject.has_own inputPath (MetafileOutput.inputs ie.2.2))
              (indexed_from (S i) outputs)) as Hrest.
  { apply IH. intros j e Hj. rewrite (Hm (S j) e Hj).
    by replace (i + S j)%nat with (S i + j)%nat by lia. }
  unfold linked_id at 1. cbn [fst snd]. unfold JsObject.js_in.
  rewrite (bool_decide_eq_false_2 (inputPath ∈ _)) by done.
  rewrite orb_false_r, Hp, uniqueId_of_truthy.
  destruct (is_source_map p), (JsObject.has_own _ _); cbn [negb andb];
    by rewrite ?fmap_cons, Hrest.
Qed.

(** X13. For input paths that are not names of inherited properties, the
    modules are as specified: one per input, in order, with the ids of the
    outputs, source maps apart, that hold the path among their inputs. *)
Lemma modules_of_own_keys (env : Env) (metafile : Metafile.t)
    (options : TransformOptions.t) :
  JsObject.wf (Metafile.outputs metafile) →
  Forall (λ e, e.1 ∉ JsObject.Object_prototype_keys) (Metafile.inputs metafile) →
  OutputPayload.modules (transformMetafile env metafile options)
  = (λ e, {| ModuleEntry.name := e.1;
             ModuleEntry.size := MetafileInput.bytes e.2;
             ModuleEntry.chunkUniqueIds :=
               member_chunk_ids e.1 (Metafile.outputs metafile) |})
    <$> Metafile.inputs metafile.
Proof.
  intros Hwf Hown.
  destruct (transformMetafile_lists env metafile options) as (_ & _ & _ & ->).
  apply Forall_fmap_ext_1. eapply Forall_impl; [exact Hown|].
  intros [p input] Hp. unfold module_of. cbn [fst snd] in *. f_equal.
  apply linked_ids_from; [done|].
  intros j [q o] Hj. by apply (fill_chunkIdMap_lookup _ 0 ∅ j q o).
Qed.

(** C2 (where the code departs from it).  The test [inputPath in
    output.inputs] also answers for the properties an object inherits, so an
    input named like one of them is linked to every chunk: here the module
    [constructor] lists the chunk of an output that was built from no input
    at all, where the specification asks for no chunk. *)
Theorem inherited_key_links_every_chunk :
  OutputPayload.modules
    (transformMetafile example_env inherited_key_metafile example_options)
  = [ {| ModuleEntry.name := "constructor"; ModuleEntry.size := 10;
         ModuleEntry.chunkUniqueIds := ["0-out.js"] |} ]
  ∧ member_chunk_ids "constructor" (Metafile.outputs inherited_key_metafile) = [].
Proof. split; reflexivity. Qed.

(** C10. In every payload the assets and the chunks have the same length
    and agree position by position: the name of the asset is the id of the
    chunk and the only element of its files.  Every id listed by a module is
    the unique id of a chunk of the payload. *)
Theorem payload_lists_consistent (env : Env) (metafile : Metafile.t)
    (options : TransformOptions.t) :
  let payload := transformMetafile env metafile options in
  length (OutputPayload.assets payload) = length (OutputPayload.chunks payload)
  ∧ Forall2 (λ a c, Asset.name a = Chunk.id c ∧ Chunk.files c = [Chunk.id c])
      (OutputPayload.assets payload) (OutputPayload.chunks payload)
  ∧ Forall (λ module,
       Forall (λ uid, Exists (λ c, Chunk.uniqueId c = uid)
                        (OutputPayload.chunks payload))
         (ModuleEntry.chunkUniqueIds module))
      (OutputPayload.modules payload).
Proof.
  intros payload.
  destruct (transformMetafile_lists env metafile options)
    as (outputDir & Hassets & Hchunks & Hmodules).
  fold payload in Hassets, Hchunks, Hmodules.
  rewrite Hassets, Hchunks, Hmodules. clear.
  split; [by rewrite !length_fmap|]. split.
  - apply Forall2_fmap, Forall_Forall2_diag, Forall_forall. by intros [p o] _.
  - apply Forall_fmap, Forall_forall. intros [p input] _.
    apply Forall_forall. intros uid Huid. simpl in Huid.
    apply list_elem_of_omap in Huid as ([q o] & Hin & Hlink).
    unfold linked_id in Hlink. cbn [fst snd] in Hlink.
    destruct (is_source_map q) eqn:Hmap; [done|].
    destruct (JsObject.js_in _ _); [|done].
    destruct (_ !! q) as [uid'|] eqn:Hq; [|done].
    destruct (truthy uid'); [|done]. injection Hlink as ->.
    apply Exists_exists. exists (chunk_of (fill_chunkIdMap (Metafile.outputs metafile) 0 ∅) (q, o)).
    split.
    + apply list_elem_of_fmap. exists (q, o). split; [done|].
      unfold emitted. apply list_elem_of_In, filter_In. split.
      * by apply list_elem_of_In.
      * simpl. by rewrite Hmap.
    + simpl. by apply lookup_total_correct.
Qed.

End transform_facts.


(** *** Characters that do not occur *)

Section absent_chars.
Import Js.

Lemma has_char_chars c s : has_char c s ↔ c ∈ chars s.
Proof.
  split.
  - intros (a & b & ->). rewrite chars_app. apply elem_of_app. right. by left.
  - intros (a & b & Hsplit)%list_elem_of_split. exists (str a), (str b).
    apply chars_inj. rewrite chars_app. simpl. by rewrite !chars_str.
Qed.

Lemma forallb_absent (c : ascii) (l : list ascii) :
  forallb (λ x, negb (bool_decide (x = c))) l = true ↔ c ∉ l.
Proof.
  rewrite forallb_forall. split.
  - intros Hall Hin. apply list_elem_of_In, Hall in Hin.
    by rewrite bool_decide_eq_true_2 in Hin.
  - intros Hout x Hx. apply negb_true_iff, bool_decide_eq_false_2.
    intros ->. by apply Hout, list_elem_of_In.
Qed.

Lemma not_elem_of_rev (c : ascii) (l : list ascii) : c ∉ l → c ∉ rev l.
Proof. intros Hout Hin. by apply Hout, list_elem_of_In, in_rev, list_elem_of_In. Qed.

Lemma str_nil_inv (l : list ascii) : str l = "" → l = [].
Proof. by destruct l. Qed.

Lemma chars_nil_inv (s : string) : chars s = [] → s = "".
Proof. by destruct s. Qed.

End absent_chars.

(** *** node:path: base names *)

Section basename_facts.
Import Js Path.

Lemma basename_chars_after_slash dir b :
  b ≠ [] → "/"%char ∉ b → basename_chars (dir ++ "/"%char :: b) = b.
Proof.
  intros Hne Hb. unfold basename_chars.
  rewrite rev_app_distr. simpl. rewrite <-app_assoc. simpl.
  assert (forallb (λ c, negb (is_slash c)) (rev b) = true) as Hall
    by by apply forallb_absent, not_elem_of_rev.
  destruct (rev b) as [|x r] eqn:Hrev.
  { apply (f_equal (λ l, rev l)) in Hrev. simpl in Hrev.
    by rewrite rev_involutive in Hrev. }
  simpl in Hall. apply andb_true_iff in Hall as [Hx Hr].
  cbn [app drop_class]. apply negb_true_iff in Hx as Hx'. rewrite Hx'.
  change (x :: r ++ "/"%char :: rev dir) with ((x :: r) ++ "/"%char :: rev dir).
  rewrite take_class_app; [|by simpl; rewrite Hx, Hr|done].
  by rewrite <-Hrev, rev_involutive.
Qed.

Lemma basename_chars_no_slash b : "/"%char ∉ b → basename_chars b = b.
Proof.
  intros Hb. unfold basename_chars.
  assert (forallb (λ c, negb (is_slash c)) (rev b) = true) as Hall
    by by apply forallb_absent, not_elem_of_rev.
  destruct (rev b) as [|x r] eqn:Hrev.
  { apply (f_equal (λ l, rev l)) in Hrev. simpl in Hrev.
    by rewrite rev_involutive in Hrev; subst. }
  pose proof Hall as Hall'. simpl in Hall. apply andb_true_iff in Hall as [Hx Hr].
  cbn [drop_class]. apply negb_true_iff in Hx as Hx'. rewrite Hx'.
  destruct (take_class_all_in _ _ Hall') as [-> _].
  by rewrite <-Hrev, rev_involutive.
Qed.

Lemma basename_after_slash dir b :
  b ≠ "" → ¬ has_char "/" b → basename (dir +:+ "/" +:+ b) = b.
Proof.
  intros Hne Hb. unfold basename. rewrite chars_app.
  change (chars ("/" +:+ b)) with ("/"%char :: chars b).
  rewrite basename_chars_after_slash, ?str_chars; [done| |by rewrite <-has_char_chars].
  by intros ?%chars_nil_inv.
Qed.

Lemma basename_no_slash b : ¬ has_char "/" b → basename b = b.
Proof.
  intros Hb. unfold basename.
  rewrite basename_chars_no_slash, ?str_chars; [done|by rewrite <-has_char_chars].
Qed.

End basename_facts.

(** *** transform.ts: stripping the final extension *)

Section strip_ext_facts.
Import Js Transform.

Lemma strip_ext_chars_ext stem ext :
  ext ≠ [] → "."%char ∉ ext → strip_ext_chars (stem ++ "."%char :: ext) = stem.
Proof.
  intros Hne Hext. induction stem as [|c stem IH].
  - simpl. rewrite (bool_decide_eq_false_2 (ext = [])) by done. simpl.
    unfold is_dot. by rewrite (proj2 (forallb_absent _ _) Hext).
  - cbn [app strip_ext_chars]. rewrite IH.
    assert (match_ext (c :: stem ++ "."%char :: ext) = false) as ->; [|done].
    unfold match_ext. apply andb_false_iff. right.
    apply not_true_iff_false. intros Hall. apply forallb_absent in Hall.
    apply Hall, elem_of_app. right. by left.
Qed.

Lemma strip_ext_chars_cases s :
  strip_ext_chars s = s
  ∨ ∃ stem ext, s = stem ++ "."%char :: ext ∧ ext ≠ [] ∧ "."%char ∉ ext.
Proof.
  induction s as [|c s IH]; [by left|].
  cbn [strip_ext_chars]. destruct (match_ext (c :: s)) eqn:Hm.
  - right. unfold match_ext in Hm.
    apply andb_true_iff in Hm as [[Hc Hne]%andb_true_iff Hall].
    apply bool_decide_eq_true in Hc as ->.
    exists [], s. split; [done|]. split.
    + by apply negb_true_iff, bool_decide_eq_false in Hne.
    + by apply forallb_absent.
  - destruct IH as [->|(stem & ext & -> & ? & ?)]; [by left|].
    right. by exists (c :: stem), ext.
Qed.

(** [strip_ext] removes the text from the last dot on, unless that dot ends
    the string; without such a dot the string is left as it is. *)
Lemma strip_ext_ext stem ext :
  ext ≠ "" → ¬ has_char "." ext → strip_ext (stem +:+ "." +:+ ext) = stem.
Proof.
  intros Hne Hext. unfold strip_ext. rewrite chars_app.
  change (chars ("." +:+ ext)) with ("."%char :: chars ext).
  rewrite strip_ext_chars_ext, ?str_chars; [done| |by rewrite <-has_char_chars].
  by intros ?%chars_nil_inv.
Qed.

Lemma strip_ext_none s :
  (∀ stem ext, s = stem +:+ "." +:+ ext → ext ≠ "" → has_char "." ext) →
  strip_ext s = s.
Proof.
  intros Hnone. unfold strip_ext.
  destruct (strip_ext_chars_cases (chars s)) as [->|(stem & ext & Hs & Hne & Hext)];
    [apply str_chars|].
  destruct Hext. rewrite <-(chars_str ext).
  apply has_char_chars, (Hnone (str stem)).
  - apply chars_inj. rewrite chars_app.
    change (chars ("." +:+ ?e)) with ("."%char :: chars e). by rewrite !chars_str.
  - by intros ?%str_nil_inv.
Qed.

End strip_ext_facts.

Section chunk_facts.
Import Js Path Transform.

(** C6, as the code has it.  For every output that is no source map the
    chunk has the output path as [id] and as the one element of [files];
    [entry] and [initial] are both the boolean "entryPoint is set"; [names]
    holds one name, the base name with its final extension stripped of the
    entry point when that is set and not the empty string, and of the output
    path otherwise; [dynamicImports] lists, in order, the paths of the
    imports of kind [dynamic-import] whose [external] flag is not [true]. *)
Theorem chunk_fields (env : Env) (metafile : Metafile.t)
    (options : TransformOptions.t) :
  let emitted_outputs :=
    List.filter (λ e, negb (endsWith e.1 ".map")) (Metafile.outputs metafile) in
  let chunks := OutputPayload.chunks (transformMetafile env metafile options) in
  Forall2 (λ e c,
      let outputPath := e.1 in
      let output := e.2 in
      let is_entry := bool_decide (is_Some (MetafileOutput.entryPoint output)) in
      let named_after :=
        match MetafileOutput.entryPoint output with
        | Some entryPoint => if bool_decide (entryPoint = "") then outputPath else entryPoint
        | None => outputPath
        end in
      Chunk.id c = outputPath
      ∧ Chunk.entry c = is_entry
      ∧ Chunk.initial c = is_entry
      ∧ Chunk.files c = [outputPath]
      ∧ Chunk.names c = [strip_ext (basename named_after)]
      ∧ Chunk.dynamicImports c
        = OutputImport.path <$>
          List.filter (λ imp,
              bool_decide (OutputImport.kind imp = "dynamic-import"
                           ∧ OutputImport.external imp ≠ Some true))
            (MetafileOutput.imports output))
    emitted_outputs chunks
  ∧ (∀ dir name, name ≠ "" → ¬ has_char "/" name →
       basename (dir +:+ "/" +:+ name) = name ∧ basename name = name)
  ∧ (∀ stem ext, ext ≠ "" → ¬ has_char "." ext →
       strip_ext (stem +:+ "." +:+ ext) = stem)
  ∧ (∀ name, ¬ has_char "." name → strip_ext name = name).
Proof.
  intros emitted_outputs chunks.
  destruct (transformMetafile_lists env metafile options) as (_ & _ & Hchunks & _).
  fold chunks in Hchunks. rewrite Hchunks. fold emitted_outputs.
  change (emitted (Metafile.outputs metafile)) with emitted_outputs.
  split; [|split; [|split]].
  - apply Forall2_fmap_r, Forall_Forall2_diag, Forall_forall.
    intros [p [bytes inputs imports exports ep]] _. cbn.
    split_and!; try done.
    + destruct ep; [rewrite !bool_decide_eq_true_2|rewrite !bool_decide_eq_false_2];
        eauto; try done; by intros [].
    + destruct ep; [rewrite !bool_decide_eq_true_2|rewrite !bool_decide_eq_false_2];
        eauto; try done; by intros [].
    + unfold chunk_name, truthy. cbn. destruct ep as [ep|]; [|done].
      by destruct (bool_decide (ep = "")).
    + f_equal. apply filter_ext. intros imp. unfold is_dynamic_edge.
      destruct (decide (OutputImport.kind imp = "dynamic-import")) as [Hk|Hk],
        (decide (OutputImport.external imp = Some true)) as [Hx|Hx].
      * rewrite !bool_decide_eq_true_2, bool_decide_eq_false_2 by tauto. done.
      * rewrite bool_decide_eq_true_2, bool_decide_eq_false_2, bool_decide_eq_true_2
          by tauto. done.
      * rewrite bool_decide_eq_false_2, (bool_decide_eq_false_2 (_ ∧ _)) by tauto. done.
      * rewrite bool_decide_eq_false_2, (bool_decide_eq_false_2 (_ ∧ _)) by tauto. done.
  - intros dir name Hne Hname. split;
      [by apply basename_after_slash|by apply basename_no_slash].
  - apply strip_ext_ext.
  - intros name Hname. apply strip_ext_none. intros stem ext -> _.
    destruct Hname. exists stem, ext. done.
Qed.

Lemma chunk_fields_witness :
  basename "src/main.tsx" = "main.tsx" ∧ strip_ext "main.tsx" = "main".
Proof.
  destruct (chunk_fields example_env example_metafile example_options)
    as (_ & Hbase & Hext & _).
  split.
  - apply (Hbase "src" "main.tsx"); [done|].
    intros Hc%has_char_chars. vm_compute in Hc.
    by repeat (apply elem_of_cons in Hc as [?|Hc]; [done|]); inversion Hc.
  - apply (Hext "main" "tsx"); [done|].
    intros Hc%has_char_chars. vm_compute in Hc.
    by repeat (apply elem_of_cons in Hc as [?|Hc]; [done|]); inversion Hc.
Defined.

(** C6 as stated fails where [entryPoint] is set to the empty string: the
    chunk is an entry, yet its name is taken from the output path and not
    from the entry point. *)
Lemma names_ignore_empty_entryPoint :
  (λ c, (Chunk.entry c, Chunk.names c)) <$>
    OutputPayload.chunks
      (transformMetafile example_env empty_entryPoint_metafile example_options)
  = [(true, ["a"])]
  ∧ ["a"] ≠ [strip_ext (basename "")].
Proof. split; [reflexivity|by vm_compute]. Qed.

End chunk_facts.


(** *** normalize.ts: the two patterns *)

Section pattern_facts.
Import Js Normalize.

Lemma delim_not_hex d : is_delim d = true → is_hex d = false.
Proof.
  unfold is_delim. intros [->%bool_decide_eq_true| ->%bool_decide_eq_true]%orb_true_iff;
    reflexivity.
Qed.

Lemma delim_not_alpha d : is_delim d = true → is_alpha d = false.
Proof.
  unfold is_delim. intros [->%bool_decide_eq_true| ->%bool_decide_eq_true]%orb_true_iff;
    reflexivity.
Qed.

Lemma forallb_rev (f : ascii → bool) l : forallb f (rev l) = forallb f l.
Proof.
  apply eq_true_iff_eq. rewrite !forallb_forall. split; intros H x Hx; apply H.
  - by apply in_rev in Hx.
  - by apply in_rev.
Qed.

Lemma rev_nil_inv {A} (l : list A) : rev l = [] → l = [].
Proof.
  intros H. apply (f_equal (λ l, rev l)) in H. simpl in H.
  by rewrite rev_involutive in H.
Qed.

(** What a successful attempt of the first pattern says about the text. *)
Lemma match_hash_ext_Some s r :
  match_hash_ext s = Some r →
  ∃ d run ext,
    s = d :: run ++ "."%char :: ext ∧ is_delim d = true
    ∧ forallb is_hex run = true ∧ (8 ≤ length run)%nat
    ∧ ext ≠ [] ∧ forallb is_alpha ext = true
    ∧ r = d :: "*"%char :: "."%char :: ext.
Proof.
  destruct s as [|d rest]; [done|]. unfold match_hash_ext.
  destruct (is_delim d) eqn:Hd; [|done].
  destruct (8 <=? length (take_class is_hex rest))%nat eqn:Hlen; [|done].
  cbn [andb].
  pose proof (take_drop_class is_hex rest) as Hsplit.
  destruct (drop_class is_hex rest) as [|dot ext] eqn:Hdrop; [done|].
  destruct (is_dot dot && negb (bool_decide (ext = [])) && forallb is_alpha ext)
    eqn:Hcond; [|done].
  apply andb_true_iff in Hcond as [[Hdot Hne]%andb_true_iff Halpha].
  intros [= <-].
  apply bool_decide_eq_true in Hdot as ->.
  apply negb_true_iff, bool_decide_eq_false in Hne.
  exists d, (take_class is_hex rest), ext.
  rewrite Hsplit. split_and!; try done.
  - apply take_class_all.
  - by apply Nat.leb_le.
Qed.

Lemma match_hash_ext_shape d run ext :
  is_delim d = true → forallb is_hex run = true → (8 ≤ length run)%nat →
  ext ≠ [] → forallb is_alpha ext = true →
  match_hash_ext (d :: run ++ "."%char :: ext)
  = Some (d :: "*"%char :: "."%char :: ext).
Proof.
  intros Hd Hrun Hlen Hne Halpha. unfold match_hash_ext. rewrite Hd.
  rewrite take_class_app, drop_class_app by done.
  rewrite (proj2 (Nat.leb_le _ _) Hlen). cbn [andb].
  by rewrite (bool_decide_eq_false_2 (ext = [])), Halpha by done.
Qed.

(** A text has at most one hash segment. *)
Lemma hash_segment_unique pre1 d1 run1 ext1 pre2 d2 run2 ext2 :
  pre1 ++ d1 :: run1 ++ "."%char :: ext1 = pre2 ++ d2 :: run2 ++ "."%char :: ext2 →
  is_delim d1 = true → forallb is_hex run1 = true → forallb is_alpha ext1 = true →
  is_delim d2 = true → forallb is_hex run2 = true → forallb is_alpha ext2 = true →
  pre1 = pre2 ∧ d1 = d2 ∧ run1 = run2 ∧ ext1 = ext2.
Proof.
  intros Heq Hd1 Hr1 He1 Hd2 Hr2 He2.
  apply (f_equal (λ l, rev l)) in Heq. simpl in Heq.
  rewrite !rev_app_distr in Heq. simpl in Heq.
  rewrite !rev_app_distr in Heq. simpl in Heq. rewrite <-!app_assoc in Heq.
  simpl in Heq.
  assert (rev ext1 = rev ext2 ∧
          rev run1 ++ d1 :: rev pre1 = rev run2 ++ d2 :: rev pre2) as [Hext Heq'].
  { pose proof (f_equal (take_class is_alpha) Heq) as Ht.
    pose proof (f_equal (drop_class is_alpha) Heq) as Hdr.
    rewrite !take_class_app in Ht by (by rewrite ?forallb_rev).
    rewrite !drop_class_app in Hdr by (by rewrite ?forallb_rev).
    split; [done|]. by injection Hdr. }
  assert (rev run1 = rev run2 ∧ d1 :: rev pre1 = d2 :: rev pre2) as [Hrun Hpre].
  { pose proof (f_equal (take_class is_hex) Heq') as Ht.
    pose proof (f_equal (drop_class is_hex) Heq') as Hdr.
    rewrite !take_class_app in Ht by (by rewrite ?forallb_rev; auto using delim_not_hex).
    rewrite !drop_class_app in Hdr by (by rewrite ?forallb_rev; auto using delim_not_hex).
    done. }
  injection Hpre as -> Hpre.
  apply (f_equal (λ l, rev l)) in Hext, Hrun, Hpre. simpl in *.
  rewrite !rev_involutive in *. done.
Qed.

(** With a hash segment in the text the first pattern rewrites exactly it. *)
Lemma replace_hash_ext_segment pre d run ext :
  is_delim d = true → forallb is_hex run = true → (8 ≤ length run)%nat →
  ext ≠ [] → forallb is_alpha ext = true →
  replace_hash_ext (pre ++ d :: run ++ "."%char :: ext)
  = pre ++ d :: "*"%char :: "."%char :: ext.
Proof.
  intros Hd Hrun Hlen Hne Halpha. induction pre as [|c pre IH].
  - cbn [app]. destruct run as [|x run]; [simpl in Hlen; lia|].
    cbn [replace_hash_ext]. by rewrite match_hash_ext_shape.
  - cbn [app replace_hash_ext].
    destruct (match_hash_ext (c :: pre ++ d :: run ++ "."%char :: ext)) as [r|] eqn:Hm;
      [|by rewrite IH].
    apply match_hash_ext_Some in Hm as (d' & run' & ext' & Heq & Hd' & Hrun' & _ & _ & Hext' & _).
    destruct (hash_segment_unique (c :: pre) d run ext [] d' run' ext') as [Hpre _];
      done.
Qed.

(** Without a hash segment the first pattern leaves the text as it is. *)
Lemma replace_hash_ext_cases s :
  replace_hash_ext s = s
  ∨ ∃ pre d run ext,
      s = pre ++ d :: run ++ "."%char :: ext ∧ is_delim d = true
      ∧ forallb is_hex run = true ∧ (8 ≤ length run)%nat
      ∧ ext ≠ [] ∧ forallb is_alpha ext = true.
Proof.
  induction s as [|c s IH].
  - left. reflexivity.
  - destruct (match_hash_ext (c :: s)) as [r|] eqn:Hm.
    + right. apply match_hash_ext_Some in Hm as (d & run & ext & -> & ? & ? & ? & ? & ? & _).
      by exists [], d, run, ext.
    + destruct IH as [IH|(pre & d & run & ext & -> & ?)].
      * left. cbn [replace_hash_ext]. by rewrite Hm, IH.
      * right. by exists (c :: pre), d, run, ext.
Qed.

(** The second pattern, one step at a time. *)
Lemma replace_hex_runs_cons c s :
  replace_hex_runs (c :: s)
  = match match_hex_run (c :: s) with
    | Some rest => "*"%char :: replace_hex_runs rest
    | None => c :: replace_hex_runs s
    end.
Proof.
  simp replace_hex_runs.
  destruct (inspect (match_hex_run (c :: s))) as [[rest|] Heq];
    simp replace_hex_runs; by rewrite Heq.
Qed.

Lemma match_hex_run_None s :
  (length (take_class is_hex s) < 8)%nat → match_hex_run s = None.
Proof.
  intros Hlen. unfold match_hex_run.
  by rewrite (proj2 (Nat.leb_gt _ _) Hlen).
Qed.

Lemma match_hex_run_Some s :
  (8 ≤ length (take_class is_hex s))%nat →
  match_hex_run s = Some (drop_class is_hex s).
Proof.
  intros Hlen. unfold match_hex_run. by rewrite (proj2 (Nat.leb_le _ _) Hlen).
Qed.

Lemma run_ends_take_class run s :
  forallb is_hex run = true → run_ends s →
  take_class is_hex (run ++ s) = run ∧ drop_class is_hex (run ++ s) = s.
Proof.
  intros Hrun Hs. destruct s as [|c s].
  - rewrite app_nil_r. by apply take_class_all_in.
  - simpl in Hs. by rewrite take_class_app, drop_class_app.
Qed.

(** A short run is copied. *)
Lemma replace_hex_runs_short run s :
  forallb is_hex run = true → (length run < 8)%nat → run_ends s →
  replace_hex_runs (run ++ s) = run ++ replace_hex_runs s.
Proof.
  intros Hrun Hlen Hs. induction run as [|c run IH]; [done|].
  simpl in Hrun. apply andb_true_iff in Hrun as [Hc Hrun].
  cbn [app]. rewrite replace_hex_runs_cons, match_hex_run_None.
  - rewrite IH; [done..|]. simpl in Hlen. lia.
  - change (c :: run ++ s) with ((c :: run) ++ s).
    destruct (run_ends_take_class (c :: run) s) as [-> _]; [|done..].
    simpl. by rewrite Hc, Hrun.
Qed.

(** The second pattern stars the maximal runs of eight or more hex digits
    and nothing else. *)
Lemma replace_hex_runs_starred s : RunsStarred s (replace_hex_runs s).
Proof.
  remember (length s) as n eqn:Hn. revert s Hn.
  induction n as [n IH] using lt_wf_ind. intros s ->.
  destruct s as [|c s']; [simp replace_hex_runs; constructor|].
  destruct (is_hex c) eqn:Hc.
  - pose proof (take_drop_class is_hex (c :: s')) as Hsplit.
    pose proof (take_class_all is_hex (c :: s')) as Hrun.
    assert (run_ends (drop_class is_hex (c :: s'))) as Hends.
    { destruct (drop_class is_hex (c :: s')) as [|x t] eqn:Hdrop; [done|].
      simpl. by eapply drop_class_head. }
    assert (take_class is_hex (c :: s') ≠ []) as Hne by (simpl; by rewrite Hc).
    assert (length (drop_class is_hex (c :: s')) < length (c :: s'))%nat as Hshorter.
    { rewrite <-Hsplit at 2. rewrite length_app.
      destruct (take_class is_hex (c :: s')); [done|simpl; lia]. }
    destruct (le_lt_dec 8 (length (take_class is_hex (c :: s')))) as [Hlong|Hshort].
    + rewrite replace_hex_runs_cons, match_hex_run_Some by done.
      rewrite <-Hsplit at 1. apply starred_long; try done.
      by eapply IH.
    + rewrite <-Hsplit. rewrite replace_hex_runs_short by done.
      apply starred_short; try done. by eapply IH.
  - rewrite replace_hex_runs_cons, match_hex_run_None by (simpl; rewrite Hc; simpl; lia).
    apply starred_other; [done|]. eapply IH; [|done]. simpl. lia.
Qed.

(** Where no position starts eight hex digits, neither pattern changes the
    text. *)
Lemma short_runs_replace_hash_ext s :
  short_hex_runs_check s = true → replace_hash_ext s = s.
Proof.
  induction s as [|c s IH]; [done|]. intros Hs.
  cbn [short_hex_runs_check] in Hs. apply andb_true_iff in Hs as [Hc Hs].
  cbn [replace_hash_ext].
  assert (match_hash_ext (c :: s) = None) as ->; [|by rewrite IH].
  unfold match_hash_ext. destruct (is_delim c) eqn:Hd; [|done].
  destruct s as [|x s]; [done|]. cbn [short_hex_runs_check] in Hs.
  apply andb_true_iff in Hs as [Hx _]. apply Nat.ltb_lt in Hx.
  by rewrite (proj2 (Nat.leb_gt _ _) Hx).
Qed.

Lemma short_runs_replace_hex_runs s :
  short_hex_runs_check s = true → replace_hex_runs s = s.
Proof.
  induction s as [|c s IH]; [done|]. intros Hs.
  cbn [short_hex_runs_check] in Hs. apply andb_true_iff in Hs as [Hc Hs].
  apply Nat.ltb_lt in Hc.
  by rewrite replace_hex_runs_cons, match_hex_run_None, IH.
Qed.

(** The check decides the property it is named after. *)
Lemma short_hex_runs_check_suffix pre s :
  short_hex_runs_check (pre ++ s) = true → short_hex_runs_check s = true.
Proof.
  induction pre as [|c pre IH]; [done|]. cbn [app short_hex_runs_check].
  intros [_ H]%andb_true_iff. by apply IH.
Qed.

Lemma take_class_prefix_length (f : ascii → bool) run post :
  forallb f run = true → (length run ≤ length (take_class f (run ++ post)))%nat.
Proof.
  induction run as [|c run IH]; simpl; [lia|].
  intros [-> Hrun]%andb_true_iff. simpl. specialize (IH Hrun). lia.
Qed.

Lemma short_hex_runs_check_sound s :
  short_hex_runs_check (chars s) = true → short_hex_runs s.
Proof.
  intros Hcheck pre run post -> Hrun. rewrite !chars_app in Hcheck.
  apply short_hex_runs_check_suffix in Hcheck.
  assert (String.length run = length (chars run)) as ->.
  { clear. induction run as [|c run IH]; simpl; [done|]. by rewrite IH. }
  pose proof (take_class_prefix_length is_hex _ (chars post) Hrun) as Hle.
  destruct (chars run ++ chars post) as [|c t] eqn:Heq.
  - simpl in Hle. lia.
  - cbn [short_hex_runs_check] in Hcheck.
    apply andb_true_iff in Hcheck as [Hc _]. apply Nat.ltb_lt in Hc. lia.
Qed.

Lemma short_hex_runs_check_complete s :
  short_hex_runs s → short_hex_runs_check (chars s) = true.
Proof.
  intros Hshort.
  assert (∀ pre t, chars s = pre ++ t → short_hex_runs_check t = true) as Hgen;
    [|by apply (Hgen [])].
  intros pre t. revert pre. induction t as [|c t IH]; intros pre Heq; [done|].
  cbn [short_hex_runs_check]. apply andb_true_iff. split.
  - apply Nat.ltb_lt.
    pose proof (take_drop_class is_hex (c :: t)) as Hsplit.
    specialize (Hshort (str pre) (str (take_class is_hex (c :: t)))
                  (str (drop_class is_hex (c :: t)))).
    assert (String.length (str (take_class is_hex (c :: t)))
            = length (take_class is_hex (c :: t))) as Hlen.
    { generalize (take_class is_hex (c :: t)). clear.
      induction l as [|x l IH]; simpl; [done|]. by rewrite IH. }
    rewrite <-Hlen. apply Hshort.
    + apply chars_inj. by rewrite !chars_app, !chars_str, Hsplit.
    + rewrite chars_str. apply take_class_all.
  - apply (IH (pre ++ [c])). by rewrite <-app_assoc.
Qed.

End pattern_facts.


(** *** node:path on paths in normal form *)

Section plain_paths.
Import Js Path Normalize.

Lemma plain_segment_chars s : plain_segment s → plain_chars (chars s).
Proof.
  intros (Hne & Hdot & Hdotdot & Hslash). split_and!.
  - by intros ?%chars_nil_inv.
  - intros H. apply Hdot, chars_inj. by rewrite H.
  - intros H. apply Hdotdot, chars_inj. by rewrite H.
  - by rewrite <-has_char_chars.
Qed.

Lemma plain_chars_head s :
  plain_chars s → ∃ c t, s = c :: t ∧ is_slash c = false.
Proof.
  intros (Hne & _ & _ & Hslash). destruct s as [|c t]; [done|].
  exists c, t. split; [done|]. apply bool_decide_eq_false_2.
  intros ->. apply Hslash. by left.
Qed.

Lemma plain_chars_last s :
  plain_chars s → ∃ c t, rev s = c :: t ∧ is_slash c = false.
Proof.
  intros (Hne & _ & _ & Hslash). destruct (rev s) as [|c t] eqn:Hrev.
  { by apply rev_nil_inv in Hrev. }
  exists c, t. split; [done|]. apply bool_decide_eq_false_2.
  intros ->. apply Hslash, list_elem_of_In, in_rev. rewrite Hrev. by left.
Qed.

Lemma glue_cons sep seg segs :
  segs ≠ [] → glue sep (seg :: segs) = seg ++ sep :: glue sep segs.
Proof. by destruct segs. Qed.

Lemma glue_snoc sep segs b :
  segs ≠ [] → glue sep (segs ++ [b]) = glue sep segs ++ sep :: b.
Proof.
  induction segs as [|seg segs IH]; [done|]. intros _.
  destruct segs as [|seg' segs]; [reflexivity|].
  change ((seg :: seg' :: segs) ++ [b]) with (seg :: ((seg' :: segs) ++ [b])).
  rewrite glue_cons by (by destruct segs).
  rewrite IH by done. rewrite (glue_cons sep seg (seg' :: segs)) by done.
  rewrite <-app_assoc. reflexivity.
Qed.

Lemma split_on_no_sep sep s : sep ∉ s → split_on sep s = [s].
Proof.
  induction s as [|c s IH]; [done|]. intros [Hc Hs]%not_elem_of_cons.
  simpl. rewrite bool_decide_eq_false_2 by done. by rewrite IH.
Qed.

Lemma split_on_app_sep sep s t :
  sep ∉ s → split_on sep (s ++ sep :: t) = s :: split_on sep t.
Proof.
  induction s as [|c s IH]; intros Hs.
  - simpl. by rewrite bool_decide_eq_true_2.
  - apply not_elem_of_cons in Hs as [Hc Hs]. simpl.
    rewrite bool_decide_eq_false_2 by done. by rewrite IH.
Qed.

Lemma split_on_glue sep segs :
  segs ≠ [] → Forall (λ s, sep ∉ s) segs → split_on sep (glue sep segs) = segs.
Proof.
  induction segs as [|seg segs IH]; [done|]. intros _ [Hseg Hsegs]%Forall_cons.
  destruct segs as [|seg' segs]; [by apply split_on_no_sep|].
  rewrite glue_cons by done. rewrite split_on_app_sep by done. by rewrite IH.
Qed.

Lemma normalize_steps_plain allow segs stack :
  Forall plain_chars segs →
  fold_left (normalize_step allow) segs stack = rev segs ++ stack.
Proof.
  revert stack. induction segs as [|seg segs IH]; intros stack Hsegs; [done|].
  apply Forall_cons in Hsegs as [(Hne & Hdot & Hdotdot & _) Hsegs].
  cbn [fold_left]. rewrite IH by done. unfold normalize_step.
  rewrite !bool_decide_eq_false_2 by done. simpl. by rewrite <-app_assoc.
Qed.

Lemma glue_plain_head segs :
  segs ≠ [] → Forall plain_chars segs →
  ∃ c t, glue "/" segs = c :: t ∧ is_slash c = false.
Proof.
  destruct segs as [|seg segs]; [done|]. intros _ [Hseg _]%Forall_cons.
  destruct (plain_chars_head _ Hseg) as (c & t & -> & Hc).
  destruct segs; simpl; eauto.
Qed.

Lemma glue_plain_last segs :
  segs ≠ [] → Forall plain_chars segs →
  ∃ c t, rev (glue "/" segs) = c :: t ∧ is_slash c = false.
Proof.
  intros Hne Hsegs. destruct (rev segs) as [|b r] eqn:Hrev.
  { by apply rev_nil_inv in Hrev. }
  assert (segs = rev r ++ [b]) as ->.
  { apply (f_equal (λ l, rev l)) in Hrev. simpl in Hrev.
    by rewrite rev_involutive in Hrev. }
  apply Forall_app in Hsegs as [_ [Hb _]%Forall_cons].
  destruct (plain_chars_last _ Hb) as (c & t & Hb' & Hc).
  destruct (rev r) as [|x l] eqn:Hr.
  - simpl. eauto.
  - rewrite glue_snoc by done. rewrite rev_app_distr. simpl.
    rewrite Hb'. simpl. eauto.
Qed.

(** [normalize] leaves a relative path in normal form as it is. *)
Lemma normalize_chars_plain segs :
  segs ≠ [] → Forall plain_chars segs →
  normalize_chars (glue "/" segs) = glue "/" segs.
Proof.
  intros Hne Hsegs.
  destruct (glue_plain_head segs Hne Hsegs) as (c & t & Hhead & Hc).
  destruct (glue_plain_last segs Hne Hsegs) as (x & r & Hlast & Hx).
  assert (normalizeString (glue "/" segs) true = glue "/" segs) as Hnorm.
  { unfold normalizeString. rewrite split_on_glue; [|done|].
    - by rewrite normalize_steps_plain, app_nil_r, rev_involutive.
    - eapply Forall_impl; [exact Hsegs|]. by intros s (_ & _ & _ & ?). }
  unfold normalize_chars. rewrite Hhead at 1. rewrite Hlast, Hc, Hx. simpl negb.
  rewrite Hnorm. by rewrite Hhead.
Qed.

Lemma dirname_chars_plain segs b :
  segs ≠ [] → Forall plain_chars segs → plain_chars b →
  dirname_chars (glue "/" (segs ++ [b])) = glue "/" segs.
Proof.
  intros Hne Hsegs Hb. rewrite glue_snoc by done.
  destruct (glue_plain_head segs Hne Hsegs) as (c & t & -> & Hc).
  destruct (plain_chars_last _ Hb) as (x & r & Hrev & Hx).
  cbn [app dirname_chars]. rewrite Hc, rev_app_distr. simpl rev.
  rewrite <-app_assoc, Hrev. cbn [app drop_class]. rewrite Hx.
  assert (forallb (λ c, negb (is_slash c)) (x :: r) = true) as Hall.
  { rewrite <-Hrev. apply forallb_absent, not_elem_of_rev. apply Hb. }
  change (x :: r ++ "/"%char :: rev t) with ((x :: r) ++ "/"%char :: rev t).
  rewrite drop_class_app by done. by rewrite rev_involutive.
Qed.

Lemma dirname_chars_single b : plain_chars b → dirname_chars b = ["."%char].
Proof.
  intros Hb. destruct (plain_chars_head _ Hb) as (c & t & -> & Hc).
  cbn [dirname_chars]. rewrite Hc.
  assert (forallb (λ c, negb (is_slash c)) (rev t) = true) as Hall.
  { apply forallb_absent, not_elem_of_rev. destruct Hb as (_ & _ & _ & Hb).
    by apply not_elem_of_cons in Hb as [_ ?]. }
  assert (drop_class is_slash (rev t) = rev t) as ->.
  { destruct (rev t) as [|x r]; [done|]. simpl in *.
    apply andb_true_iff in Hall as [Hx%negb_true_iff _]. by rewrite Hx. }
  by destruct (take_class_all_in _ _ Hall) as [_ ->].
Qed.

Lemma glue_plain_not_dot segs :
  segs ≠ [] → Forall plain_chars segs → glue "/" segs ≠ ["."%char].
Proof.
  destruct segs as [|seg segs]; [done|]. intros _ [Hseg Hsegs]%Forall_cons.
  destruct segs as [|seg' segs]; [apply Hseg|].
  rewrite glue_cons by done. destruct Hseg as (Hne & _).
  destruct seg as [|c [|c' seg]]; [done|..]; simpl; congruence.
Qed.

(** Splitting a path in normal form into directory and base name and
    joining the directory with another plain name puts that name in the
    place of the base name. *)
Lemma rejoin_plain segs b b' :
  Forall plain_segment segs → plain_segment b → plain_segment b' →
  let name := path_of (segs ++ [b]) in
  basename name = b
  ∧ (if bool_decide (dirname name = ".") then b' else join [dirname name; b'])
    = path_of (segs ++ [b']).
Proof.
  intros Hsegs Hb Hb' name.
  assert (Forall plain_chars (chars <$> segs)) as Hsegs'.
  { apply Forall_fmap. eapply Forall_impl; [exact Hsegs|].
    intros s. apply plain_segment_chars. }
  pose proof (plain_segment_chars _ Hb) as Hbc.
  pose proof (plain_segment_chars _ Hb') as Hbc'.
  unfold name, path_of, basename, dirname, join. rewrite !fmap_app, !chars_str.
  cbn [fmap list_fmap].
  destruct (decide (segs = [])) as [->|Hne].
  - cbn [app fmap list_fmap glue]. rewrite basename_chars_no_slash by apply Hbc.
    rewrite dirname_chars_single by done. simpl. by rewrite !str_chars.
  - assert (chars <$> segs ≠ []) as Hne' by (by destruct segs).
    rewrite dirname_chars_plain by done. split.
    + rewrite glue_snoc by done.
      rewrite basename_chars_after_slash; [apply str_chars|apply Hbc..].
    + rewrite bool_decide_eq_false_2.
      2:{ intros H. apply (f_equal chars) in H. rewrite chars_str in H.
          by apply (glue_plain_not_dot _ Hne' Hsegs'). }
      f_equal. rewrite chars_str. unfold join_chars. cbn [List.filter].
      assert (glue "/" (chars <$> segs) ≠ []) as Hg.
      { destruct (glue_plain_head _ Hne' Hsegs') as (c & t & -> & _). done. }
      rewrite (bool_decide_eq_false_2 (glue "/" (chars <$> segs) = [])) by done.
      rewrite (bool_decide_eq_false_2 (chars b' = [])) by apply Hbc'.
      cbn [negb].
      change (glue "/" [glue "/" (chars <$> segs); chars b'])
        with (glue "/" (chars <$> segs) ++ "/"%char :: chars b').
      rewrite <-glue_snoc by done.
      apply normalize_chars_plain; [by destruct (chars <$> segs)|].
      apply Forall_app. split; [done|]. by apply Forall_cons.
Qed.

End plain_paths.


(** *** normalize.ts: normalizeAssetName *)

Section normalizeAssetName_facts.
Import Js Path Normalize.

Lemma length_chars s : length (chars s) = String.length s.
Proof. induction s as [|c s IH]; simpl; [done|]. by rewrite IH. Qed.

Lemma chars_segment pre d hash ext :
  chars (pre +:+ String d (hash +:+ "." +:+ ext))
  = chars pre ++ d :: chars hash ++ "."%char :: chars ext.
Proof.
  rewrite chars_app. simpl. rewrite chars_app. done.
Qed.

Lemma str_starred pre d ext :
  str (chars pre ++ d :: "*"%char :: "."%char :: chars ext)
  = pre +:+ String d ("*" +:+ "." +:+ ext).
Proof. apply chars_inj. rewrite chars_str, chars_app. done. Qed.

(** The result when the base name has a hash segment. *)
Lemma normalizeAssetName_segment name pre d hash ext :
  has_hash_segment is_alpha (basename name) pre d hash ext →
  normalizeAssetName name =
    let starred := pre +:+ String d ("*" +:+ "." +:+ ext) in
    if bool_decide (dirname name = ".") then starred
    else join [dirname name; starred].
Proof.
  intros (Hbase & Hd & Hhash & Hlen & Hne & Hext).
  assert (replace_hash_ext (chars (basename name))
          = chars pre ++ d :: "*"%char :: "."%char :: chars ext) as Hrepl.
  { rewrite Hbase, chars_segment. apply replace_hash_ext_segment; try done.
    - by rewrite length_chars.
    - by intros ?%chars_nil_inv. }
  unfold normalizeAssetName. rewrite Hrepl, str_starred.
  rewrite bool_decide_eq_true_2; [done|].
  intros Heq. rewrite Hbase in Heq. apply (f_equal chars) in Heq.
  rewrite chars_segment, chars_app in Heq. apply app_inv_head in Heq.
  apply (f_equal length) in Heq. cbn [chars length] in Heq.
  rewrite length_app in Heq. cbn [length] in Heq.
  rewrite ?length_chars, ?string_app_length in Heq. cbn [String.length] in Heq. lia.
Qed.

(** The result when it has none. *)
Lemma normalizeAssetName_fallback name :
  (∀ pre d hash ext, ¬ has_hash_segment is_alpha (basename name) pre d hash ext) →
  normalizeAssetName name =
    let fallback := str (replace_hex_runs (chars (basename name))) in
    if bool_decide (dirname name = ".") then fallback
    else join [dirname name; fallback].
Proof.
  intros Hnone.
  assert (replace_hash_ext (chars (basename name)) = chars (basename name)) as Hrepl.
  { destruct (replace_hash_ext_cases (chars (basename name)))
      as [?|(pre & d & run & ext & Heq & Hd & Hrun & Hlen & Hne & Hext)]; [done|].
    destruct (Hnone (str pre) d (str run) (str ext)). split_and!; try done.
    - apply chars_inj. by rewrite chars_segment, !chars_str.
    - by rewrite chars_str.
    - by rewrite <-length_chars, chars_str.
    - by intros ?%str_nil_inv.
    - by rewrite chars_str. }
  unfold normalizeAssetName. rewrite Hrepl, str_chars.
  by rewrite bool_decide_eq_false_2 by (by intros []).
Qed.

(** Starring the runs of a plain name gives a plain name. *)
Lemma starred_plain s t : RunsStarred s t → plain_chars s → plain_chars t.
Proof.
  intros Hst.
  assert ("/"%char ∉ s → "/"%char ∉ t) as Hslash.
  { induction Hst as [|c s t Hc _ IH|run s t _ _ _ _ _ IH|run s t _ _ _ _ IH].
    - done.
    - intros [? ?]%not_elem_of_cons. apply not_elem_of_cons. split; auto.
    - intros [? ?]%not_elem_of_app. apply not_elem_of_app. split; auto.
    - intros [? ?]%not_elem_of_app. apply not_elem_of_cons. split; [done|auto]. }
  assert ((t = [] ∨ t = ["."%char] ∨ t = dotdot) → s = t) as Hsmall.
  { clear Hslash.
    induction Hst as [|c s t Hc _ IH|run s t Hne Hrun _ _ _ IH|run s t _ _ _ _ IH].
    - done.
    - intros [?|[[= -> ->]|[= -> ->]]]; [done|..].
      + rewrite IH; [done|by left].
      + rewrite IH; [done|right; by left].
    - destruct run as [|x run]; [done|]. simpl in Hrun.
      apply andb_true_iff in Hrun as [Hx _].
      intros [?|[[= -> _]|[= -> _]]]; done.
    - intros [?|[[=]|[=]]]; done. }
  intros (Hne & Hdot & Hdotdot & Hs). split_and!; [..|by apply Hslash].
  - intros ->. apply Hne, Hsmall. auto.
  - intros ->. apply Hdot, Hsmall. auto.
  - intros ->. apply Hdotdot, Hsmall. auto.
Qed.

Lemma plain_chars_segment s : plain_chars (chars s) → plain_segment s.
Proof.
  intros (Hne & Hdot & Hdotdot & Hslash). split_and!.
  - by intros ->.
  - by intros ->.
  - by intros ->.
  - by rewrite has_char_chars.
Qed.

Lemma starred_segment_plain base pre d hash ext :
  plain_segment base → has_hash_segment is_alpha base pre d hash ext →
  plain_segment (pre +:+ String d ("*" +:+ "." +:+ ext)).
Proof.
  intros Hplain%plain_segment_chars (Hbase & _).
  apply plain_chars_segment. rewrite <-str_starred, chars_str.
  destruct Hplain as (_ & _ & _ & Hslash).
  rewrite Hbase, chars_segment in Hslash.
  apply not_elem_of_app in Hslash as [Hpre Hrest].
  apply not_elem_of_cons in Hrest as [Hd Hrest].
  apply not_elem_of_app in Hrest as [_ Hrest].
  apply not_elem_of_cons in Hrest as [_ Hext].
  split_and!.
  - by destruct (chars pre).
  - by destruct (chars pre) as [|? [|? ?]].
  - by destruct (chars pre) as [|? [|? [|? ?]]].
  - apply not_elem_of_app. split; [done|].
    repeat (apply not_elem_of_cons; split; [done|]). done.
Qed.

(** C3, as the code has it.  When the base name has a hash segment, a run
    of eight or more hex digits right after [-] or [.] and right before a
    final extension of a dot and letters of either case, exactly that run is
    replaced by a star.  When it has none, every maximal run of eight or
    more hex digits of the base name is replaced by a star.  The result is
    the directory joined again with the new base name by [path.join] (the
    base name alone for the directory [.]), which for a path in normal form
    is the path with its directory prefix untouched. *)
Theorem normalizeAssetName_hash_segment (name : string) :
  let base := basename name in
  let rejoin b :=
    if bool_decide (dirname name = ".") then b else join [dirname name; b] in
  (∀ pre d hash ext,
     has_hash_segment is_alpha base pre d hash ext →
     normalizeAssetName name = rejoin (pre +:+ String d ("*" +:+ "." +:+ ext)))
  ∧ ((∀ pre d hash ext, ¬ has_hash_segment is_alpha base pre d hash ext) →
     ∃ fallback,
       RunsStarred (chars base) (chars fallback)
       ∧ normalizeAssetName name = rejoin fallback)
  ∧ (∀ segments file,
       name = path_of (segments ++ [file]) →
       Forall plain_segment segments → plain_segment file →
       base = file
       ∧ (∀ pre d hash ext,
            has_hash_segment is_alpha file pre d hash ext →
            normalizeAssetName name
            = path_of (segments ++ [pre +:+ String d ("*" +:+ "." +:+ ext)]))
       ∧ ((∀ pre d hash ext, ¬ has_hash_segment is_alpha file pre d hash ext) →
          ∃ fallback,
            RunsStarred (chars file) (chars fallback)
            ∧ normalizeAssetName name = path_of (segments ++ [fallback]))).
Proof.
  intros base rejoin. split; [|split].
  - intros pre d hash ext Hseg.
    by apply (normalizeAssetName_segment name pre d hash ext).
  - intros Hnone. exists (str (replace_hex_runs (chars base))). split.
    + rewrite chars_str. apply replace_hex_runs_starred.
    + by apply normalizeAssetName_fallback.
  - intros segments file -> Hsegs Hfile.
    assert (base = file) as Hbase.
    { by destruct (rejoin_plain segments file file). }
    split; [done|]. split.
    + intros pre d hash ext Hseg.
      rewrite (normalizeAssetName_segment _ pre d hash ext)
        by (by fold base; rewrite Hbase).
      apply rejoin_plain; try done.
      by apply (starred_segment_plain file pre d hash ext).
    + intros Hnone. exists (str (replace_hex_runs (chars file))).
      pose proof (replace_hex_runs_starred (chars file)) as Hstar.
      split; [by rewrite chars_str|].
      rewrite normalizeAssetName_fallback by (by fold base; rewrite Hbase).
      fold base. rewrite Hbase. apply rejoin_plain; try done.
      apply plain_chars_segment. rewrite chars_str.
      eapply starred_plain; [done|]. by apply plain_segment_chars.
Qed.

Lemma no_char_check c s :
  forallb (λ x, negb (bool_decide (x = c))) (chars s) = true → ¬ has_char c s.
Proof. intros Hall. by rewrite has_char_chars, <-forallb_absent. Qed.

Lemma normalizeAssetName_hash_segment_witness :
  normalizeAssetName "dist/assets/main-abc123ef.js" = "dist/assets/main-*.js".
Proof.
  destruct (normalizeAssetName_hash_segment "dist/assets/main-abc123ef.js")
    as (_ & _ & Hplain).
  destruct (Hplain ["dist"; "assets"] "main-abc123ef.js") as (_ & Hseg & _).
  - reflexivity.
  - repeat constructor; try done; by apply no_char_check.
  - repeat constructor; try done; by apply no_char_check.
  - apply (Hseg "main" "-"%char "abc123ef" "js").
    repeat split; try done; simpl; lia.
Defined.

(** The last character of a name with a hash segment is a letter of the
    class of its extension. *)
Lemma hash_segment_last_char letter base pre d hash ext :
  has_hash_segment letter base pre d hash ext →
  ∃ x r, rev (chars base) = x :: r ∧ letter x = true.
Proof.
  intros (-> & _ & _ & _ & Hne & Hext). rewrite chars_segment.
  rewrite rev_app_distr. simpl. rewrite rev_app_distr. simpl.
  destruct (rev (chars ext)) as [|x r] eqn:Hrev.
  { apply rev_nil_inv, chars_nil_inv in Hrev. done. }
  exists x. eexists. split; [by rewrite <-!app_assoc|].
  rewrite forallb_forall in Hext. apply Hext, in_rev. rewrite Hrev. by left.
Qed.

(** C3 as stated fails in two ways.  The extension is matched without
    regard to case, so with an upper-case extension the first pattern still
    applies and the other long run stays, where the statement asks for the
    fallback that stars both.  And a leading [./] is not kept. *)
Lemma normalizeAssetName_not_as_stated :
  (normalizeAssetName "deadbeef00-abc12345.JS" = "deadbeef00-*.JS"
   ∧ (∀ pre d hash ext,
        ¬ has_hash_segment is_lower (basename "deadbeef00-abc12345.JS")
            pre d hash ext)
   ∧ RunsStarred (chars (basename "deadbeef00-abc12345.JS")) (chars "*-*.JS")
   ∧ "deadbeef00-*.JS" ≠ "*-*.JS")
  ∧ (normalizeAssetName "./main-abc12345.js" = "main-*.js"
     ∧ has_hash_segment is_lower (basename "./main-abc12345.js")
         "main" "-" "abc12345" "js"
     ∧ "main-*.js" ≠ "./main-*.js").
Proof.
  split; split_and!; try done.
  - intros pre d hash ext Hseg.
    apply hash_segment_last_char in Hseg as (x & r & Hrev & Hx).
    vm_compute in Hrev. by injection Hrev as <- _.
  - change (chars "*-*.JS")
      with (replace_hex_runs (chars (basename "deadbeef00-abc12345.JS"))).
    apply replace_hex_runs_starred.
Qed.

Lemma take_class_app_le (f : ascii → bool) s b :
  (length (take_class f s) ≤ length (take_class f (s ++ b)))%nat.
Proof.
  induction s as [|c s IH]; simpl; [lia|]. destruct (f c); simpl; lia.
Qed.

Lemma short_hex_runs_check_prefix s b :
  short_hex_runs_check (s ++ b) = true → short_hex_runs_check s = true.
Proof.
  induction s as [|c s IH]; [done|]. cbn [app short_hex_runs_check].
  intros [Hc Hs]%andb_true_iff. apply andb_true_iff. split; [|by apply IH].
  apply Nat.ltb_lt in Hc. apply Nat.ltb_lt.
  pose proof (take_class_app_le is_hex (c :: s) b). simpl in *. lia.
Qed.

Lemma basename_chars_infix p : ∃ a b, p = a ++ basename_chars p ++ b.
Proof.
  unfold basename_chars.
  pose proof (take_drop_class is_slash (rev p)) as Hslashes.
  pose proof (take_drop_class (λ c, negb (is_slash c))
                (drop_class is_slash (rev p))) as Hbase.
  exists (rev (drop_class (λ c, negb (is_slash c)) (drop_class is_slash (rev p)))),
         (rev (take_class is_slash (rev p))).
  rewrite <-!rev_app_distr, <-app_assoc, Hbase, Hslashes. by rewrite rev_involutive.
Qed.

Lemma short_hex_runs_basename name :
  short_hex_runs name → short_hex_runs_check (chars (basename name)) = true.
Proof.
  intros Hshort%short_hex_runs_check_complete.
  unfold basename. rewrite chars_str.
  destruct (basename_chars_infix (chars name)) as (a & b & Heq).
  rewrite Heq in Hshort.
  by apply short_hex_runs_check_suffix, short_hex_runs_check_prefix in Hshort.
Qed.

(** C9, as the code has it.  When every run of hex digits in the file name
    is shorter than eight, the base name is left as it is and the result is
    the directory joined again with it by [path.join] (the base name alone
    for the directory [.]); for a path in normal form that is the input
    itself, directory prefix included. *)
Theorem normalizeAssetName_short_hex_runs (name : string) :
  short_hex_runs name →
  normalizeAssetName name
  = (if bool_decide (dirname name = ".") then basename name
     else join [dirname name; basename name])
  ∧ (∀ segments,
       segments ≠ [] → Forall plain_segment segments → name = path_of segments →
       normalizeAssetName name = name).
Proof.
  intros Hshort%short_hex_runs_basename.
  assert (normalizeAssetName name
          = (if bool_decide (dirname name = ".") then basename name
             else join [dirname name; basename name])) as Hresult.
  { unfold normalizeAssetName.
    rewrite short_runs_replace_hash_ext, short_runs_replace_hex_runs by done.
    rewrite str_chars. by rewrite bool_decide_eq_false_2 by (by intros []). }
  split; [done|]. intros segments Hne Hsegs ->. rewrite Hresult.
  destruct (rev segments) as [|file r] eqn:Hrev.
  { by apply rev_nil_inv in Hrev. }
  assert (segments = rev r ++ [file]) as ->.
  { apply (f_equal (λ l, rev l)) in Hrev. simpl in Hrev.
    by rewrite rev_involutive in Hrev. }
  apply Forall_app in Hsegs as [Hdir [Hfile _]%Forall_cons].
  destruct (rejoin_plain (rev r) file file Hdir Hfile Hfile) as [Hbase Hjoin].
  by rewrite Hbase.
Qed.

Lemma normalizeAssetName_short_hex_runs_witness :
  normalizeAssetName "dist/main-abc.js" = "dist/main-abc.js".
Proof.
  destruct (normalizeAssetName_short_hex_runs "dist/main-abc.js") as [_ Hplain].
  - by apply short_hex_runs_check_sound.
  - apply (Hplain ["dist"; "main-abc.js"]); [done| |reflexivity].
    repeat constructor; try done; by apply no_char_check.
Defined.

(** C9 as stated fails for a path that is not in normal form: a leading
    [./] is dropped although no run of hex digits reaches eight. *)
Lemma short_hex_runs_not_identity :
  short_hex_runs "./main-abc.js"
  ∧ normalizeAssetName "./main-abc.js" = "main-abc.js"
  ∧ normalizeAssetName "./main-abc.js" ≠ "./main-abc.js".
Proof.
  split_and!; [by apply short_hex_runs_check_sound|done|done].
Qed.

End normalizeAssetName_facts.


(** *** providers/github.ts: reading the environment *)

Section github_env_facts.
Import Js Upload Github GithubActions.

Lemma truthy_value_Some x s :
  truthy_value x = Some s ↔ x = Some s ∧ s ≠ "".
Proof.
  unfold truthy_value, truthy. destruct x as [t|]; [|naive_solver].
  case_bool_decide; simpl; naive_solver.
Qed.

Lemma truthy_value_None x : truthy_value x = None ↔ x = None ∨ x = Some "".
Proof.
  unfold truthy_value, truthy. destruct x as [t|]; [|naive_solver].
  case_bool_decide; simpl; naive_solver.
Qed.

Lemma strip_prefix_Some p s rest : strip_prefix p s = Some rest ↔ s = p ++ rest.
Proof.
  revert s. induction p as [|a p IH]; intros s; simpl; [naive_solver|].
  destruct s as [|b s]; [naive_solver|]. case_bool_decide; [|naive_solver].
  rewrite IH. naive_solver.
Qed.

Lemma extractPrNumber_digits ref :
  forallb is_digit (chars (extractPrNumber ref)) = true.
Proof.
  unfold extractPrNumber.
  destruct (strip_prefix _ (chars ref)) as [rest|]; [|done]. cbn zeta.
  destruct (negb _ && _); [|done]. rewrite chars_str. apply take_class_all.
Qed.

(** X1. [extractPrNumber] gives back the number of a pull-request merge ref,
    and nothing else yields a number: a non-empty result means the ref is
    exactly [refs/pull/<result>/merge]; the result consists of digits. *)
Theorem extractPrNumber_merge_ref (ref : string) :
  (∀ n, n ≠ "" → forallb is_digit (chars n) = true →
     extractPrNumber ("refs/pull/" +:+ n +:+ "/merge") = n)
  ∧ (extractPrNumber ref ≠ "" →
     ref = "refs/pull/" +:+ extractPrNumber ref +:+ "/merge")
  ∧ forallb is_digit (chars (extractPrNumber ref)) = true.
Proof.
  split_and!.
  - intros n Hne Hdigits. unfold extractPrNumber.
    rewrite !chars_app.
    rewrite (proj2 (strip_prefix_Some _ _ (chars n ++ chars "/merge")) eq_refl).
    cbn zeta. change (chars "/merge") with ("/"%char :: chars "merge").
    rewrite take_class_app, drop_class_app by done.
    rewrite bool_decide_eq_false_2 by (by intros ?%chars_nil_inv).
    rewrite bool_decide_eq_true_2 by done. apply str_chars.
  - unfold extractPrNumber.
    destruct (strip_prefix _ (chars ref)) as [rest|] eqn:Hprefix; [|done].
    apply strip_prefix_Some in Hprefix. cbn zeta.
    destruct (negb _ && _) eqn:Hcond; [|done]. intros _.
    apply andb_true_iff in Hcond as [_ Hrest%bool_decide_eq_true].
    apply chars_inj. rewrite Hprefix, !chars_app, chars_str.
    by rewrite <-Hrest, take_drop_class.
  - apply extractPrNumber_digits.
Qed.

Lemma extractPrNumber_merge_ref_witness :
  extractPrNumber "refs/pull/12345/merge" = "12345".
Proof.
  by apply (proj1 (extractPrNumber_merge_ref "") "12345").
Defined.

(** X2. [extractBranch] prefers the head ref; an empty head ref counts as
    absent and the ref name is used; the result is empty exactly when both
    are absent or empty. *)
Theorem extractBranch_precedence (env : Env) :
  (∀ head, env !! "GITHUB_HEAD_REF" = Some head → head ≠ "" →
     extractBranch env = head)
  ∧ (env !! "GITHUB_HEAD_REF" = None ∨ env !! "GITHUB_HEAD_REF" = Some "" →
     ∀ name, env !! "GITHUB_REF_NAME" = Some name → extractBranch env = name)
  ∧ (extractBranch env = "" ↔
       (env !! "GITHUB_HEAD_REF" = None ∨ env !! "GITHUB_HEAD_REF" = Some "")
       ∧ (env !! "GITHUB_REF_NAME" = None ∨ env !! "GITHUB_REF_NAME" = Some "")).
Proof.
  unfold extractBranch. split_and!.
  - intros head Hhead Hne.
    by rewrite (proj2 (truthy_value_Some _ head)).
  - intros Hhead name Hname. rewrite (proj2 (truthy_value_None _) Hhead).
    destruct (truthy_value (env !! "GITHUB_REF_NAME")) as [name'|] eqn:Hn.
    + apply truthy_value_Some in Hn as [Hn _]. congruence.
    + apply truthy_value_None in Hn as [Hn|Hn]; congruence.
  - rewrite <-!truthy_value_None.
    destruct (truthy_value (env !! "GITHUB_HEAD_REF")) as [head|] eqn:Hh.
    { apply truthy_value_Some in Hh as [_ Hh]. naive_solver. }
    destruct (truthy_value (env !! "GITHUB_REF_NAME")) as [name|] eqn:Hn.
    { apply truthy_value_Some in Hn as [_ Hn]. naive_solver. }
    naive_solver.
Qed.

Lemma extractBranch_precedence_witness :
  extractBranch (<["GITHUB_HEAD_REF" := ""]> GithubActions.example_env) = "42/merge".
Proof.
  apply (proj1 (proj2 (extractBranch_precedence
                         (<["GITHUB_HEAD_REF" := ""]> GithubActions.example_env))));
    [by right|reflexivity].
Defined.

(** X3. [getServiceParams] fails exactly when the repository or the commit
    is absent or empty, the repository being checked first, and names the
    variable that is missing. *)
Theorem getServiceParams_required (env : Env) :
  let missing key := env !! key = None ∨ env !! key = Some "" in
  (getServiceParams env = Throw (ErrorObj "GITHUB_REPOSITORY is not set")
     ↔ missing "GITHUB_REPOSITORY")
  ∧ (getServiceParams env = Throw (ErrorObj "GITHUB_SHA is not set")
     ↔ ¬ missing "GITHUB_REPOSITORY" ∧ missing "GITHUB_SHA")
  ∧ ((∃ params, getServiceParams env = Return params)
     ↔ ¬ missing "GITHUB_REPOSITORY" ∧ ¬ missing "GITHUB_SHA").
Proof.
  intros missing. unfold missing, getServiceParams.
  rewrite <-!truthy_value_None.
  destruct (truthy_value (env !! "GITHUB_REPOSITORY")) as [repository|];
    [|naive_solver].
  destruct (truthy_value (env !! "GITHUB_SHA")) as [commit|]; naive_solver.
Qed.

(** X4. What [getServiceParams] returns: the service is [github-actions],
    the commit and the slug come from the environment, the pull-request
    number consists of digits, and the build URL is empty exactly when there
    is no run id and otherwise is
    [<server>/<repository>/actions/runs/<run id>], the server being
    [https://github.com] unless one is set. *)
Theorem getServiceParams_fields (env : Env) (params : GitHubActionsParams) :
  getServiceParams env = Return params →
  service params = "github-actions"
  ∧ env !! "GITHUB_SHA" = Some (commit params)
  ∧ (∃ repository,
       env !! "GITHUB_REPOSITORY" = Some repository
       ∧ slug params = encodeSlug repository
       ∧ (build params ≠ "" →
          env !! "GITHUB_RUN_ID" = Some (build params)
          ∧ ∃ server,
              buildURL params
              = server +:+ "/" +:+ repository +:+ "/actions/runs/" +:+ build params
              ∧ (env !! "GITHUB_SERVER_URL" = Some server ∧ server ≠ ""
                 ∨ server = "https://github.com"
                   ∧ (env !! "GITHUB_SERVER_URL" = None
                      ∨ env !! "GITHUB_SERVER_URL" = Some ""))))
  ∧ (buildURL params = "" ↔ build params = "")
  ∧ branch params = extractBranch env
  ∧ forallb is_digit (chars (pr params)) = true.
Proof.
  unfold getServiceParams.
  destruct (truthy_value (env !! "GITHUB_REPOSITORY")) as [repository|] eqn:Hrepo;
    [|done].
  destruct (truthy_value (env !! "GITHUB_SHA")) as [sha|] eqn:Hsha; [|done].
  intros [= <-]. cbn.
  apply truthy_value_Some in Hrepo as [Hrepo _].
  apply truthy_value_Some in Hsha as [Hsha _].
  split_and!; try done.
  - exists repository. split_and!; try done. intros Hbuild.
    destruct (truthy_value (env !! "GITHUB_RUN_ID")) as [runId|] eqn:Hrun;
      [|done].
    apply truthy_value_Some in Hrun as [Hrun Hne]. simpl. split; [done|].
    unfold truthy. rewrite bool_decide_eq_false_2 by done. simpl.
    destruct (truthy_value (env !! "GITHUB_SERVER_URL")) as [server|] eqn:Hserver.
    + apply truthy_value_Some in Hserver. exists server. simpl. auto.
    + apply truthy_value_None in Hserver. exists "https://github.com". simpl. auto.
  - destruct (truthy_value (env !! "GITHUB_RUN_ID")) as [runId|] eqn:Hrun; simpl;
      [|done].
    apply truthy_value_Some in Hrun as [_ Hne].
    unfold truthy. rewrite bool_decide_eq_false_2 by done. simpl.
    split; [|done]. intros Heq. apply (f_equal chars) in Heq.
    rewrite !chars_app in Heq. by destruct (chars (default _ _)).
  - apply extractPrNumber_digits.
Qed.

Lemma getServiceParams_fields_witness :
  match getServiceParams GithubActions.example_env with
  | Return params =>
      buildURL params = "https://github.com/owner/repo/actions/runs/98765"
  | Throw _ => False
  end.
Proof.
  destruct (getServiceParams GithubActions.example_env) as [params|err] eqn:Hrun.
  - destruct (getServiceParams_fields _ _ Hrun)
      as (_ & _ & (repository & Hrepo & _ & Hbuild) & _).
    injection Hrun as <-. reflexivity.
  - vm_compute in Hrun. discriminate.
Defined.

(** The first occurrence of a character. *)
Lemma has_char_first c s :
  has_char c s → ∃ a b, s = a +:+ String c b ∧ ¬ has_char c a.
Proof.
  induction s as [|x s IH]; intros Hc.
  - by destruct Hc as ([|? ?] & ? & ?).
  - destruct (decide (x = c)) as [->|Hne].
    + exists "", s. split; [done|]. by intros ([|? ?] & ? & ?).
    + apply has_char_cons in Hc as [?|Hc]; [done|].
      destruct (IH Hc) as (a & b & -> & Ha). exists (String x a), b.
      split; [done|]. rewrite has_char_cons. naive_solver.
Qed.

Lemma has_char_dec c s : Decision (has_char c s).
Proof.
  destruct (decide (c ∈ chars s)) as [Hin|Hout]; [left|right];
    by rewrite has_char_chars.
Defined.

(** The two shapes of a slug. *)
Lemma encodeSlug_cases s :
  (¬ has_char "/" s ∧ encodeSlug s = s +:+ "::::")
  ∨ (∃ owner repo,
       s = owner +:+ String "/" repo ∧ ¬ has_char "/" owner
       ∧ encodeSlug s = owner +:+ ":::" +:+ repo +:+ "::::").
Proof.
  destruct (has_char_dec "/" s) as [Hslash|Hnone].
  - right. destruct (has_char_first _ _ Hslash) as (owner & repo & -> & Howner).
    exists owner, repo. split_and!; try done. unfold encodeSlug.
    rewrite indexOf_first by done.
    destruct (Z.eqb_spec (Z.of_nat (String.length owner)) (-1)); [lia|].
    unfold slice, slice_from. rewrite Z.sub_0_r, !Nat2Z.id.
    change (Z.to_nat 0) with 0%nat. rewrite substring_prefix.
    replace (owner +:+ String "/" repo) with ((owner +:+ "/") +:+ repo)
      by (by rewrite string_app_assoc).
    assert (Z.to_nat (Z.of_nat (String.length owner) + 1)
            = String.length (owner +:+ "/")) as ->
      by (rewrite string_app_length; simpl; lia).
    generalize (owner +:+ "/"). intros prefix.
    rewrite string_app_length.
    replace (String.length prefix + String.length repo - String.length prefix)%nat
      with (String.length repo) by lia.
    by rewrite substring_suffix.
  - left. split; [done|]. unfold encodeSlug. by rewrite indexOf_absent.
Qed.

(** X5. On names without a colon, as GitHub has them, [encodeSlug] is
    injective: two repositories never share a slug. *)
Theorem encodeSlug_injective (s1 s2 : string) :
  ¬ has_char ":" s1 → ¬ has_char ":" s2 →
  encodeSlug s1 = encodeSlug s2 → s1 = s2.
Proof.
  intros H1 H2 Heq. set (not_colon := λ c : ascii, negb (bool_decide (c = ":"%char))).
  assert (∀ s, ¬ has_char ":" s → forallb not_colon (chars s) = true) as Hclass.
  { intros s Hs. apply forallb_absent. by rewrite <-has_char_chars. }
  assert (∀ a b, ¬ has_char ":" (a +:+ String "/" b) →
            ¬ has_char ":" a ∧ ¬ has_char ":" b) as Hparts.
  { intros a b Hab. rewrite !has_char_chars in *. rewrite chars_app in Hab.
    simpl in Hab. rewrite elem_of_app, elem_of_cons in Hab. naive_solver. }
  destruct (encodeSlug_cases s1) as [[_ E1]|(o1 & r1 & -> & _ & E1)],
           (encodeSlug_cases s2) as [[_ E2]|(o2 & r2 & -> & _ & E2)];
    rewrite E1, E2 in Heq; apply (f_equal chars) in Heq;
    rewrite !chars_app in Heq.
  - apply app_inv_tail in Heq. by apply chars_inj.
  - destruct (Hparts _ _ H2) as [Ho2 Hr2].
    pose proof (f_equal (take_class not_colon) Heq) as Ht.
    pose proof (f_equal (drop_class not_colon) Heq) as Hd.
    change (chars "::::") with (":"%char :: chars ":::") in Ht, Hd.
    change (chars ":::") with (":"%char :: chars "::") in Ht at 2.
    change (chars ":::") with (":"%char :: chars "::") in Hd at 2.
    simpl app in Ht, Hd.
    rewrite !take_class_app in Ht by auto.
    rewrite !drop_class_app in Hd by auto.
    apply (f_equal length) in Hd. simpl in Hd. rewrite length_app in Hd.
    simpl in Hd. lia.
  - destruct (Hparts _ _ H1) as [Ho1 Hr1].
    pose proof (f_equal (take_class not_colon) Heq) as Ht.
    pose proof (f_equal (drop_class not_colon) Heq) as Hd.
    change (chars "::::") with (":"%char :: chars ":::") in Ht, Hd.
    change (chars ":::") with (":"%char :: chars "::") in Ht at 1.
    change (chars ":::") with (":"%char :: chars "::") in Hd at 1.
    simpl app in Ht, Hd.
    rewrite !take_class_app in Ht by auto.
    rewrite !drop_class_app in Hd by auto.
    apply (f_equal length) in Hd. simpl in Hd. rewrite length_app in Hd.
    simpl in Hd. lia.
  - destruct (Hparts _ _ H1) as [Ho1 Hr1]. destruct (Hparts _ _ H2) as [Ho2 Hr2].
    pose proof (f_equal (take_class not_colon) Heq) as Ht.
    pose proof (f_equal (drop_class not_colon) Heq) as Hd.
    change (chars ":::") with (":"%char :: chars "::") in Ht, Hd.
    simpl app in Ht, Hd.
    rewrite !take_class_app in Ht by auto.
    rewrite !drop_class_app in Hd by auto.
    apply chars_inj in Ht as ->. f_equal. f_equal.
    injection Hd as Hd. apply app_inv_tail in Hd. by apply chars_inj.
Qed.

Lemma encodeSlug_injective_witness :
  encodeSlug "owner/repo" = "owner:::repo::::" ∧ "owner/repo" = "owner/repo".
Proof.
  split; [reflexivity|].
  apply (encodeSlug_injective "owner/repo" "owner/repo");
    [by apply no_char_check..|reflexivity].
Defined.

(** X6. [fetchOidcToken] makes no request when the request URL or the
    runtime token is absent or empty, and exactly one request otherwise, with
    no retry whatever the answer is. *)
Theorem fetchOidcToken_requests (host : Host) (env : Env)
    (fetcher : TokenFetcher) (requests : list TokenRequest) :
  let missing key := env !! key = None ∨ env !! key = Some "" in
  let after := (fetchOidcToken host env fetcher requests).2 in
  (missing "ACTIONS_ID_TOKEN_REQUEST_URL" ∨ missing "ACTIONS_RUNTIME_TOKEN"
     ↔ after = requests)
  ∧ (¬ missing "ACTIONS_ID_TOKEN_REQUEST_URL" ∧ ¬ missing "ACTIONS_RUNTIME_TOKEN"
     ↔ ∃ requestUrl runtimeToken,
         env !! "ACTIONS_ID_TOKEN_REQUEST_URL" = Some requestUrl
         ∧ env !! "ACTIONS_RUNTIME_TOKEN" = Some runtimeToken
         ∧ after = requests ++ [
             {| token_url := requestUrl +:+ "&audience=https://codecov.io";
                token_headers := [("Authorization", "Bearer " +:+ runtimeToken)] |} ]).
Proof.
  intros missing after. unfold missing, after, fetchOidcToken.
  rewrite <-!truthy_value_None.
  assert (∀ x : TokenRequest, requests ++ [x] ≠ requests) as Hgrow.
  { intros x Heq. apply (f_equal length) in Heq. rewrite length_app in Heq.
    simpl in Heq. lia. }
  destruct (truthy_value (env !! "ACTIONS_ID_TOKEN_REQUEST_URL"))
    as [requestUrl|] eqn:Hurl.
  2:{ simpl. split; [split; [done|by left]|]. split; [by intros [[] _]|].
      intros (u & t & _ & _ & Heq). symmetry in Heq. by apply Hgrow in Heq. }
  destruct (truthy_value (env !! "ACTIONS_RUNTIME_TOKEN"))
    as [runtimeToken|] eqn:Htoken.
  2:{ simpl. split; [split; [done|by right]|]. split; [by intros [_ []]|].
      intros (u & t & _ & _ & Heq). symmetry in Heq. by apply Hgrow in Heq. }
  apply truthy_value_Some in Hurl as [Hurl _].
  apply truthy_value_Some in Htoken as [Htoken _]. cbn zeta.
  assert ((match fetcher requests
              {| token_url := requestUrl +:+ "&audience=" +:+ OIDC_AUDIENCE;
                 token_headers := [("Authorization", "Bearer " +:+ runtimeToken)] |}
            with
            | inl err => (Throw err, requests ++ [_])
            | inr response => _
            end).2
          = requests ++ [
              {| token_url := requestUrl +:+ "&audience=https://codecov.io";
                 token_headers := [("Authorization", "Bearer " +:+ runtimeToken)] |} ])
    as ->.
  { destruct (fetcher _ _) as [err|response]; [done|].
    destruct (negb (token_ok response)); [done|].
    destruct (token_json response) as [err|[|value]]; try done.
    by destruct (truthy_value value). }
  split.
  - split; [by intros [|]|]. intros Heq. by apply Hgrow in Heq.
  - split; [|done]. intros _. eauto.
Qed.

(** X7. [fetchOidcToken] returns a token only after one request that was
    answered with a success status and a non-empty [value], which is the
    token returned. *)
Theorem fetchOidcToken_returns (host : Host) (env : Env)
    (fetcher : TokenFetcher) (requests requests' : list TokenRequest)
    (token : string) :
  fetchOidcToken host env fetcher requests = (Return token, requests') →
  token ≠ ""
  ∧ ∃ request response,
      requests' = requests ++ [request]
      ∧ fetcher requests request = inr response
      ∧ (200 ≤ token_status response ≤ 299)%N
      ∧ token_json response = inr (TokenObject (Some token)).
Proof.
  unfold fetchOidcToken.
  destruct (truthy_value (env !! "ACTIONS_ID_TOKEN_REQUEST_URL"))
    as [requestUrl|]; [|done].
  destruct (truthy_value (env !! "ACTIONS_RUNTIME_TOKEN"))
    as [runtimeToken|]; [|done]. cbn zeta.
  destruct (fetcher _ _) as [err|response] eqn:Hfetch; [done|].
  destruct (token_ok response) eqn:Hok; [|done]. simpl.
  destruct (token_json response) as [err|[|value]] eqn:Hjson; try done.
  destruct (truthy_value value) as [t|] eqn:Hvalue; [|done].
  intros [= -> <-]. apply truthy_value_Some in Hvalue as [-> Hne].
  split; [done|]. eexists _, response.
  unfold token_ok in Hok. apply andb_true_iff in Hok as [?%N.leb_le ?%N.leb_le].
  split_and!; [reflexivity|exact Hfetch|lia|lia|done].
Qed.

Lemma fetchOidcToken_returns_witness :
  "fake-jwt-token" ≠ "".
Proof.
  apply (fetchOidcToken_returns example_host GithubActions.example_env
           example_token_fetcher [] _ "fake-jwt-token" eq_refl).
Defined.

End github_env_facts.


(** *** upload.ts: the histories of a run *)

Section upload_trace_facts.
Import Js Upload UploadTrace.

Lemma attempts_before_S url init delayMs k :
  attempts_before url init delayMs (S k)
  = [Fetch url init; Sleep delayMs] ++ attempts_before url init delayMs k.
Proof. reflexivity. Qed.

Lemma fetch_count_attempts_before url init delayMs k :
  fetch_count (attempts_before url init delayMs k) = k.
Proof.
  induction k as [|k IH]; [done|].
  rewrite attempts_before_S, fetch_count_app, IH. reflexivity.
Qed.

(** A run of [fetchWithRetry] in full: [k] attempts answered with a
    non-success status and followed by the delay, then one last attempt that
    decides the outcome: a response with a success status is returned, a
    rejection is passed on, and a non-success status is turned into the
    request failure when the budget is used up. *)
Lemma fetchWithRetry_run url init fetcher delayMs retries h :
  ∃ k,
    (k < Nat.max retries 1)%nat
    ∧ (∀ j, (j < k)%nat →
         ∃ r, fetcher (h ++ attempts_before url init delayMs j) url init = inr r
              ∧ ok r = false)
    ∧ (fetchWithRetry url init fetcher retries delayMs h).2
      = h ++ attempts_before url init delayMs k ++ [Fetch url init]
    ∧ match (fetchWithRetry url init fetcher retries delayMs h).1 with
      | Return r =>
          fetcher (h ++ attempts_before url init delayMs k) url init = inr r
          ∧ ok r = true
      | Throw err =>
          fetcher (h ++ attempts_before url init delayMs k) url init = inl err
          ∨ ∃ r, fetcher (h ++ attempts_before url init delayMs k) url init = inr r
                 ∧ ok r = false ∧ err = request_failed r
                 ∧ S k = Nat.max retries 1
      end.
Proof.
  revert h. induction (lt_wf retries) as [retries _ IH]. intros h.
  rewrite fetchWithRetry_unfold.
  destruct (fetcher h url init) as [err|response] eqn:Hfetch.
  { exists 0%nat. simpl. rewrite app_nil_r.
    split; [lia|]. split; [lia|]. split; [done|]. by left. }
  destruct (ok response) eqn:Hok.
  { exists 0%nat. simpl. rewrite app_nil_r.
    split; [lia|]. split; [lia|]. split; [done|]. by split. }
  destruct retries as [|[|n]].
  1,2: exists 0%nat; simpl; rewrite app_nil_r;
       (split; [lia|]); (split; [lia|]); (split; [done|]); right; eauto.
  destruct (IH (S n) ltac:(lia) (h ++ [Fetch url init; Sleep delayMs]))
    as (k & Hk & Hbefore & Hhist & Hout).
  exists (S k). rewrite attempts_before_S.
  assert (∀ j, (h ++ [Fetch url init; Sleep delayMs])
               ++ attempts_before url init delayMs j
               = h ++ [Fetch url init; Sleep delayMs]
                   ++ attempts_before url init delayMs j) as Hassoc
    by (intros j; by rewrite <-app_assoc).
  split; [|split; [|split]].
  - simpl in *. lia.
  - intros [|j] Hj.
    + simpl. rewrite app_nil_r. eauto.
    + rewrite attempts_before_S, <-Hassoc. apply Hbefore. lia.
  - rewrite Hhist. by rewrite <-!app_assoc.
  - rewrite <-Hassoc.
    destruct (fetchWithRetry _ _ _ _ _ _).1 as [r|err]; [done|].
    destruct Hout as [?|(r & ? & ? & ? & Hlast)]; [by left|].
    right. exists r. split_and!; try done. simpl in *. lia.
Qed.

(** X8. [fetchWithRetry] makes between one and [retries] requests (one also
    for a budget of zero), sleeps for the delay between two requests and
    never after the last one, and a response it returns has a success
    status. *)
Theorem fetchWithRetry_trace (url : string) (init : RequestInit)
    (fetcher : Fetcher) (retries : nat) (delayMs : Z) (h : History) :
  ∃ k,
    (k < Nat.max retries 1)%nat
    ∧ (fetchWithRetry url init fetcher retries delayMs h).2
      = h ++ attempts_before url init delayMs k ++ [Fetch url init]
    ∧ ∀ response,
        (fetchWithRetry url init fetcher retries delayMs h).1 = Return response →
        (200 ≤ status response ≤ 299)%N.
Proof.
  destruct (fetchWithRetry_run url init fetcher delayMs retries h)
    as (k & Hk & _ & Hhist & Hout).
  exists k. split_and!; [done..|]. intros response Hret. rewrite Hret in Hout.
  destruct Hout as [_ Hok]. unfold ok in Hok.
  apply andb_true_iff in Hok as [?%N.leb_le ?%N.leb_le]. lia.
Qed.

(** X9. When every answer has a non-success status, the budget is used in
    full: [retries] requests (one for a budget of zero) with the delay
    between them, and the failure carries the status of the last answer. *)
Theorem fetchWithRetry_exhausted (url : string) (init : RequestInit)
    (fetcher : Fetcher) (retries : nat) (delayMs : Z) (h : History) :
  (∀ h', ∃ r, fetcher h' url init = inr r ∧ ok r = false) →
  ∃ r,
    fetcher (h ++ attempts_before url init delayMs (Nat.max retries 1 - 1))
      url init = inr r
    ∧ fetchWithRetry url init fetcher retries delayMs h
      = (Throw (ErrorObj ("Request failed: " +:+ pretty (status r) +:+ " "
                          +:+ statusText r)),
         h ++ attempts_before url init delayMs (Nat.max retries 1 - 1)
           ++ [Fetch url init]).
Proof.
  intros Hfail.
  destruct (fetchWithRetry_run url init fetcher delayMs retries h)
    as (k & Hk & _ & Hhist & Hout).
  destruct (Hfail (h ++ attempts_before url init delayMs k)) as (r & Hr & Hok).
  destruct (fetchWithRetry url init fetcher retries delayMs h) as [out h'] eqn:Hrun.
  simpl in *. destruct out as [r'|err].
  - destruct Hout as [Hr' Hok']. congruence.
  - destruct Hout as [Hr'|(r' & Hr' & _ & -> & Hlast)]; [congruence|].
    assert (r' = r) as -> by congruence.
    replace (Nat.max retries 1 - 1)%nat with k by lia.
    exists r. by rewrite Hhist.
Qed.

Lemma fetchWithRetry_exhausted_witness :
  ∃ r,
    fetchWithRetry "https://storage.example.com" example_put
      (λ _ _ _, inr (example_response 503 "Service Unavailable" None)) 0 250 []
    = (Throw (ErrorObj ("Request failed: " +:+ pretty (status r) +:+ " "
                        +:+ statusText r)),
       [Fetch "https://storage.example.com" example_put]).
Proof.
  destruct (fetchWithRetry_exhausted "https://storage.example.com" example_put
              (λ _ _ _, inr (example_response 503 "Service Unavailable" None))
              0 250 []) as (r & _ & Hrun).
  - intros h'. eexists. split; reflexivity.
  - exists r. exact Hrun.
Defined.

(** What phase 1 adds to a run of its request. *)
Lemma getPresignedUrl_run host apiUrl serviceParams oidcToken fetcher retries
    delayMs h :
  let run :=
    fetchWithRetry apiUrl (post_init host serviceParams oidcToken) fetcher
      retries delayMs h in
  (getPresignedUrl host apiUrl serviceParams oidcToken fetcher retries delayMs h).2
    = run.2
  ∧ match (getPresignedUrl host apiUrl serviceParams oidcToken fetcher retries
             delayMs h).1 with
    | Return u =>
        u ≠ "" ∧ ∃ r, run.1 = Return r ∧ json r = inr (JsonObject (Some u))
    | Throw err =>
        run.1 = Throw err
        ∨ ∃ r, run.1 = Return r
               ∧ (json r = inl err
                  ∨ json r = inr JsonNull ∧ err = ErrorObj (null_read_message host)
                  ∨ (json r = inr (JsonObject None) ∨ json r = inr (JsonObject (Some "")))
                    ∧ err = missing_url)
    end.
Proof.
  intros run.
  assert (getPresignedUrl host apiUrl serviceParams oidcToken fetcher retries
            delayMs h
          = match run with
            | (Return r, h') =>
                (match json r with
                 | inl err => Throw err
                 | inr JsonNull => Throw (ErrorObj (null_read_message host))
                 | inr (JsonObject (Some u)) =>
                     if truthy u then Return u else Throw missing_url
                 | inr (JsonObject None) => Throw missing_url
                 end, h')
            | (Throw err, h') => (Throw err, h')
            end) as ->.
  { unfold getPresignedUrl. fold (post_init host serviceParams oidcToken).
    unfold mbind at 1. unfold Async_bind at 1. fold run.
    destruct run as [[r|err] h']; [|done].
    unfold mbind, Async_bind, response_json, read_url, throw, mret, Async_ret.
    destruct (json r) as [err|[|[u|]]]; try done. simpl. by destruct (truthy u). }
  destruct run as [[r|err] h']; simpl; [|auto].
  destruct (json r) as [err|[|[u|]]] eqn:Hjson; simpl; eauto 10.
  unfold truthy. case_bool_decide as Hu; simpl.
  - subst u. eauto 10.
  - eauto.
Qed.

(** X10. A request that [fetch] itself rejects (the network is down) is not
    tried again: [uploadBundleStats] reports the failure after that one
    request, with no delay. *)
Theorem uploadBundleStats_rejection_not_retried (host : Host)
    (options : UploadOptions) (h : History) (err : Thrown) :
  let apiUrl := default CODECOV_API_URL (Upload.apiUrl options) in
  let fetcher := default (globalThis_fetch host) (Upload.fetcher options) in
  let post := post_init host (serviceParams options) (oidcToken options) in
  fetcher h apiUrl post = inl err →
  uploadBundleStats host options h
  = (Return {| success := false; presignedUrl := None;
               error := Some (message_of err) |},
     h ++ [Fetch apiUrl post]).
Proof.
  intros apiUrl fetcher post Hreject.
  set (delayMs := default RETRY_DELAY_MS (retryDelayMs options)).
  pose proof (getPresignedUrl_run host apiUrl (serviceParams options)
                (oidcToken options) fetcher MAX_RETRIES delayMs h) as [Hh1 Hout1].
  fold post in Hh1, Hout1.
  rewrite fetchWithRetry_unfold, Hreject in Hh1, Hout1. simpl in Hh1, Hout1.
  unfold uploadBundleStats, try_catch. fold apiUrl fetcher delayMs.
  unfold mbind at 1. unfold Async_bind at 1.
  destruct (getPresignedUrl _ _ _ _ _ _ _ h) as [[url|err'] h1];
    simpl in Hh1, Hout1; subst h1.
  - by destruct Hout1 as (_ & r & ? & _).
  - destruct Hout1 as [[= <-]|(r & ? & _)]; done.
Qed.

Lemma uploadBundleStats_rejection_not_retried_witness :
  uploadBundleStats example_host
    {| payload := "{}"; oidcToken := "jwt"; serviceParams := example_params;
       apiUrl := None; fetcher := Some offline_fetcher; retryDelayMs := None |} []
  = (Return {| success := false; presignedUrl := None;
               error := Some "fetch failed" |},
     [Fetch CODECOV_API_URL (post_init example_host example_params "jwt")]).
Proof.
  apply (uploadBundleStats_rejection_not_retried example_host
           {| payload := "{}"; oidcToken := "jwt"; serviceParams := example_params;
              apiUrl := None; fetcher := Some offline_fetcher;
              retryDelayMs := None |} [] (ErrorObj "fetch failed")).
  reflexivity.
Defined.

(** The two phases in sequence, with the handler of the [catch] applied. *)
Lemma uploadBundleStats_run host options h :
  let apiUrl := default CODECOV_API_URL (Upload.apiUrl options) in
  let fetcher := default (globalThis_fetch host) (Upload.fetcher options) in
  let delayMs := default RETRY_DELAY_MS (retryDelayMs options) in
  let failure err :=
    {| success := false; presignedUrl := None; error := Some (message_of err) |} in
  uploadBundleStats host options h =
    match getPresignedUrl host apiUrl (serviceParams options)
            (oidcToken options) fetcher MAX_RETRIES delayMs h with
    | (Throw err, h1) => (Return (failure err), h1)
    | (Return url, h1) =>
        match fetchWithRetry url (put_init (payload options)) fetcher
                MAX_RETRIES delayMs h1 with
        | (Throw err, h2) => (Return (failure err), h2)
        | (Return _, h2) =>
            (Return {| success := true; presignedUrl := Some url;
                       error := None |}, h2)
        end
    end.
Proof.
  intros apiUrl fetcher delayMs failure.
  unfold uploadBundleStats, try_catch. fold apiUrl fetcher delayMs.
  unfold mbind at 1. unfold Async_bind at 1.
  destruct (getPresignedUrl _ _ _ _ _ _ _ h) as [[url|err] h1]; [|done].
  unfold putPayload. fold (put_init (payload options)).
  unfold mbind, Async_bind.
  by destruct (fetchWithRetry _ _ _ _ _ h1) as [[r|err] h2].
Qed.

(** X11. The requests of an upload: up to three POSTs to the API URL, and
    then, only when the last of them was answered with a success status and
    a non-empty [url], up to three PUTs of the payload to that very URL; at
    most six requests in all, with the configured delay (1000 ms when none
    is given) between the attempts of a phase.  The result has
    [presignedUrl] exactly when it is a success, and [error] exactly when it
    is not. *)
Theorem uploadBundleStats_requests (host : Host) (options : UploadOptions)
    (h : History) :
  let apiUrl := default CODECOV_API_URL (Upload.apiUrl options) in
  let fetcher := default (globalThis_fetch host) (Upload.fetcher options) in
  let delayMs := default 1000 (retryDelayMs options) in
  let post := post_init host (serviceParams options) (oidcToken options) in
  let put := put_init (payload options) in
  ∃ result k1,
    (k1 < 3)%nat
    ∧ let posts := attempts_before apiUrl post delayMs k1 ++ [Fetch apiUrl post] in
      (uploadBundleStats host options h
         = (Return result, h ++ posts)
       ∧ success result = false ∧ presignedUrl result = None
       ∧ is_Some (error result))
      ∨ ∃ url r k2,
          (k2 < 3)%nat ∧ url ≠ ""
          ∧ fetcher (h ++ attempts_before apiUrl post delayMs k1) apiUrl post = inr r
          ∧ ok r = true ∧ json r = inr (JsonObject (Some url))
          ∧ uploadBundleStats host options h
            = (Return result,
               h ++ posts ++ attempts_before url put delayMs k2 ++ [Fetch url put])
          ∧ (success result = true ∧ presignedUrl result = Some url
             ∧ error result = None
             ∨ success result = false ∧ presignedUrl result = None
               ∧ is_Some (error result)).
Proof.
  intros apiUrl fetcher delayMs post put.
  pose proof (getPresignedUrl_run host apiUrl (serviceParams options)
                (oidcToken options) fetcher MAX_RETRIES delayMs h) as [Hh1 Hout1].
  fold post in Hh1, Hout1.
  destruct (fetchWithRetry_run apiUrl post fetcher delayMs MAX_RETRIES h)
    as (k1 & Hk1 & _ & Hposts & Hlast).
  rewrite uploadBundleStats_run. fold apiUrl fetcher put.
  change (default RETRY_DELAY_MS (retryDelayMs options)) with delayMs.
  destruct (getPresignedUrl _ _ _ _ _ _ _ h) as [[url|err] h1] eqn:Hphase1;
    cbn [fst snd] in Hh1, Hout1.
  - destruct Hout1 as (Hurl & r & Hr & Hjson). rewrite Hr in Hlast.
    destruct Hlast as [Hfetch Hok].
    destruct (fetchWithRetry_run url put fetcher delayMs MAX_RETRIES h1)
      as (k2 & Hk2 & _ & Hputs & _).
    destruct (fetchWithRetry url put fetcher MAX_RETRIES delayMs h1)
      as [[r2|err2] h2] eqn:Hphase2; cbn [snd] in Hputs; subst h2.
    + eexists _, k1. split; [exact Hk1|]. cbv zeta. right.
      exists url, r, k2. rewrite Hh1, Hposts, <-!app_assoc.
      split_and!; try done. by left.
    + eexists _, k1. split; [exact Hk1|]. cbv zeta. right.
      exists url, r, k2. rewrite Hh1, Hposts, <-!app_assoc.
      split_and!; try done. right. simpl. eauto.
  - eexists _, k1. split; [exact Hk1|]. cbv zeta. left.
    rewrite Hh1, Hposts. simpl. eauto.
Qed.

End upload_trace_facts.


(** *** upload.ts: the two phases and the result *)

Section upload_phase_facts.
Import Js Upload UploadTrace.

(** A run of [fetchWithRetry] as a function of the answers: the attempts
    before the last one were answered with a non-success status, and the
    last answer decides the outcome; a non-success status is the last answer
    only when the budget is used up. *)
Lemma fetchWithRetry_last url init fetcher delayMs retries h :
  ∃ k,
    (k < Nat.max retries 1)%nat
    ∧ (∀ j, (j < k)%nat →
         ∃ r, fetcher (h ++ attempts_before url init delayMs j) url init = inr r
              ∧ ok r = false)
    ∧ (∀ r, fetcher (h ++ attempts_before url init delayMs k) url init = inr r →
         ok r = false → S k = Nat.max retries 1)
    ∧ fetchWithRetry url init fetcher retries delayMs h
      = (match fetcher (h ++ attempts_before url init delayMs k) url init with
         | inl err => Throw err
         | inr r => if ok r then Return r else Throw (request_failed r)
         end,
         (h ++ attempts_before url init delayMs k) ++ [Fetch url init]).
Proof.
  destruct (fetchWithRetry_run url init fetcher delayMs retries h)
    as (k & Hk & Hbefore & Hhist & Hout).
  exists k. split; [done|]. split; [done|].
  destruct (fetchWithRetry url init fetcher retries delayMs h) as [out h'].
  cbn [fst snd] in Hhist, Hout. subst h'. rewrite <-app_assoc.
  destruct out as [r|err].
  - destruct Hout as [Hr Hok]. rewrite Hr, Hok. split; [|done].
    intros r' [= <-] Hok'. congruence.
  - destruct Hout as [Hr|(r & Hr & Hok & -> & Hlast)].
    + rewrite Hr. split; [|done]. by intros r' [=].
    + rewrite Hr, Hok. split; [|done]. by intros r' [= <-] _.
Qed.

(** Phase 1 after its request: the body of the response is read, and its
    [url] is tested. *)
Lemma getPresignedUrl_unfold host apiUrl serviceParams oidcToken fetcher
    retries delayMs h :
  getPresignedUrl host apiUrl serviceParams oidcToken fetcher retries delayMs h
  = match fetchWithRetry apiUrl (post_init host serviceParams oidcToken)
            fetcher retries delayMs h with
    | (Return r, h') =>
        (match json r with
         | inl err => Throw err
         | inr JsonNull => Throw (ErrorObj (null_read_message host))
         | inr (JsonObject (Some u)) =>
             if bool_decide (u = "") then Throw missing_url else Return u
         | inr (JsonObject None) => Throw missing_url
         end, h')
    | (Throw err, h') => (Throw err, h')
    end.
Proof.
  unfold getPresignedUrl. fold (post_init host serviceParams oidcToken).
  unfold mbind at 1. unfold Async_bind at 1.
  destruct (fetchWithRetry _ _ _ _ _ h) as [[r|err] h']; [|done].
  unfold mbind, Async_bind, response_json, read_url, throw, mret, Async_ret.
  destruct (json r) as [err|[|[u|]]]; try done. simpl.
  unfold truthy. by destruct (bool_decide (u = "")).
Qed.

Lemma putPayload_unfold presignedUrl payload fetcher retries delayMs h :
  putPayload presignedUrl payload fetcher retries delayMs h
  = match fetchWithRetry presignedUrl (put_init payload) fetcher retries
            delayMs h with
    | (Return _, h') => (Return (), h')
    | (Throw err, h') => (Throw err, h')
    end.
Proof.
  unfold putPayload. fold (put_init payload). unfold mbind, Async_bind.
  by destruct (fetchWithRetry _ _ _ _ _ h) as [[r|err] h'].
Qed.

(** C4. Each phase in full, for every [fetch]: its request is made [k + 1]
    times with [k < 3]; each of the first [k] answers had a non-success
    status and was followed by the configured delay and another attempt; no
    delay follows the last attempt.  The last answer decides the outcome: a
    rejection is passed on; a non-success status is the last answer only at
    the third attempt and raises [Request failed: <status> <statusText>]; a
    success status ends the phase at once.  Phase 1 then reads the body, and
    a body without [url] (or with an empty one) raises the missing-url error
    right after that response, whichever attempt it answered, with no delay
    and no further request; phase 2 returns. *)
Theorem retry_policy_three_attempts (host : Host) (fetcher : Fetcher)
    (url : string) (serviceParams : GitHubActionsParams)
    (oidcToken payload : string) (delayMs : Z) (h : History) :
  let post :=
    {| method := "POST";
       headers := [("Content-Type", "application/json");
                   ("Authorization", "token " +:+ oidcToken)];
       body := JSON_stringify host serviceParams |} in
  let put :=
    {| method := "PUT"; headers := [("Content-Type", "application/json")];
       body := payload |} in
  let retry init := [Fetch url init; Sleep delayMs] in
  let failed r :=
    ErrorObj ("Request failed: " +:+ pretty (status r) +:+ " " +:+ statusText r) in
  let attempts init k answer :=
    (k < 3)%nat
    ∧ (∀ j, (j < k)%nat →
         ∃ r, fetcher (h ++ concat (replicate j (retry init))) url init = inr r
              ∧ ok r = false)
    ∧ fetcher (h ++ concat (replicate k (retry init))) url init = answer
    ∧ (∀ r, answer = inr r → ok r = false → k = 2%nat)
    ∧ fetch_count (concat (replicate k (retry init)) ++ [Fetch url init]) = S k in
  (∃ k answer,
     attempts post k answer
     ∧ getPresignedUrl host url serviceParams oidcToken fetcher MAX_RETRIES
         delayMs h
       = (match answer with
          | inl err => Throw err
          | inr r =>
              if ok r then
                match json r with
                | inl err => Throw err
                | inr JsonNull => Throw (ErrorObj (null_read_message host))
                | inr (JsonObject None) =>
                    Throw (ErrorObj "Presigned URL response missing 'url' field")
                | inr (JsonObject (Some u)) =>
                    if bool_decide (u = "")
                    then Throw (ErrorObj "Presigned URL response missing 'url' field")
                    else Return u
                end
              else Throw (failed r)
          end,
          h ++ concat (replicate k (retry post)) ++ [Fetch url post]))
  ∧ (∃ k answer,
       attempts put k answer
       ∧ putPayload url payload fetcher MAX_RETRIES delayMs h
         = (match answer with
            | inl err => Throw err
            | inr r => if ok r then Return () else Throw (failed r)
            end,
            h ++ concat (replicate k (retry put)) ++ [Fetch url put])).
Proof.
  intros post put retry failed attempts.
  assert (∀ init, ∃ k answer,
            attempts init k answer
            ∧ fetchWithRetry url init fetcher MAX_RETRIES delayMs h
              = (match answer with
                 | inl err => Throw err
                 | inr r => if ok r then Return r else Throw (failed r)
                 end,
                 h ++ concat (replicate k (retry init)) ++ [Fetch url init]))
    as Hphase.
  { intros init.
    destruct (fetchWithRetry_last url init fetcher delayMs MAX_RETRIES h)
      as (k & Hk & Hbefore & Hlast & Hrun).
    exists k, (fetcher (h ++ attempts_before url init delayMs k) url init).
    split; [|by rewrite Hrun, <-app_assoc].
    unfold attempts. split; [exact Hk|]. split; [exact Hbefore|].
    split; [done|]. split.
    - intros r Hr Hok. specialize (Hlast r Hr Hok). simpl in Hlast. lia.
    - change (concat (replicate k (retry init)))
        with (attempts_before url init delayMs k).
      rewrite fetch_count_app, fetch_count_attempts_before.
      unfold fetch_count. simpl. lia. }
  split.
  - destruct (Hphase post) as (k & answer & Hattempts & Hrun).
    exists k, answer. split; [exact Hattempts|].
    rewrite getPresignedUrl_unfold.
    change (post_init host serviceParams oidcToken) with post. rewrite Hrun.
    destruct answer as [err|r]; [done|]. by destruct (ok r).
  - destruct (Hphase put) as (k & answer & Hattempts & Hrun).
    exists k, answer. split; [exact Hattempts|].
    rewrite putPayload_unfold. change (put_init payload) with put. rewrite Hrun.
    destruct answer as [err|r]; [done|]. by destruct (ok r).
Qed.

Lemma retry_policy_three_attempts_witness :
  getPresignedUrl example_host "https://api.example.com" example_params "jwt"
    (makeFetcher [example_response 500 "Internal Server Error" None;
                  example_response 200 "OK" None]) MAX_RETRIES 250 []
  = (Throw (ErrorObj "Presigned URL response missing 'url' field"),
     [Fetch "https://api.example.com" (post_init example_host example_params "jwt");
      Sleep 250;
      Fetch "https://api.example.com" (post_init example_host example_params "jwt")])
  ∧ putPayload "https://storage.example.com" "{}"
      (makeFetcher (replicate 3 (example_response 403 "Forbidden" None)))
      MAX_RETRIES 0 []
    = (Throw (ErrorObj "Request failed: 403 Forbidden"),
       [Fetch "https://storage.example.com" example_put; Sleep 0;
        Fetch "https://storage.example.com" example_put; Sleep 0;
        Fetch "https://storage.example.com" example_put]).
Proof.
  split.
  - destruct (retry_policy_three_attempts example_host
                (makeFetcher [example_response 500 "Internal Server Error" None;
                              example_response 200 "OK" None])
                "https://api.example.com" example_params "jwt" "{}" 250 [])
      as [(k & answer & (Hk & Hbefore & Hanswer & Hlast & _) & Hrun) _].
    destruct k as [|[|[|k]]].
    + vm_compute in Hanswer. subst answer.
      by specialize (Hlast _ eq_refl eq_refl).
    + vm_compute in Hanswer. subst answer. exact Hrun.
    + destruct (Hbefore 1%nat) as (r & Hr & Hok); [lia|].
      vm_compute in Hr. injection Hr as <-. discriminate.
    + exfalso. lia.
  - destruct (retry_policy_three_attempts example_host
                (makeFetcher (replicate 3 (example_response 403 "Forbidden" None)))
                "https://storage.example.com" example_params "jwt" "{}" 0 [])
      as [_ (k & answer & (Hk & Hbefore & Hanswer & Hlast & _) & Hrun)].
    destruct k as [|[|[|k]]].
    + vm_compute in Hanswer. subst answer.
      by specialize (Hlast _ eq_refl eq_refl).
    + vm_compute in Hanswer. subst answer.
      by specialize (Hlast _ eq_refl eq_refl).
    + vm_compute in Hanswer. subst answer. exact Hrun.
    + exfalso. lia.
Defined.

(** C5. [uploadBundleStats] always returns a result and never throws.
    When phase 1 throws, or phase 1 returns a URL and phase 2 throws, the
    result is [{success: false, error}] where [error] is the message of the
    thrown [Error], or [String(value)] for a thrown value that is no
    [Error]; nothing is requested after the failure.  When both phases
    return, the result is [{success: true, presignedUrl}] with the URL of
    phase 1. *)
Theorem uploadBundleStats_never_throws (host : Host) (options : UploadOptions)
    (h : History) :
  let apiUrl := default CODECOV_API_URL (Upload.apiUrl options) in
  let fetcher := default (globalThis_fetch host) (Upload.fetcher options) in
  let retryDelay := default RETRY_DELAY_MS (retryDelayMs options) in
  let failure message :=
    {| success := false; presignedUrl := None; error := Some message |} in
  let phase1 :=
    getPresignedUrl host apiUrl (serviceParams options) (oidcToken options)
      fetcher MAX_RETRIES retryDelay h in
  let phase2 url h1 :=
    putPayload url (payload options) fetcher MAX_RETRIES retryDelay h1 in
  (∃ result h',
     uploadBundleStats host options h = (Return result, h')
     ∧ (success result = true ∧ is_Some (presignedUrl result)
        ∧ error result = None
        ∨ success result = false ∧ presignedUrl result = None
          ∧ is_Some (error result)))
  ∧ (∀ message h1,
       phase1 = (Throw (ErrorObj message), h1) →
       uploadBundleStats host options h = (Return (failure message), h1))
  ∧ (∀ value h1,
       phase1 = (Throw (OtherValue value), h1) →
       uploadBundleStats host options h = (Return (failure value), h1))
  ∧ (∀ url h1,
       phase1 = (Return url, h1) →
       (∀ message h2,
          phase2 url h1 = (Throw (ErrorObj message), h2) →
          uploadBundleStats host options h = (Return (failure message), h2))
       ∧ (∀ value h2,
            phase2 url h1 = (Throw (OtherValue value), h2) →
            uploadBundleStats host options h = (Return (failure value), h2))
       ∧ (∀ h2,
            phase2 url h1 = (Return (), h2) →
            uploadBundleStats host options h
            = (Return {| success := true; presignedUrl := Some url;
                         error := None |}, h2))).
Proof.
  intros apiUrl fetcher retryDelay failure phase1 phase2.
  assert (uploadBundleStats host options h =
      match phase1 with
      | (Throw err, h1) => (Return (failure (message_of err)), h1)
      | (Return url, h1) =>
          match phase2 url h1 with
          | (Throw err, h2) => (Return (failure (message_of err)), h2)
          | (Return _, h2) =>
              (Return {| success := true; presignedUrl := Some url;
                         error := None |}, h2)
          end
      end) as Hrun.
  { unfold uploadBundleStats, try_catch. fold apiUrl fetcher retryDelay.
    unfold mbind at 1. unfold Async_bind at 1. fold phase1.
    destruct phase1 as [[url|err] h1]; [|done].
    unfold mbind, Async_bind. fold (phase2 url h1).
    by destruct (phase2 url h1) as [[[]|err] h2]. }
  rewrite Hrun. split; [|split; [|split]].
  - destruct phase1 as [[url|err] h1].
    + destruct (phase2 url h1) as [[[]|err] h2].
      * eexists _, _. split; [done|]. left. simpl. eauto.
      * eexists _, _. split; [done|]. right. simpl. eauto.
    + eexists _, _. split; [done|]. right. simpl. eauto.
  - by intros message h1 ->.
  - by intros value h1 ->.
  - intros url h1 ->. split; [|split].
    + by intros message h2 ->.
    + by intros value h2 ->.
    + by intros h2 ->.
Qed.

Lemma uploadBundleStats_never_throws_witness :
  uploadBundleStats example_host
    (example_upload
       (makeFetcher (replicate 3 (example_response 403 "Forbidden" None)))) []
  = (Return {| success := false; presignedUrl := None;
               error := Some "Request failed: 403 Forbidden" |},
     [Fetch CODECOV_API_URL (post_init example_host example_params "jwt");
      Sleep 0;
      Fetch CODECOV_API_URL (post_init example_host example_params "jwt");
      Sleep 0;
      Fetch CODECOV_API_URL (post_init example_host example_params "jwt")])
  ∧ uploadBundleStats example_host
      (example_upload (λ _ _ _, inl (OtherValue "socket hang up"))) []
    = (Return {| success := false; presignedUrl := None;
                 error := Some "socket hang up" |},
       [Fetch CODECOV_API_URL (post_init example_host example_params "jwt")])
  ∧ uploadBundleStats example_host
      (example_upload
         (makeFetcher
            [example_response 200 "OK" (Some "https://storage.example.com/put");
             example_response 500 "Internal Server Error" None;
             example_response 200 "OK" None])) []
    = (Return {| success := true;
                 presignedUrl := Some "https://storage.example.com/put";
                 error := None |},
       [Fetch CODECOV_API_URL (post_init example_host example_params "jwt");
        Fetch "https://storage.example.com/put" example_put; Sleep 0;
        Fetch "https://storage.example.com/put" example_put]).
Proof.
  split; [|split].
  - destruct (uploadBundleStats_never_throws example_host
                (example_upload
                   (makeFetcher
                      (replicate 3 (example_response 403 "Forbidden" None))))
                []) as (_ & Herror & _).
    apply Herror. reflexivity.
  - destruct (uploadBundleStats_never_throws example_host
                (example_upload (λ _ _ _, inl (OtherValue "socket hang up"))) [])
      as (_ & _ & Hother & _).
    apply Hother. reflexivity.
  - destruct (uploadBundleStats_never_throws example_host
                (example_upload
                   (makeFetcher
                      [example_response 200 "OK"
                         (Some "https://storage.example.com/put");
                       example_response 500 "Internal Server Error" None;
                       example_response 200 "OK" None])) [])
      as (_ & _ & _ & Hok).
    destruct (Hok "https://storage.example.com/put"
                [Fetch CODECOV_API_URL
                   (post_init example_host example_params "jwt")])
      as (_ & _ & Hsuccess); [reflexivity|].
    apply Hsuccess. reflexivity.
Defined.

End upload_phase_facts.


(** *** transform.ts: modules, distinct ids, assets *)

Section transform_more_facts.
Import Js Path Transform.

Lemma filter_sublist {A} (keep : A → bool) (l : list A) :
  List.filter keep l `sublist_of` l.
Proof.
  induction l as [|x l IH]; simpl; [constructor|].
  destruct (keep x); by constructor.
Qed.

(** What a partial function picks is a sublist of what a total one gives on
    the elements kept, when the two agree. *)
Lemma omap_sublist_fmap_filter {A B} (f : A → option B) (g : A → B)
    (keep : A → bool) (l : list A) :
  (∀ x y, x ∈ l → f x = Some y → keep x = true ∧ g x = y) →
  omap f l `sublist_of` g <$> List.filter keep l.
Proof.
  induction l as [|x l IH]; intros Hagree; [constructor|].
  assert (omap f l `sublist_of` g <$> List.filter keep l) as Hrest.
  { apply IH. intros x' y Hx'. apply Hagree. by right. }
  cbn [omap list_omap List.filter].
  destruct (f x) as [y|] eqn:Hfx.
  - destruct (Hagree x y) as [-> <-]; [by left|done|].
    rewrite fmap_cons. by constructor.
  - destruct (keep x); [rewrite fmap_cons; by constructor|done].
Qed.

(** Every id the first loop stores is an ordinal and the path. *)
Lemma fill_chunkIdMap_values entries i m p v :
  fill_chunkIdMap entries i m !! p = Some v →
  m !! p = Some v ∨ ∃ j, v = uniqueId_of j p.
Proof.
  revert i m. induction entries as [|[q o] entries IH]; intros i m; simpl; [auto|].
  intros [Hv|Hv]%IH; [|auto].
  destruct (decide (q = p)) as [->|Hne].
  - rewrite lookup_insert_eq in Hv. injection Hv as <-. eauto.
  - rewrite lookup_insert_ne in Hv by done. auto.
Qed.

Lemma linked_id_Some outputs inputPath e uid :
  e ∈ outputs →
  linked_id (fill_chunkIdMap outputs 0 ∅) inputPath e = Some uid →
  negb (is_source_map e.1) = true
  ∧ Chunk.uniqueId (chunk_of (fill_chunkIdMap outputs 0 ∅) e) = uid.
Proof.
  intros _. unfold linked_id. destruct (is_source_map e.1); [done|].
  destruct (JsObject.js_in _ _); [|done].
  destruct (_ !! e.1) as [uid'|] eqn:Hlookup; [|done].
  destruct (truthy uid'); [|done]. intros [= <-]. split; [done|].
  simpl. by apply lookup_total_correct.
Qed.

Lemma module_ids_sublist env metafile options :
  let payload := transformMetafile env metafile options in
  Forall (λ module,
      ModuleEntry.chunkUniqueIds module
      `sublist_of` Chunk.uniqueId <$> OutputPayload.chunks payload)
    (OutputPayload.modules payload).
Proof.
  intros payload.
  destruct (transformMetafile_lists env metafile options)
    as (outputDir & _ & Hchunks & Hmodules).
  fold payload in Hchunks, Hmodules. rewrite Hchunks, Hmodules.
  apply Forall_fmap, Forall_forall. intros [p input] _. simpl.
  rewrite <-list_fmap_compose. unfold emitted.
  apply omap_sublist_fmap_filter. intros e uid He Hlink.
  by apply (linked_id_Some _ p).
Qed.

(** X12. For every manifest there is one module per input, in the order of
    the inputs, with the path of the input as name and its bytes as size;
    the chunk ids of a module are a sublist of the unique ids of the chunks
    of the payload, in the order of the chunks. *)
Theorem modules_follow_inputs (env : Env) (metafile : Metafile.t)
    (options : TransformOptions.t) :
  let payload := transformMetafile env metafile options in
  (λ module, (ModuleEntry.name module, ModuleEntry.size module))
    <$> OutputPayload.modules payload
  = (λ e, (e.1, MetafileInput.bytes e.2)) <$> Metafile.inputs metafile
  ∧ Forall (λ module,
        ModuleEntry.chunkUniqueIds module
        `sublist_of` Chunk.uniqueId <$> OutputPayload.chunks payload)
      (OutputPayload.modules payload).
Proof.
  intros payload. split; [|apply module_ids_sublist].
  destruct (transformMetafile_lists env metafile options) as (_ & _ & _ & Hmodules).
  fold payload in Hmodules. rewrite Hmodules, <-list_fmap_compose. done.
Qed.

(** X14. An input whose path is the name of a property that every object
    inherits ([constructor], [toString], ...) is linked to every chunk of
    the payload, whatever the outputs were built from. *)
Theorem modules_of_inherited_keys (env : Env) (metafile : Metafile.t)
    (options : TransformOptions.t) :
  let payload := transformMetafile env metafile options in
  Forall (λ module,
      ModuleEntry.name module ∈ JsObject.Object_prototype_keys →
      ModuleEntry.chunkUniqueIds module
      = Chunk.uniqueId <$> OutputPayload.chunks payload)
    (OutputPayload.modules payload).
Proof.
  intros payload.
  destruct (transformMetafile_lists env metafile options)
    as (outputDir & _ & Hchunks & Hmodules).
  fold payload in Hchunks, Hmodules. rewrite Hchunks, Hmodules.
  apply Forall_fmap, Forall_forall. intros [p input] _. unfold compose.
  cbn [module_of ModuleEntry.name ModuleEntry.chunkUniqueIds fst snd]. intros Hp.
  set (m := fill_chunkIdMap (Metafile.outputs metafile) 0 ∅).
  rewrite <-(list_fmap_compose (chunk_of m) Chunk.uniqueId). unfold emitted.
  assert (∀ e, e ∈ Metafile.outputs metafile →
            linked_id m p e
            = if negb (is_source_map e.1) then Some (m !!! e.1) else None) as Hlink.
  { intros [q o] Hin. unfold linked_id, JsObject.js_in. cbn [fst snd].
    rewrite (bool_decide_eq_true_2 (p ∈ _)) by done. rewrite orb_true_r.
    destruct (is_source_map q); [done|]. simpl.
    destruct (fill_chunkIdMap_total (Metafile.outputs metafile) 0 ∅ q) as [uid Huid].
    { apply list_elem_of_fmap. by exists (q, o). }
    fold m in Huid. rewrite Huid, (lookup_total_correct _ _ _ Huid).
    apply fill_chunkIdMap_values in Huid as [Huid|[j ->]]; [done|].
    by rewrite uniqueId_of_truthy. }
  clearbody m. revert Hlink. generalize (Metafile.outputs metafile) as l.
  induction l as [|e l IH]; intros Hlink; [done|].
  cbn [omap list_omap List.filter]. rewrite Hlink by (by left).
  rewrite IH by (intros e' He'; apply Hlink; by right).
  by destruct (negb (is_source_map e.1)).
Qed.

Lemma modules_of_inherited_keys_witness :
  ModuleEntry.chunkUniqueIds <$>
    OutputPayload.modules
      (transformMetafile Transform.example_env inherited_key_metafile example_options)
  = [Chunk.uniqueId <$>
       OutputPayload.chunks
         (transformMetafile Transform.example_env inherited_key_metafile example_options)].
Proof.
  pose proof (modules_of_inherited_keys Transform.example_env
                inherited_key_metafile example_options) as Hall.
  cbv zeta in Hall.
  destruct (OutputPayload.modules _) as [|module [|? ?]] eqn:Hmodules;
    try (vm_compute in Hmodules; discriminate).
  apply Forall_cons in Hall as [Hmodule _]. rewrite fmap_cons. f_equal.
  apply Hmodule. injection Hmodules as <-. cbn [ModuleEntry.name].
  apply (bool_decide_unpack _). reflexivity.
Defined.

Lemma modules_of_own_keys_witness :
  ModuleEntry.chunkUniqueIds <$>
    OutputPayload.modules
      (transformMetafile Transform.example_env example_metafile example_options)
  = [["0-main.js"]; ["1-lazy.js"]].
Proof.
  rewrite (modules_of_own_keys Transform.example_env example_metafile example_options
             example_metafile_wf).
  - reflexivity.
  - apply (bool_decide_unpack _). by vm_compute.
Defined.

End transform_more_facts.


(** *** transform.ts: distinct ids, assets, source maps *)

Section transform_payload_facts.
Import Js Path Transform.

(** The decimal rendering of a number holds no dash. *)
Lemma pretty_N_go_no_dash (x : N) (s : string) :
  "-"%char ∉ chars s → "-"%char ∉ chars (pretty_N_go x s).
Proof.
  revert s. induction (N.lt_wf_0 x) as [x _ IH]; intros s Hs.
  assert (x = 0 ∨ 0 < x)%N as [->|Hpos] by lia.
  - by rewrite pretty_N_go_0.
  - rewrite pretty_N_go_step by done. apply IH; [by apply N.div_lt|].
    cbn [chars]. apply not_elem_of_cons. split; [|done].
    unfold pretty_N_char. by repeat case_match.
Qed.

Lemma pretty_nat_no_dash (i : nat) : "-"%char ∉ chars (pretty i).
Proof.
  unfold pretty, pretty_nat, pretty, pretty_N.
  case_decide; [by apply (bool_decide_unpack _)|].
  apply pretty_N_go_no_dash. apply not_elem_of_nil.
Qed.

Lemma split_at_first {A} (c : A) l1 r1 l2 r2 :
  c ∉ l1 → c ∉ l2 → l1 ++ c :: r1 = l2 ++ c :: r2 → l1 = l2 ∧ r1 = r2.
Proof.
  revert l2. induction l1 as [|x l1 IH]; intros [|y l2] H1 H2 Heq.
  - by injection Heq.
  - injection Heq as -> _. by apply not_elem_of_cons in H2 as [? _].
  - injection Heq as -> _. by apply not_elem_of_cons in H1 as [? _].
  - injection Heq as -> Heq.
    apply not_elem_of_cons in H1 as [_ H1]. apply not_elem_of_cons in H2 as [_ H2].
    destruct (IH l2 H1 H2 Heq) as [-> ->]; done.
Qed.

(** An id tells the position and the path it was built from. *)
Lemma uniqueId_of_inj i p j q :
  uniqueId_of i p = uniqueId_of j q → i = j ∧ p = q.
Proof.
  unfold uniqueId_of. intros Heq%(f_equal chars).
  rewrite !chars_app in Heq. cbn [chars app] in Heq.
  apply split_at_first in Heq as [Hi Hp]; try apply pretty_nat_no_dash.
  split; [|by apply chars_inj]. by apply (inj pretty), chars_inj.
Qed.

(** Every path of the outputs is mapped to an id built from that path. *)
Lemma fill_chunkIdMap_id outputs p :
  p ∈ JsObject.keys outputs →
  ∃ j, fill_chunkIdMap outputs 0 ∅ !!! p = uniqueId_of j p.
Proof.
  intros Hp. destruct (fill_chunkIdMap_total outputs 0 ∅ p Hp) as [uid Huid].
  rewrite (lookup_total_correct _ _ _ Huid).
  apply fill_chunkIdMap_values in Huid as [Huid|[j ->]]; [done|eauto].
Qed.

Lemma chunk_uniqueIds_NoDup env metafile options :
  JsObject.wf (Metafile.outputs metafile) →
  NoDup (Chunk.uniqueId <$> OutputPayload.chunks (transformMetafile env metafile options)).
Proof.
  intros Hwf.
  destruct (transformMetafile_lists env metafile options) as (_ & _ & -> & _).
  set (m := fill_chunkIdMap (Metafile.outputs metafile) 0 ∅).
  rewrite <-list_fmap_compose.
  change (Chunk.uniqueId ∘ chunk_of m)
    with ((λ p, m !!! p) ∘ (fst : string * MetafileOutput.t → string)).
  rewrite list_fmap_compose.
  assert (fst <$> emitted (Metafile.outputs metafile)
          `sublist_of` JsObject.keys (Metafile.outputs metafile)) as Hsub.
  { apply fmap_sublist, filter_sublist. }
  apply NoDup_fmap_2_strong; [|by eapply sublist_NoDup].
  intros p q Hp Hq.
  apply (λ H, elem_of_sublist _ _ _ H Hsub) in Hp, Hq.
  destruct (fill_chunkIdMap_id _ p Hp) as [i Hi].
  destruct (fill_chunkIdMap_id _ q Hq) as [j Hj].
  unfold m. rewrite Hi, Hj. by intros [_ ?]%uniqueId_of_inj.
Qed.

(** X15. The unique ids deserve their name: when the keys of the outputs
    are distinct, as the keys of an object are, no two chunks of the payload
    have the same [uniqueId], and no module lists a chunk twice. *)
Theorem uniqueIds_are_unique (env : Env) (metafile : Metafile.t)
    (options : TransformOptions.t) :
  JsObject.wf (Metafile.outputs metafile) →
  let payload := transformMetafile env metafile options in
  NoDup (Chunk.uniqueId <$> OutputPayload.chunks payload)
  ∧ Forall (λ module, NoDup (ModuleEntry.chunkUniqueIds module))
      (OutputPayload.modules payload).
Proof.
  intros Hwf payload.
  pose proof (chunk_uniqueIds_NoDup env metafile options Hwf) as Hchunks.
  split; [done|].
  eapply Forall_impl; [apply module_ids_sublist|].
  intros module Hsub. by eapply sublist_NoDup.
Qed.

Lemma uniqueIds_are_unique_witness :
  NoDup (Chunk.uniqueId <$>
           OutputPayload.chunks
             (transformMetafile Transform.example_env example_metafile example_options)).
Proof.
  apply (uniqueIds_are_unique Transform.example_env example_metafile example_options).
  apply (bool_decide_unpack _). by vm_compute.
Defined.

Lemma transformMetafile_assets env metafile options :
  OutputPayload.assets (transformMetafile env metafile options)
  = asset_of env
      match TransformOptions.outputDir options with
      | Some d => if truthy d then Some (resolve env d) else None
      | None => None
      end
    <$> emitted (Metafile.outputs metafile).
Proof.
  unfold transformMetafile. rewrite outputs_loop_spec. done.
Qed.

(** X16. The assets of a payload are the outputs that are no source maps,
    in order, each with the output path as name, its bytes as size and the
    normalised path.  With a [resolve] that gives no empty path, as that of
    [node:path] does (its results are absolute), the gzip size of an asset
    is [null] exactly when no output directory was given (or an empty one),
    or the file of that base name in the resolved output directory cannot be
    read, or the extension of the output path is not compressible; a gzip
    size that is given is the length of the gzip stream of that file, at
    least 18. *)
Theorem asset_fields (env : Env) (metafile : Metafile.t)
    (options : TransformOptions.t) :
  (∀ p, resolve env p ≠ "") →
  let payload := transformMetafile env metafile options in
  Forall2 (λ asset e,
      Asset.name asset = e.1
      ∧ Asset.size asset = MetafileOutput.bytes e.2
      ∧ Asset.normalized asset = Normalize.normalizeAssetName e.1
      ∧ (Asset.gzipSize asset = None ↔
           TransformOptions.outputDir options = None
           ∨ TransformOptions.outputDir options = Some ""
           ∨ (∃ d, TransformOptions.outputDir options = Some d
                ∧ readFileSync env (join [resolve env d; basename e.1]) = None)
           ∨ Compress.COMPRESSIBLE_test e.1 = false)
      ∧ (∀ n, Asset.gzipSize asset = Some n →
           ∃ d content,
             TransformOptions.outputDir options = Some d
             ∧ readFileSync env (join [resolve env d; basename e.1]) = Some content
             ∧ n = Z.of_nat (length (Compress.gzipSync (zlib env) content))
             ∧ 18 ≤ n))
    (OutputPayload.assets payload)
    (emitted (Metafile.outputs metafile)).
Proof.
  intros Hresolve payload. unfold payload. rewrite transformMetafile_assets.
  apply Forall2_fmap_l, Forall_Forall2_diag, Forall_forall.
  intros [p o] _. simpl.
  split; [done|]. split; [done|]. split; [done|].
  destruct (TransformOptions.outputDir options) as [d|];
    [|split; [split; [by left|done]|done]].
  unfold truthy. case_bool_decide as Hd; cbn [negb].
  { subst d. split; [split; [right; by left|done]|done]. }
  unfold gzipSize_of, truthy.
  rewrite (bool_decide_eq_false_2 (resolve env d = "")) by apply Hresolve.
  cbn [negb].
  cbn [negb].
  destruct (readFileSync env (join [resolve env d; basename p])) as [content|]
    eqn:Hread.
  - unfold Compress.getGzipSize.
    destruct (Compress.COMPRESSIBLE_test p); cbn [negb]; split.
    + split; [done|]. intros [?|[[= ?]|[(d' & [= <-] & Hnone)|?]]]; try done.
      by rewrite Hread in Hnone.
    + intros n [= <-]. exists d, content. split_and!; try done.
      change 18 with (Z.of_nat 18). apply Nat2Z.inj_le, gzipSync_length.
    + split; [|done]. intros _. by do 3 right.
    + done.
  - split; [|done]. split; [|done]. intros _. right; right; left. eauto.
Qed.

Lemma asset_fields_witness :
  Forall (λ asset, ∀ n, Asset.gzipSize asset = Some n → 18 ≤ n)
    (OutputPayload.assets
       (transformMetafile Disk.example_disk_env example_metafile
          Disk.example_disk_options))
  ∧ Asset.gzipSize <$>
      OutputPayload.assets
        (transformMetafile Disk.example_disk_env example_metafile
           Disk.example_disk_options)
    = [Some 21; None].
Proof.
  split; [|reflexivity].
  eapply Forall2_Forall_l.
  - apply (asset_fields Disk.example_disk_env example_metafile
             Disk.example_disk_options).
    intros p Hp. apply (f_equal chars) in Hp. cbn [resolve Disk.example_disk_env] in Hp.
    rewrite chars_app in Hp. discriminate.
  - apply Forall_true. intros e asset (_ & _ & _ & _ & Hsome) n Hn.
    by destruct (Hsome n Hn) as (? & ? & _ & _ & _ & ?).
Defined.

Lemma fill_chunkIdMap_app l1 l2 i m :
  fill_chunkIdMap (l1 ++ l2) i m
  = fill_chunkIdMap l2 (i + length l1) (fill_chunkIdMap l1 i m).
Proof.
  revert i m. induction l1 as [|[p o] l1 IH]; intros i m; simpl.
  - by rewrite Nat.add_0_r.
  - rewrite IH. by replace (S i + length l1)%nat with (i + S (length l1))%nat by lia.
Qed.

(** Source maps that follow the outputs leave the ids of the other paths
    as they are. *)
Lemma fill_chunkIdMap_maps outputs maps p :
  Forall (λ e, is_source_map e.1 = true) maps → is_source_map p = false →
  fill_chunkIdMap (outputs ++ maps) 0 ∅ !! p = fill_chunkIdMap outputs 0 ∅ !! p.
Proof.
  intros Hmaps Hp. rewrite fill_chunkIdMap_app. apply fill_chunkIdMap_other.
  intros ((q & o) & -> & Hin)%list_elem_of_fmap.
  rewrite Forall_forall in Hmaps. apply Hmaps in Hin. simpl in *. congruence.
Qed.

Lemma emitted_maps {V} (maps : JsObject.t V) :
  Forall (λ e, is_source_map e.1 = true) maps → emitted maps = [].
Proof.
  unfold emitted. induction 1 as [|e maps He _ IH]; [done|].
  cbn [List.filter]. by rewrite He.
Qed.

Lemma emitted_app {V} (l1 l2 : JsObject.t V) :
  emitted (l1 ++ l2) = emitted l1 ++ emitted l2.
Proof.
  unfold emitted. induction l1 as [|e l1 IH]; [done|].
  cbn [app List.filter]. rewrite IH. by destruct (negb _).
Qed.

Lemma emitted_not_map {V} (outputs : JsObject.t V) e :
  e ∈ emitted outputs → is_source_map e.1 = false.
Proof.
  unfold emitted. induction outputs as [|x outputs IH]; cbn [List.filter].
  - by intros ?%elem_of_nil.
  - destruct (is_source_map x.1) eqn:Hx; cbn [negb]; [done|].
    intros [->|?]%elem_of_cons; auto.
Qed.

(** X17. Source maps listed after the other outputs leave no trace in the
    payload: it is the payload of the manifest without them. *)
Theorem trailing_source_maps_ignored (env : Env)
    (inputs : JsObject.t MetafileInput.t)
    (outputs maps : JsObject.t MetafileOutput.t)
    (options : TransformOptions.t) :
  Forall (λ e, is_source_map e.1 = true) maps →
  transformMetafile env (Metafile.mk inputs (outputs ++ maps)) options
  = transformMetafile env (Metafile.mk inputs outputs) options.
Proof.
  intros Hmaps. unfold transformMetafile.
  cbn [Metafile.inputs Metafile.outputs].
  rewrite !outputs_loop_spec, !modules_loop_spec.
  rewrite emitted_app, (emitted_maps maps), app_nil_r by done.
  cbn [app]. f_equal.
  - apply list_fmap_ext. intros _ e He%list_elem_of_lookup_2.
    apply emitted_not_map in He. unfold chunk_of. f_equal.
    rewrite !lookup_total_alt. by rewrite fill_chunkIdMap_maps.
  - apply list_fmap_ext. intros _ [p input] _. unfold module_of.
    cbn [fst snd]. f_equal. rewrite omap_app.
    assert (omap (linked_id (fill_chunkIdMap (outputs ++ maps) 0 ∅) p) maps = [])
      as ->.
    { generalize (fill_chunkIdMap (outputs ++ maps) 0 ∅) as m. intros m.
      clear -Hmaps. induction Hmaps as [|e maps He _ IH]; [done|].
      cbn [omap list_omap]. unfold linked_id at 1. by rewrite He. }
    rewrite app_nil_r. apply list_omap_ext, Forall2_same_length_lookup_2; [done|].
    intros i e e' He He'. simplify_eq. unfold linked_id.
    destruct (is_source_map e.1) eqn:Hmap; [done|].
    by rewrite fill_chunkIdMap_maps.
Qed.

Lemma trailing_source_maps_ignored_witness :
  transformMetafile Transform.example_env example_metafile example_options
  = transformMetafile Transform.example_env
      (Metafile.mk (Metafile.inputs example_metafile)
         (take 2 (Metafile.outputs example_metafile)))
      example_options.
Proof.
  apply (trailing_source_maps_ignored Transform.example_env
           (Metafile.inputs example_metafile)
           (take 2 (Metafile.outputs example_metafile))
           (drop 2 (Metafile.outputs example_metafile))).
  repeat constructor.
Defined.

End transform_payload_facts.


(** *** normalize.ts: names that differ in the hash only *)

Section normalizeAssetName_builds.
Import Js Path Normalize.

(** X18. What the function is for: two names in the same directory whose
    base names differ in the hash segment only (same text before the
    delimiter, same delimiter, same extension, any two runs of eight or more
    hex digits) have the same normalised name. *)
Theorem normalizeAssetName_hash_independent (name1 name2 pre : string)
    (d : ascii) (hash1 hash2 ext : string) :
  dirname name1 = dirname name2 →
  has_hash_segment is_alpha (basename name1) pre d hash1 ext →
  has_hash_segment is_alpha (basename name2) pre d hash2 ext →
  normalizeAssetName name1 = normalizeAssetName name2.
Proof.
  intros Hdir Hseg1 Hseg2.
  rewrite (normalizeAssetName_segment name1 pre d hash1 ext Hseg1).
  rewrite (normalizeAssetName_segment name2 pre d hash2 ext Hseg2).
  cbv zeta. by rewrite Hdir.
Qed.

Lemma normalizeAssetName_hash_independent_witness :
  normalizeAssetName "dist/main-2c458a0c.js"
  = normalizeAssetName "dist/main-0123456789abcdef.js".
Proof.
  apply (normalizeAssetName_hash_independent _ _ "main" "-"%char
           "2c458a0c" "0123456789abcdef" "js").
  - reflexivity.
  - repeat split; try done; simpl; lia.
  - repeat split; try done; simpl; lia.
Defined.

Lemma take_class_replace_hex_runs s :
  (length (take_class is_hex s) < 8)%nat →
  take_class is_hex (replace_hex_runs s) = take_class is_hex s.
Proof.
  induction s as [|c s IH]; intros Hlen; [done|].
  rewrite replace_hex_runs_cons, match_hex_run_None by done.
  cbn [take_class] in *. destruct (is_hex c); [|done].
  cbn [length] in Hlen. rewrite IH; [done|lia].
Qed.

(** After the second pattern no run of eight hex digits is left. *)
Lemma replace_hex_runs_check s :
  short_hex_runs_check (replace_hex_runs s) = true.
Proof.
  remember (length s) as n eqn:Hn. revert s Hn.
  induction n as [n IH] using lt_wf_ind. intros [|c s] Hn; [done|].
  rewrite replace_hex_runs_cons.
  destruct (match_hex_run (c :: s)) as [rest|] eqn:Hm.
  - apply match_hex_run_shorter in Hm.
    cbn [short_hex_runs_check]. apply andb_true_iff. split; [done|].
    apply (IH (length rest)); [lia|done].
  - unfold match_hex_run in Hm. case_match eqn:Hlen; [done|].
    apply Nat.leb_gt in Hlen.
    pose proof (take_class_replace_hex_runs (c :: s) Hlen) as Htake.
    rewrite replace_hex_runs_cons, match_hex_run_None in Htake by done.
    cbn [short_hex_runs_check]. rewrite Htake. apply andb_true_iff.
    split; [by apply Nat.ltb_lt|].
    apply (IH (length s)); [simpl in Hn; lia|done].
Qed.

(** A base name without long runs is put back as it is. *)
Lemma normalizeAssetName_short_base name :
  short_hex_runs_check (chars (basename name)) = true →
  normalizeAssetName name
  = if bool_decide (dirname name = ".") then basename name
    else join [dirname name; basename name].
Proof.
  intros Hshort. unfold normalizeAssetName.
  rewrite short_runs_replace_hash_ext, short_runs_replace_hex_runs by done.
  rewrite str_chars. by rewrite bool_decide_eq_false_2 by (by intros []).
Qed.

(** X19. For a path in normal form whose base name has no hash segment,
    the result is the path with the base name rewritten by the second
    pattern; that base name holds no run of eight or more hex digits, and
    normalising the result again changes nothing. *)
Theorem normalizeAssetName_fallback_stable (segments : list string)
    (file : string) :
  Forall plain_segment segments → plain_segment file →
  (∀ pre d hash ext, ¬ has_hash_segment is_alpha file pre d hash ext) →
  let result := normalizeAssetName (path_of (segments ++ [file])) in
  ∃ fallback,
    result = path_of (segments ++ [fallback])
    ∧ RunsStarred (chars file) (chars fallback)
    ∧ short_hex_runs fallback
    ∧ normalizeAssetName result = result.
Proof.
  intros Hsegs Hfile Hnone result.
  set (fallback := str (replace_hex_runs (chars file))).
  assert (short_hex_runs_check (chars fallback) = true) as Hcheck.
  { unfold fallback. rewrite chars_str. apply replace_hex_runs_check. }
  assert (plain_segment fallback) as Hplain.
  { apply plain_chars_segment. unfold fallback. rewrite chars_str.
    eapply starred_plain; [apply replace_hex_runs_starred|].
    by apply plain_segment_chars. }
  destruct (rejoin_plain segments file fallback Hsegs Hfile Hplain)
    as [Hbase Hjoin].
  assert (result = path_of (segments ++ [fallback])) as Hresult.
  { unfold result. rewrite normalizeAssetName_fallback by (by rewrite Hbase).
    cbv zeta. rewrite Hbase. exact Hjoin. }
  exists fallback. split; [done|]. split.
  { unfold fallback. rewrite chars_str. apply replace_hex_runs_starred. }
  split; [by apply short_hex_runs_check_sound|].
  rewrite Hresult.
  destruct (rejoin_plain segments fallback fallback Hsegs Hplain Hplain)
    as [Hbase' Hjoin'].
  rewrite normalizeAssetName_short_base by (by rewrite Hbase').
  by rewrite Hbase'.
Qed.

Lemma normalizeAssetName_fallback_stable_witness :
  normalizeAssetName (normalizeAssetName "dist/chunk-deadbeef00")
  = normalizeAssetName "dist/chunk-deadbeef00".
Proof.
  destruct (normalizeAssetName_fallback_stable ["dist"] "chunk-deadbeef00")
    as (fallback & _ & _ & _ & Hstable).
  - repeat constructor; try done; by apply no_char_check.
  - repeat constructor; try done; by apply no_char_check.
  - intros pre d hash ext Hseg.
    destruct (hash_segment_last_char _ _ _ _ _ _ Hseg) as (x & r & Hrev & Hx).
    vm_compute in Hrev. injection Hrev as <- _. discriminate.
  - exact Hstable.
Defined.

End normalizeAssetName_builds.
